(** * An in-memory UNIX-like file system (unixFileSystem.py)

    A shallow embedding of the block allocator, the inode layer, the path
    resolver and the [FileSystem] facade, followed by the properties the
    specification states about them.

    Conventions of the embedding.
    - Python [int] is [Z]; [bytes]/[bytearray] are [list Byte.byte]; [str]
      is [string]; a [dict] is a [gmap] (iteration order is not modelled).
    - Python objects are shared by reference: a directory's [entries] and
      the registry [inodes] hold references to [INode] objects.  The object
      store is the map [objs], and the address of an inode object is its
      [inode_id] (every object is built with a fresh id taken from
      [_alloc_inode_id]).  Objects that became garbage stay in [objs].
    - The locks are not modelled: every operation runs to completion.
    - A call either returns ([Ret]) or raises ([Raise]); both carry the
      state at that point, so mutations done before a [raise] or an early
      [return] are kept. *)

From Stdlib Require Import ZArith Lia Ascii String.
From stdpp Require Import base gmap strings list fin_maps.

Local Open Scope Z_scope.

(** ** Strings: [str.split("/")] and [str.rsplit("/", 1)] *)

Definition is_slash (c : ascii) : bool := Ascii.eqb c "/"%char.

(** [split_slash s] is [s.split("/")]: the list of the (possibly empty)
    segments between separators; never the empty list. *)
Fixpoint split_slash (s : string) : list string :=
  match s with
  | EmptyString => [EmptyString]
  | String c s' =>
      if is_slash c then EmptyString :: split_slash s'
      else match split_slash s' with
           | [] => [String c EmptyString]
           | seg :: segs => String c seg :: segs
           end
  end.

(** [rsplit_slash s] is [s.rsplit("/", 1)] when it has two elements: the
    text before and after the last separator.  [None] stands for the
    one-element list Python returns when [s] has no separator. *)
Fixpoint rsplit_slash (s : string) : option (string * string) :=
  match s with
  | EmptyString => None
  | String c s' =>
      match rsplit_slash s' with
      | Some (before, after) => Some (String c before, after)
      | None => if is_slash c then Some (EmptyString, s') else None
      end
  end.

(** [p for p in path.split("/") if p] *)
Definition path_parts (path : string) : list string :=
  filter (λ p : string, p ≠ EmptyString) (split_slash path).

(** [parent_path or "/"] *)
Definition or_slash (parent_path : string) : string :=
  match parent_path with
  | EmptyString => "/"%string
  | _ => parent_path
  end.

(** ** Python sequence indexing *)

(** [l[i]] for a Python [int] index: negative indices count from the end;
    [None] stands for [IndexError]. *)
Definition py_getitem {A} (l : list A) (i : Z) : option A :=
  if 0 <=? i then l !! Z.to_nat i
  else if - i <=? Z.of_nat (length l) then l !! Z.to_nat (Z.of_nat (length l) + i)
  else None.

(** [l.pop()]: the last element and the rest; [None] on the empty list. *)
Definition list_pop {A} (l : list A) : option (A * list A) :=
  match reverse l with
  | [] => None
  | x :: r => Some (x, reverse r)
  end.

(** ** Block store *)

Definition BLOCK_SIZE : Z := 4096.

Record DataBlock := mkDataBlock { block_id : Z; data : list Byte.byte }.

Definition DataBlock_init (block_id : Z) : DataBlock :=
  mkDataBlock block_id (replicate (Z.to_nat BLOCK_SIZE) Byte.x00).

Record BlockManager := mkBlockManager { free_blocks : list Z }.

Definition BlockManager_init (total_blocks : Z) : BlockManager :=
  mkBlockManager (Z.of_nat <$> seq 0 (Z.to_nat total_blocks)).

Definition allocate (bm : BlockManager) : option Z * BlockManager :=
  match list_pop (free_blocks bm) with
  | Some (blk, rest) => (Some blk, mkBlockManager rest)
  | None => (None, bm)
  end.

Definition free (bm : BlockManager) (block_id : Z) : BlockManager :=
  mkBlockManager (free_blocks bm ++ [block_id]).

(** ** Inodes *)

(** The two classes [File] and [Directory]; [is_dir] is fixed by the
    constructor and never assigned afterwards. *)
Inductive INode :=
| File (inode_id size : Z) (blocks : list Z)
| Directory (inode_id size : Z) (blocks : list Z) (entries : gmap string Z).

Definition inode_id (n : INode) : Z :=
  match n with File i _ _ | Directory i _ _ _ => i end.
Definition is_dir (n : INode) : bool :=
  match n with File _ _ _ => false | Directory _ _ _ _ => true end.
Definition size (n : INode) : Z :=
  match n with File _ s _ | Directory _ s _ _ => s end.
Definition blocks (n : INode) : list Z :=
  match n with File _ _ b | Directory _ _ b _ => b end.

Definition File_init (inode_id : Z) : INode := File inode_id 0 [].
Definition Directory_init (inode_id : Z) : INode := Directory inode_id 0 [] ∅.

(** ** The file system *)

Record FileSystem := mkFileSystem {
  block_mgr : BlockManager;
  objs : gmap Z INode;            (* object store: address -> inode object *)
  inodes : gmap Z Z;              (* registry: inode id -> reference *)
  next_inode_id : Z;
  data_blocks : gmap Z DataBlock;
  root : Z                        (* reference to the root directory *)
}.

Definition set_objs (st : FileSystem) (h : gmap Z INode) : FileSystem :=
  mkFileSystem (block_mgr st) h (inodes st) (next_inode_id st) (data_blocks st) (root st).
Definition set_inodes (st : FileSystem) (r : gmap Z Z) : FileSystem :=
  mkFileSystem (block_mgr st) (objs st) r (next_inode_id st) (data_blocks st) (root st).
Definition set_block_mgr (st : FileSystem) (bm : BlockManager) : FileSystem :=
  mkFileSystem bm (objs st) (inodes st) (next_inode_id st) (data_blocks st) (root st).
Definition set_data_blocks (st : FileSystem) (d : gmap Z DataBlock) : FileSystem :=
  mkFileSystem (block_mgr st) (objs st) (inodes st) (next_inode_id st) d (root st).

Inductive exn := ValueError | IndexError | KeyError.

(** Result of a call.  [Unfinished] is produced only when the bound put
    on the allocation loop of [write] runs out, which never happens (see
    [write_finishes]). *)
Inductive outcome (A : Type) :=
| Ret (v : A) (st : FileSystem)
| Raise (e : exn) (st : FileSystem)
| Unfinished.
Arguments Ret {A} v st.
Arguments Raise {A} e st.
Arguments Unfinished {A}.

Definition _alloc_inode_id (st : FileSystem) : Z * FileSystem :=
  (next_inode_id st,
   mkFileSystem (block_mgr st) (objs st) (inodes st) (next_inode_id st + 1)
                (data_blocks st) (root st)).

(** [FileSystem(total_blocks)], first construction in the process. *)
Definition FileSystem_init (total_blocks : Z) : FileSystem :=
  let st0 := mkFileSystem (BlockManager_init total_blocks) ∅ ∅ 1 ∅ 0 in
  let '(iid, st1) := _alloc_inode_id st0 in
  mkFileSystem (block_mgr st1) (<[iid := Directory_init iid]> (objs st1))
               (<[iid := iid]> (inodes st1)) (next_inode_id st1)
               (data_blocks st1) iid.

(** The loop of [_traverse], from the node [cur] along [parts].  A
    reference that is not in the store gives [None]; there is none in a
    reachable state. *)
Fixpoint walk (h : gmap Z INode) (cur : Z) (parts : list string) : option Z :=
  match parts with
  | [] => Some cur
  | name :: rest =>
      match h !! cur with
      | Some (Directory _ _ _ entries) =>
          match entries !! name with
          | Some child => walk h child rest
          | None => None
          end
      | _ => None
      end
  end.

Definition _traverse (st : FileSystem) (path : string) : option Z :=
  walk (objs st) (root st) (path_parts path).

(** The object a path resolves to, with its reference. *)
Definition node_at (st : FileSystem) (path : string) : option (Z * INode) :=
  match _traverse st path with
  | Some r => match objs st !! r with
              | Some n => Some (r, n)
              | None => None
              end
  | None => None
  end.

(** Body shared by [mkdir] and [create_file]; [new_inode] is the class
    constructor. *)
Definition create_node (new_inode : Z → INode) (st : FileSystem) (path : string)
  : outcome bool :=
  match rsplit_slash path with
  | None => Raise ValueError st
  | Some (parent_path, name) =>
      match node_at st (or_slash parent_path) with
      | Some (parent, Directory pid psize pblocks entries) =>
          match entries !! name with
          | Some _ => Ret false st
          | None =>
              let '(iid, st1) := _alloc_inode_id st in
              let st2 := set_objs st1 (<[iid := new_inode iid]> (objs st1)) in
              let st3 := set_inodes st2 (<[iid := iid]> (inodes st2)) in
              Ret true
                (set_objs st3
                   (<[parent := Directory pid psize pblocks (<[name := iid]> entries)]>
                      (objs st3)))
          end
      | _ => Ret false st
      end
  end.

Definition mkdir : FileSystem → string → outcome bool := create_node Directory_init.
Definition create_file : FileSystem → string → outcome bool := create_node File_init.

(** The allocation loop of [write]:
    [while end > len(node.blocks) * BLOCK_SIZE: ...].  The result is
    [(ok, block_mgr, node.blocks, data_blocks)] with [ok = false] when
    [allocate] returned [None]. *)
Fixpoint alloc_loop (fuel : nat) (end_ : Z) (bm : BlockManager) (blks : list Z)
    (db : gmap Z DataBlock)
  : option (bool * BlockManager * list Z * gmap Z DataBlock) :=
  if Z.of_nat (length blks) * BLOCK_SIZE <? end_ then
    match allocate bm with
    | (None, bm') => Some (false, bm', blks, db)
    | (Some blk, bm') =>
        match fuel with
        | O => None
        | S fuel' =>
            alloc_loop fuel' end_ bm' (blks ++ [blk]) (<[blk := DataBlock_init blk]> db)
        end
    end
  else Some (true, bm, blks, db).

(** The copy loop of [write]: [for byte in data: ...], starting at [idx].
    On the right, the exception raised and the data blocks at that point. *)
Fixpoint copy_in (blks : list Z) (db : gmap Z DataBlock) (idx : Z)
    (bytes : list Byte.byte) : gmap Z DataBlock + exn * gmap Z DataBlock :=
  match bytes with
  | [] => inl db
  | byte :: rest =>
      let blk_idx := idx `div` BLOCK_SIZE in
      let off := idx `mod` BLOCK_SIZE in
      match py_getitem blks blk_idx with
      | None => inr (IndexError, db)
      | Some blk =>
          match db !! blk with
          | None => inr (KeyError, db)
          | Some d =>
              if off <? Z.of_nat (length (data d)) then
                copy_in blks
                  (<[blk := mkDataBlock (block_id d) (<[Z.to_nat off := byte]> (data d))]> db)
                  (idx + 1) rest
              else inr (IndexError, db)
          end
      end
  end.

Definition write (st : FileSystem) (path : string) (bytes : list Byte.byte)
    (offset : Z) : outcome bool :=
  match node_at st path with
  | Some (node, File iid fsize blks) =>
      let end_ := offset + Z.of_nat (length bytes) in
      (* each round of the loop pops a free block: the length of the
         free list bounds the number of rounds *)
      match alloc_loop (length (free_blocks (block_mgr st))) end_
              (block_mgr st) blks (data_blocks st) with
      | None => Unfinished
      | Some (ok, bm, blks', db) =>
          let st1 := set_data_blocks
                       (set_objs (set_block_mgr st bm) (<[node := File iid fsize blks']> (objs st)))
                       db in
          if ok then
            match copy_in blks' db offset bytes with
            | inl db' =>
                Ret true
                  (set_objs (set_data_blocks st1 db')
                     (<[node := File iid (Z.max fsize end_) blks']> (objs st1)))
            | inr (e, db') => Raise e (set_data_blocks st1 db')
            end
          else Ret false st1
      end
  | _ => Ret false st
  end.

(** The loop of [read]: [for _ in range(size): ...], starting at [idx]. *)
Fixpoint copy_out (blks : list Z) (db : gmap Z DataBlock) (idx : Z) (n : nat)
  : exn + list Byte.byte :=
  match n with
  | O => inr []
  | S n' =>
      let blk_idx := idx `div` BLOCK_SIZE in
      let off := idx `mod` BLOCK_SIZE in
      match py_getitem blks blk_idx with
      | None => inl IndexError
      | Some blk =>
          match db !! blk with
          | None => inl KeyError
          | Some d =>
              match data d !! Z.to_nat off with
              | None => inl IndexError
              | Some byte =>
                  match copy_out blks db (idx + 1) n' with
                  | inl e => inl e
                  | inr tl => inr (byte :: tl)
                  end
              end
          end
      end
  end.

Definition read (st : FileSystem) (path : string) (size_ : Z) (offset : Z)
  : outcome (option (list Byte.byte)) :=
  match node_at st path with
  | Some (node, File iid fsize blks) =>
      if fsize <=? offset then Ret (Some []) st
      else
        let size' := Z.min size_ (fsize - offset) in
        match copy_out blks (data_blocks st) offset (Z.to_nat size') with
        | inl e => Raise e st
        | inr bytes => Ret (Some bytes) st
        end
  | _ => Ret None st
  end.

Definition ls (st : FileSystem) (path : string) : outcome (option (list string)) :=
  match node_at st path with
  | Some (node, Directory _ _ _ entries) => Ret (Some (fst <$> map_to_list entries)) st
  | _ => Ret None st
  end.

(** [delete] of the source ([delete] names stdpp's map operation here). *)
Definition fs_delete (st : FileSystem) (path : string) : outcome bool :=
  match rsplit_slash path with
  | None => Raise ValueError st
  | Some (parent_path, name) =>
      match node_at st (or_slash parent_path) with
      | Some (parent, Directory pid psize pblocks entries) =>
          match entries !! name with
          | None => Ret false st
          | Some child =>
              (* the entry is popped; [child] is in the store in every
                 reachable state (see [fs_delete_cases]) *)
              let st1 := set_objs st
                           (<[parent := Directory pid psize pblocks (delete name entries)]>
                              (objs st)) in
              match objs st1 !! child with
              | None => Ret false st1
              | Some node =>
                  let st2 :=
                    if is_dir node then st1
                    else set_block_mgr st1 (foldl free (block_mgr st1) (blocks node)) in
                  match inodes st2 !! inode_id node with
                  | None => Raise KeyError st2
                  | Some _ => Ret true (set_inodes st2 (delete (inode_id node) (inodes st2)))
                  end
              end
          end
      | _ => Ret false st
      end
  end.

(** ** Calls and reachable states *)

Inductive call :=
| Mkdir (path : string)
| CreateFile (path : string)
| Write (path : string) (bytes : list Byte.byte) (offset : Z)
| Read (path : string) (size_ : Z) (offset : Z)
| Ls (path : string)
| Delete (path : string).

(** The state a call leaves behind, also when it raises. *)
Definition state_of {A} (st : FileSystem) (o : outcome A) : FileSystem :=
  match o with
  | Ret _ st' => st'
  | Raise _ st' => st'
  | Unfinished => st
  end.

Definition exec (c : call) (st : FileSystem) : FileSystem :=
  match c with
  | Mkdir p => state_of st (mkdir st p)
  | CreateFile p => state_of st (create_file st p)
  | Write p d o => state_of st (write st p d o)
  | Read p n o => state_of st (read st p n o)
  | Ls p => state_of st (ls st p)
  | Delete p => state_of st (fs_delete st p)
  end.

(** [run cs st]: the calls [cs] made one after the other from [st]. *)
Definition run (cs : list call) (st : FileSystem) : FileSystem :=
  foldl (λ s c, exec c s) st cs.

(** ** Calls on the block store alone *)

Inductive bm_call :=
| Allocate
| Free (block_id : Z).

(** [disciplined held bm cs]: in the sequence [cs], started in [bm] with
    the ids [held] handed out and not yet given back, every [free] is
    called on an id that is held at that point. *)
Fixpoint disciplined (held : gset Z) (bm : BlockManager) (cs : list bm_call) : Prop :=
  match cs with
  | [] => True
  | Allocate :: cs' =>
      match allocate bm with
      | (Some blk, bm') => disciplined ({[blk]} ∪ held) bm' cs'
      | (None, bm') => disciplined held bm' cs'
      end
  | Free blk :: cs' => (blk ∈ held) ∧ disciplined (held ∖ {[blk]}) (free bm blk) cs'
  end.

(** [exclusive held bm cs]: no [allocate] of [cs] returns an id that is
    held at that point. *)
Fixpoint exclusive (held : gset Z) (bm : BlockManager) (cs : list bm_call) : Prop :=
  match cs with
  | [] => True
  | Allocate :: cs' =>
      match allocate bm with
      | (Some blk, bm') => (blk ∉ held) ∧ exclusive ({[blk]} ∪ held) bm' cs'
      | (None, bm') => exclusive held bm' cs'
      end
  | Free blk :: cs' => exclusive (held ∖ {[blk]}) (free bm blk) cs'
  end.

(** ** Directory entries and chains of entries *)

(** [entry h d name c]: in the store [h], the directory object [d] has
    the entry [name] and it refers to [c]. *)
Definition entry (h : gmap Z INode) (d : Z) (name : string) (c : Z) : Prop :=
  ∃ i s b es, h !! d = Some (Directory i s b es) ∧ es !! name = Some c.

(** [chain h cur names r]: following the entries [names] one after the
    other from [cur] leads to [r]. *)
Inductive chain (h : gmap Z INode) : Z → list string → Z → Prop :=
| chain_nil cur : chain h cur [] cur
| chain_cons cur name child rest r :
    entry h cur name child → chain h child rest r → chain h cur (name :: rest) r.

(** [s] contains the separator. *)
Fixpoint has_slash (s : string) : bool :=
  match s with
  | EmptyString => false
  | String c s' => is_slash c || has_slash s'
  end.

(** ["/".join(segs)] *)
Fixpoint join_slash (segs : list string) : string :=
  match segs with
  | [] => EmptyString
  | [seg] => seg
  | seg :: segs' => (seg ++ String "/" (join_slash segs'))%string
  end.

(** States of the file system after a sequence of calls made on a newly
    constructed one. *)
Definition after (total_blocks : Z) (cs : list call) : FileSystem :=
  run cs (FileSystem_init total_blocks).

(** ** The invariant of the file system *)

Definition linked (h : gmap Z INode) (r : Z) : Prop := ∃ d name, entry h d name r.

(** [owned st r b]: [r] is a file object that some directory refers to,
    and [b] is its block list. *)
Definition owned (st : FileSystem) (r : Z) (b : list Z) : Prop :=
  (∃ i s, objs st !! r = Some (File i s b)) ∧ linked (objs st) r.

(** The block [x] exists and has its full length. *)
Definition block_ok (db : gmap Z DataBlock) (x : Z) : Prop :=
  ∃ d, db !! x = Some d ∧ length (data d) = Z.to_nat BLOCK_SIZE.

Record fs_inv (st : FileSystem) : Prop := {
  inv_root : ∃ i s b es, objs st !! root st = Some (Directory i s b es);
  inv_root_min : ∀ r, is_Some (objs st !! r) → root st ≤ r;
  inv_fresh : ∀ r, is_Some (objs st !! r) → r < next_inode_id st;
  inv_id : ∀ r n, objs st !! r = Some n → inode_id n = r;
  inv_closed : ∀ d name c, entry (objs st) d name c → is_Some (objs st !! c);
  inv_order : ∀ d name c, entry (objs st) d name c → d < c;
  inv_unique : ∀ d1 n1 d2 n2 c,
    entry (objs st) d1 n1 c → entry (objs st) d2 n2 c → d1 = d2 ∧ n1 = n2;
  inv_registry : ∀ r,
    is_Some (inodes st !! r) ↔ r = root st ∨ linked (objs st) r;
  inv_free : NoDup (free_blocks (block_mgr st));
  inv_blocks : ∀ r b,
    owned st r b → NoDup b ∧ ∀ x, x ∈ b → x ∉ free_blocks (block_mgr st);
  inv_disjoint : ∀ r1 r2 b1 b2,
    owned st r1 b1 → owned st r2 b2 → r1 ≠ r2 → ∀ x, x ∈ b1 → x ∉ b2;
  inv_capacity : ∀ r i s b,
    objs st !! r = Some (File i s b) → 0 ≤ s ≤ Z.of_nat (length b) * BLOCK_SIZE;
  inv_data : ∀ r i s b x,
    objs st !! r = Some (File i s b) → x ∈ b → block_ok (data_blocks st) x
}.

(** The state after a successful [mkdir] or [create_file] of [name] under
    the directory object [parent]. *)
Definition created (new_inode : Z → INode) (st : FileSystem) (parent pid psize : Z)
    (pblocks : list Z) (entries : gmap string Z) (name : string) : FileSystem :=
  let iid := next_inode_id st in
  mkFileSystem (block_mgr st)
    (<[parent := Directory pid psize pblocks (<[name := iid]> entries)]>
       (<[iid := new_inode iid]> (objs st)))
    (<[iid := iid]> (inodes st)) (iid + 1) (data_blocks st) (root st).

(** The constructors [mkdir] and [create_file] use. *)
Definition constructor (new_inode : Z → INode) : Prop :=
  new_inode = File_init ∨ new_inode = Directory_init.

(** The state after [write] appended the ids [taken] to the block list of
    the file object [node], left the block store as [bm], the data blocks
    as [db] and the size field as [fsize']. *)
Definition written (st : FileSystem) (node iid fsize' : Z) (blks taken : list Z)
    (bm : BlockManager) (db : gmap Z DataBlock) : FileSystem :=
  mkFileSystem bm (<[node := File iid fsize' (blks ++ taken)]> (objs st))
    (inodes st) (next_inode_id st) db (root st).

(** The state after a successful [delete] of the entry [name] of the
    directory object [parent], which referred to the object [node]. *)
Definition deleted (st : FileSystem) (parent pid psize : Z) (pblocks : list Z)
    (entries : gmap string Z) (name : string) (node : INode) : FileSystem :=
  mkFileSystem
    (if is_dir node then block_mgr st else foldl free (block_mgr st) (blocks node))
    (<[parent := Directory pid psize pblocks (delete name entries)]> (objs st))
    (delete (inode_id node) (inodes st)) (next_inode_id st) (data_blocks st) (root st).

(** The byte stored at position [idx] of a file with block list [blks]:
    [data_blocks[blks[idx // BLOCK_SIZE]].data[idx % BLOCK_SIZE]]. *)
Definition byte_at (blks : list Z) (db : gmap Z DataBlock) (idx : Z) : option Byte.byte :=
  match py_getitem blks (idx `div` BLOCK_SIZE) with
  | Some blk =>
      match db !! blk with
      | Some d => data d !! Z.to_nat (idx `mod` BLOCK_SIZE)
      | None => None
      end
  | None => None
  end.

(** The two operations that create a node. *)
Definition creators : list (FileSystem → string → outcome bool) := [mkdir; create_file].

(** The directory object and the entry name a path given to [mkdir],
    [create_file] or [delete] designates. *)
Definition target (st : FileSystem) (path : string) : option (Z * string) :=
  match rsplit_slash path with
  | Some (parent_path, name) =>
      match _traverse st (or_slash parent_path) with
      | Some parent => Some (parent, name)
      | None => None
      end
  | None => None
  end.

(** The data blocks after the ids [taken] got fresh blocks, in order. *)
Definition fresh_blocks (db : gmap Z DataBlock) (taken : list Z) : gmap Z DataBlock :=
  foldl (λ m blk, <[blk := DataBlock_init blk]> m) db taken.

(** Where a walk stops without a result: at a node reached by a proper
    prefix of [parts] which cannot be left by the next name. *)
Definition stuck_at (h : gmap Z INode) (cur : Z) (parts : list string) : Prop :=
  ∃ pre name post at_,
    parts = pre ++ name :: post ∧ chain h cur pre at_ ∧
    match h !! at_ with
    | Some (Directory _ _ _ es) => es !! name = None
    | Some (File _ _ _) => True
    | None => False
    end.

(** [delete(path)] would remove a file or a directory without entries
    (or nothing at all). *)
Definition deletes_leaf (st : FileSystem) (path : string) : Prop :=
  match rsplit_slash path with
  | Some (parent_path, name) =>
      match node_at st (or_slash parent_path) with
      | Some (_, Directory _ _ _ entries) =>
          match entries !! name with
          | Some child =>
              match objs st !! child with
              | Some (Directory _ _ _ child_entries) => child_entries = ∅
              | _ => True
              end
          | None => True
          end
      | _ => True
      end
  | None => True
  end.

(** In the sequence [cs] made from [st] on, no [delete] removes a
    directory that still has entries. *)
Fixpoint leaf_deletes (st : FileSystem) (cs : list call) : Prop :=
  match cs with
  | [] => True
  | c :: cs' =>
      match c with Delete path => deletes_leaf st path | _ => True end
      ∧ leaf_deletes (exec c st) cs'
  end.

(** Every inode of the registry is reached from the root by a chain of
    directory entries. *)
Definition all_reachable (st : FileSystem) : Prop :=
  ∀ r, is_Some (inodes st !! r) → ∃ names, chain (objs st) (root st) names r.

(** The call raised an exception. *)
Definition raises {A} (o : outcome A) : Prop :=
  match o with Raise _ _ => True | _ => False end.

Definition hello : list Byte.byte := [Byte.x68; Byte.x65; Byte.x6c; Byte.x6c; Byte.x6f].
Definition world : list Byte.byte := [Byte.x77; Byte.x6f; Byte.x72; Byte.x6c; Byte.x64].

(** What a call returned or raised, apart from the state. *)
Definition result_of {A} (o : outcome A) : option (A + exn) :=
  match o with
  | Ret v _ => Some (inl v)
  | Raise e _ => Some (inr e)
  | Unfinished => None
  end.

(** [allocate] called [k] times in a row: what the calls returned, in
    order, and the block store after them. *)
Fixpoint allocate_n (k : nat) (bm : BlockManager) : list (option Z) * BlockManager :=
  match k with
  | O => ([], bm)
  | S k' =>
      let '(r, bm1) := allocate bm in
      let '(rs, bm2) := allocate_n k' bm1 in
      (r :: rs, bm2)
  end.

(** Every block id in use is one of the pool [0 .. total_blocks - 1], and
    every data block has its full length and carries its own id. *)
Definition pool_inv (total_blocks : Z) (st : FileSystem) : Prop :=
  (∀ x, x ∈ free_blocks (block_mgr st) → 0 ≤ x < total_blocks) ∧
  (∀ r n x, objs st !! r = Some n → x ∈ blocks n → 0 ≤ x < total_blocks) ∧
  (∀ x d, data_blocks st !! x = Some d →
          0 ≤ x < total_blocks ∧ block_id d = x ∧
          length (data d) = Z.to_nat BLOCK_SIZE).

(** [r] lies under a directory that [delete] removed: a directory object
    that is no longer in the registry still has a chain of entries, of
    one name at least, to [r]. *)
Definition under_removed (st : FileSystem) (r : Z) : Prop :=
  ∃ d names, inodes st !! d = None ∧ names ≠ [] ∧ chain (objs st) d names r.

(** * Properties *)

(** ** Lists and the block store *)

Lemma list_pop_None {A} (l : list A) : list_pop l = None ↔ l = [].
Proof.
  unfold list_pop. destruct (reverse l) as [|x r] eqn:E.
  - split; [intros _|done].
    rewrite <- (reverse_involutive l), E. done.
  - split; [done|]. intros ->. done.
Qed.

Lemma list_pop_Some {A} (l r : list A) (x : A) :
  list_pop l = Some (x, r) ↔ l = r ++ [x].
Proof.
  unfold list_pop. split.
  - destruct (reverse l) as [|y t] eqn:E; [done|].
    intros [= -> <-]. rewrite <- (reverse_involutive l), E, reverse_cons. done.
  - intros ->. rewrite reverse_snoc, reverse_involutive. done.
Qed.

Lemma allocate_None (bm : BlockManager) :
  (allocate bm).1 = None ↔ free_blocks bm = [].
Proof.
  unfold allocate. rewrite <- list_pop_None.
  destruct (list_pop (free_blocks bm)) as [[b r]|]; simpl; split; done.
Qed.

Lemma allocate_Some (bm bm' : BlockManager) (blk : Z) :
  allocate bm = (Some blk, bm') ↔ free_blocks bm = free_blocks bm' ++ [blk].
Proof.
  unfold allocate. destruct (list_pop (free_blocks bm)) as [[b r]|] eqn:E.
  - apply list_pop_Some in E. split.
    + intros [= <- <-]. done.
    + destruct bm' as [f']. simpl. rewrite E. intros [-> ->]%app_inj_tail. done.
  - apply list_pop_None in E. split; [done|].
    rewrite E. intros H. by destruct (free_blocks bm').
Qed.

Lemma allocate_fail (bm bm' : BlockManager) :
  allocate bm = (None, bm') ↔ free_blocks bm = [] ∧ bm' = bm.
Proof.
  unfold allocate. destruct (list_pop (free_blocks bm)) as [[b r]|] eqn:E.
  - apply list_pop_Some in E. split; [done|]. intros [H _]. rewrite H in E.
    by destruct r.
  - apply list_pop_None in E. split; [intros [= <-]; done|]. intros [_ ->]. done.
Qed.

Lemma BlockManager_init_NoDup (total_blocks : Z) :
  NoDup (free_blocks (BlockManager_init total_blocks)).
Proof.
  simpl. apply NoDup_fmap_2; [intros x y; lia|]. apply NoDup_seq.
Qed.

(** The free list has no repetition and shares nothing with the ids
    that are held: kept by every disciplined sequence. *)
Lemma disciplined_exclusive (held : gset Z) (bm : BlockManager) (cs : list bm_call) :
  NoDup (free_blocks bm) →
  (∀ x, x ∈ free_blocks bm → x ∉ held) →
  disciplined held bm cs → exclusive held bm cs.
Proof.
  revert held bm. induction cs as [|[|b] cs IH]; intros held bm Hnd Hdisj; simpl; [done| |].
  - destruct (allocate bm) as [[blk|] bm'] eqn:E.
    + apply allocate_Some in E. rewrite E in Hnd, Hdisj.
      apply NoDup_app in Hnd as (Hnd1 & Hnd2 & _).
      intros Hd. split.
      * apply Hdisj. set_solver.
      * apply IH; [done| |done].
        intros x Hx. specialize (Hnd2 x Hx). specialize (Hdisj x). set_solver.
    + apply allocate_fail in E as [_ ->]. by apply IH.
  - intros [Hb Hd]. apply IH; [| |done]; simpl.
    + apply NoDup_app. split_and!; [done| |apply NoDup_singleton].
      intros x Hx ->%list_elem_of_singleton. by apply (Hdisj b).
    + intros x [Hx| ->%list_elem_of_singleton]%elem_of_app; [|set_solver].
      specialize (Hdisj x Hx). set_solver.
Qed.

(** C9. [allocate] returns [None] exactly when the free list is empty, and
    otherwise takes the id it returns off the free list; from
    [BlockManager(total_blocks)] on, in every sequence of [allocate] and
    [free] calls where [free] is only called on an id that is held then,
    [allocate] never returns an id that is still held. *)
Theorem allocation_exclusivity :
  (∀ bm, (allocate bm).1 = None ↔ free_blocks bm = []) ∧
  (∀ bm blk bm', allocate bm = (Some blk, bm') →
                 free_blocks bm = free_blocks bm' ++ [blk]) ∧
  (∀ total_blocks cs,
     disciplined ∅ (BlockManager_init total_blocks) cs →
     exclusive ∅ (BlockManager_init total_blocks) cs).
Proof.
  split_and!.
  - apply allocate_None.
  - intros bm blk bm'. apply allocate_Some.
  - intros n cs. apply disciplined_exclusive.
    + apply BlockManager_init_NoDup.
    + set_solver.
Qed.

Lemma allocation_exclusivity_witness :
  disciplined ∅ (BlockManager_init 2) [Allocate; Allocate; Free 1; Allocate; Allocate] ∧
  exclusive ∅ (BlockManager_init 2) [Allocate; Allocate; Free 1; Allocate; Allocate].
Proof.
  assert (H : disciplined ∅ (BlockManager_init 2)
                [Allocate; Allocate; Free 1; Allocate; Allocate]).
  { cbn. split; [set_solver|done]. }
  split; [exact H|].
  exact (proj2 (proj2 allocation_exclusivity) 2 _ H).
Defined.

(** ** The allocation loop of [write] *)

Lemma BLOCK_SIZE_pos : 0 < BLOCK_SIZE.
Proof. done. Qed.

(** From here on only the sign of [BLOCK_SIZE] is used. *)
Global Opaque BLOCK_SIZE.

(** With a bound of at least the length of the free list the loop ends:
    it took the ids [taken] from the end of the free list, appended them
    to the block list, and stopped because the blocks suffice ([ok]) or
    because the free list is empty. *)
Lemma alloc_loop_spec (fuel : nat) (end_ : Z) (bm : BlockManager) (blks : list Z)
    (db : gmap Z DataBlock) :
  (length (free_blocks bm) ≤ fuel)%nat →
  ∃ ok bm' taken,
    alloc_loop fuel end_ bm blks db
      = Some (ok, bm', blks ++ taken, fresh_blocks db taken) ∧
    free_blocks bm = free_blocks bm' ++ reverse taken ∧
    (if ok : bool then end_ ≤ Z.of_nat (length (blks ++ taken)) * BLOCK_SIZE
     else free_blocks bm' = [] ∧ Z.of_nat (length (blks ++ taken)) * BLOCK_SIZE < end_) ∧
    (taken ≠ [] → (Z.of_nat (length (blks ++ taken)) - 1) * BLOCK_SIZE < end_).
Proof.
  revert bm blks db. induction fuel as [|fuel IH]; intros bm blks db Hlen.
  - destruct (free_blocks bm) as [|] eqn:Hf; [|simpl in Hlen; lia].
    simpl. destruct (Z.ltb_spec (Z.of_nat (length blks) * BLOCK_SIZE) end_).
    + assert (E : allocate bm = (None, bm)) by (apply allocate_fail; done).
      rewrite E. exists false, bm, []. rewrite app_nil_r, Hf. done.
    + exists true, bm, []. rewrite app_nil_r, Hf. done.
  - simpl. destruct (Z.ltb_spec (Z.of_nat (length blks) * BLOCK_SIZE) end_).
    + destruct (allocate bm) as [[blk|] bm1] eqn:E.
      * apply allocate_Some in E.
        destruct (IH bm1 (blks ++ [blk]) (<[blk:=DataBlock_init blk]> db))
          as (ok & bm' & taken & Heq & Hfree & Hok & Hmin).
        { rewrite E, length_app in Hlen. simpl in Hlen. lia. }
        exists ok, bm', (blk :: taken).
        rewrite <- app_assoc in Heq, Hok, Hmin. simpl in Heq, Hok, Hmin.
        split_and!; [done| |done|].
        -- rewrite E, Hfree, reverse_cons, app_assoc. done.
        -- intros _. destruct taken as [|t taken]; [|apply Hmin; done].
           rewrite length_app. simpl. lia.
      * apply allocate_fail in E as [E ->].
        exists false, bm, []. rewrite app_nil_r, E. done.
    + exists true, bm, []. rewrite app_nil_r. simpl. rewrite app_nil_r. done.
Qed.

(** ** Walks and updates of the object store *)

(** Assigning to the fields of a file object does not change any walk. *)
Lemma walk_insert_file (h : gmap Z INode) (r : Z) (i s i' s' : Z) (b b' : list Z)
    (cur : Z) (parts : list string) :
  h !! r = Some (File i s b) →
  walk (<[r := File i' s' b']> h) cur parts = walk h cur parts.
Proof.
  intros Hr. revert cur. induction parts as [|name rest IH]; intros cur; [done|].
  simpl. destruct (decide (cur = r)) as [->|Hne].
  - rewrite lookup_insert_eq, Hr. done.
  - rewrite lookup_insert_ne by done.
    destruct (h !! cur) as [[|? ? ? es]|]; [done| |done].
    destruct (es !! name); [apply IH|done].
Qed.

Lemma node_at_Some (st : FileSystem) (path : string) (r : Z) (n : INode) :
  node_at st path = Some (r, n) ↔ _traverse st path = Some r ∧ objs st !! r = Some n.
Proof.
  unfold node_at. destruct (_traverse st path) as [r'|]; [|naive_solver].
  destruct (objs st !! r') eqn:E; naive_solver.
Qed.

(** ** [write]: exhaustion and size *)

Lemma write_finishes (st : FileSystem) (path : string) (bytes : list Byte.byte)
    (offset : Z) :
  write st path bytes offset ≠ Unfinished.
Proof.
  unfold write. destruct (node_at st path) as [[r [iid sz blks|]]|]; [|done..].
  destruct (alloc_loop_spec (length (free_blocks (block_mgr st)))
              (offset + Z.of_nat (length bytes)) (block_mgr st) blks (data_blocks st))
    as (ok & bm' & taken & -> & _); [done|].
  destruct ok; [|done].
  destruct (copy_in _ _ _ _) as [|[]]; done.
Qed.

(** C3. A [write] to a file for which the free blocks do not suffice
    returns [False]; every free block was taken and is attached to the
    file's block list, in the order of allocation; the file's size is
    what it was. *)
Theorem write_exhausted (st : FileSystem) (path : string) (bytes : list Byte.byte)
    (offset : Z) (node iid fsize : Z) (blks : list Z) :
  node_at st path = Some (node, File iid fsize blks) →
  Z.of_nat (length blks + length (free_blocks (block_mgr st))) * BLOCK_SIZE
    < offset + Z.of_nat (length bytes) →
  ∃ st',
    write st path bytes offset = Ret false st' ∧
    free_blocks (block_mgr st') = [] ∧
    node_at st' path
      = Some (node, File iid fsize (blks ++ reverse (free_blocks (block_mgr st)))) ∧
    size (File iid fsize (blks ++ reverse (free_blocks (block_mgr st)))) = fsize.
Proof.
  intros Hnode Hshort. unfold write. rewrite Hnode.
  destruct (alloc_loop_spec (length (free_blocks (block_mgr st)))
              (offset + Z.of_nat (length bytes)) (block_mgr st) blks (data_blocks st))
    as (ok & bm' & taken & -> & Hfree & Hok & _); [done|].
  assert (Hlen : length (free_blocks (block_mgr st))
                 = (length (free_blocks bm') + length taken)%nat).
  { rewrite Hfree, length_app, length_reverse. done. }
  destruct ok.
  { rewrite length_app in Hok. pose proof BLOCK_SIZE_pos. nia. }
  destruct Hok as [Hempty _]. rewrite Hempty in Hfree. simpl in Hfree.
  eexists. split; [done|]. simpl. split; [done|].
  rewrite Hfree, reverse_involutive. split; [|done].
  apply node_at_Some in Hnode as [Htr Hobj].
  apply node_at_Some. unfold _traverse in *. simpl.
  rewrite (walk_insert_file _ _ _ _ _ _ _ _ _ _ Hobj), lookup_insert_eq. done.
Qed.

(** C4. After a [write] that returned [True] the path resolves to the
    same file object and its size is [max(old_size, offset + len(data))]. *)
Theorem write_size (st st' : FileSystem) (path : string) (bytes : list Byte.byte)
    (offset : Z) (node iid fsize : Z) (blks : list Z) :
  node_at st path = Some (node, File iid fsize blks) →
  write st path bytes offset = Ret true st' →
  ∃ n, node_at st' path = Some (node, n) ∧ is_dir n = false ∧
       inode_id n = iid ∧
       size n = Z.max fsize (offset + Z.of_nat (length bytes)).
Proof.
  intros Hnode. unfold write. rewrite Hnode.
  destruct (alloc_loop_spec (length (free_blocks (block_mgr st)))
              (offset + Z.of_nat (length bytes)) (block_mgr st) blks (data_blocks st))
    as (ok & bm' & taken & -> & _); [done|].
  destruct ok; [|done].
  destruct (copy_in _ _ _ _) as [db'|[e db']]; [|done].
  intros [= <-].
  apply node_at_Some in Hnode as [Htr Hobj].
  exists (File iid (Z.max fsize (offset + Z.of_nat (length bytes))) (blks ++ taken)).
  split; [|done].
  apply node_at_Some. unfold _traverse in *. simpl.
  rewrite insert_insert_eq.
  rewrite (walk_insert_file _ _ _ _ _ _ _ _ _ _ Hobj), lookup_insert_eq. done.
Qed.

(** ** Splitting paths *)

Lemma split_slash_nonempty (s : string) : split_slash s ≠ [].
Proof.
  destruct s as [|c s]; simpl; [done|].
  destruct (is_slash c); [done|]. by destruct (split_slash s).
Qed.

Lemma split_slash_join (s : string) : join_slash (split_slash s) = s.
Proof.
  induction s as [|c s IH]; simpl; [done|].
  destruct (is_slash c) eqn:Hc.
  - apply Ascii.eqb_eq in Hc as ->.
    pose proof (split_slash_nonempty s).
    simpl. destruct (split_slash s) as [|seg segs]; [done|].
    rewrite <- IH. done.
  - pose proof (split_slash_nonempty s).
    destruct (split_slash s) as [|seg segs]; [done|].
    rewrite <- IH. simpl. destruct segs; done.
Qed.

Lemma split_slash_no_slash (s : string) :
  Forall (λ seg, has_slash seg = false) (split_slash s).
Proof.
  induction s as [|c s IH]; simpl; [by repeat constructor|].
  destruct (is_slash c) eqn:Hc; [by constructor|].
  destruct (split_slash s) as [|seg segs].
  - repeat constructor. simpl. by rewrite Hc.
  - inversion IH; subst. constructor; [|done]. simpl. by rewrite Hc.
Qed.

Lemma path_parts_spec (path : string) :
  Forall (λ seg, seg ≠ EmptyString ∧ has_slash seg = false) (path_parts path).
Proof.
  unfold path_parts. apply Forall_forall. intros seg [Hne Hin]%list_elem_of_filter.
  split; [done|].
  by apply (proj1 (Forall_forall _ _) (split_slash_no_slash path)).
Qed.

Lemma rsplit_slash_None (s : string) : rsplit_slash s = None ↔ has_slash s = false.
Proof.
  induction s as [|c s IH]; simpl; [done|].
  destruct (rsplit_slash s) as [[a b]|].
  - split; [done|]. intros [_ H]%orb_false_iff. apply IH in H. done.
  - destruct (is_slash c); simpl; [done|]. by rewrite <- IH.
Qed.

Lemma split_slash_no_sep (s : string) : has_slash s = false → split_slash s = [s].
Proof.
  induction s as [|c s IH]; simpl; [done|].
  intros [Hc Hs]%orb_false_iff. rewrite Hc, (IH Hs). done.
Qed.

(** The last segment of [split] is what [rsplit] puts after the last
    separator. *)
Lemma split_slash_rsplit (s parent_path name : string) :
  rsplit_slash s = Some (parent_path, name) →
  split_slash s = split_slash parent_path ++ [name].
Proof.
  revert parent_path name. induction s as [|c s IH]; intros pp name; simpl; [done|].
  destruct (rsplit_slash s) as [[a b]|] eqn:Hr.
  - intros [= <- <-]. simpl. rewrite (IH a b eq_refl).
    destruct (is_slash c); [done|].
    pose proof (split_slash_nonempty a). by destruct (split_slash a).
  - destruct (is_slash c) eqn:Hc; [|done]. intros [= <- <-].
    apply rsplit_slash_None in Hr. by rewrite (split_slash_no_sep s Hr).
Qed.

Lemma path_parts_or_slash (parent_path : string) :
  path_parts (or_slash parent_path) = path_parts parent_path.
Proof. by destruct parent_path. Qed.

Lemma path_parts_rsplit (s parent_path name : string) :
  rsplit_slash s = Some (parent_path, name) →
  path_parts s = path_parts (or_slash parent_path)
                 ++ (if decide (name = EmptyString) then [] else [name]).
Proof.
  intros H%split_slash_rsplit. rewrite path_parts_or_slash. unfold path_parts.
  rewrite H, filter_app. f_equal.
  destruct (decide (name = EmptyString)) as [->|Hne]; [done|].
  by rewrite filter_cons_True.
Qed.

(** ** Path resolution *)

Lemma walk_chain (h : gmap Z INode) (cur : Z) (parts : list string) (r : Z) :
  walk h cur parts = Some r ↔ chain h cur parts r.
Proof.
  revert cur. induction parts as [|name rest IH]; intros cur; simpl.
  - split; [intros [= ->]; constructor|]. by inversion 1.
  - split.
    + destruct (h !! cur) as [[|i s b es]|] eqn:Hcur; [done| |done].
      destruct (es !! name) as [child|] eqn:Hname; [|done].
      intros Hw%IH. econstructor; [|done]. by exists i, s, b, es.
    + inversion 1 as [|? ? child ? ? (i & s & b & es & Hcur & Hname) Hch]; subst.
      rewrite Hcur, Hname. by apply IH.
Qed.

Lemma walk_None (h : gmap Z INode) (cur : Z) (parts : list string) :
  is_Some (h !! cur) →
  (∀ d name c, entry h d name c → is_Some (h !! c)) →
  walk h cur parts = None ↔ stuck_at h cur parts.
Proof.
  intros Hcur Hclosed. revert cur Hcur.
  induction parts as [|name rest IH]; intros cur Hcur; simpl.
  - split; [done|]. intros (pre & ? & ? & ? & Heq & _). by destruct pre.
  - destruct Hcur as [n Hn]. rewrite Hn. destruct n as [i s b|i s b es].
    + split; [intros _|done]. exists [], name, rest, cur.
      split_and!; [done|constructor|]. by rewrite Hn.
    + destruct (es !! name) as [child|] eqn:Hname.
      * assert (Hc : is_Some (h !! child)).
        { apply (Hclosed cur name). by exists i, s, b, es. }
        rewrite (IH child Hc). split.
        -- intros (pre & nm & post & at_ & -> & Hch & Hat).
           exists (name :: pre), nm, post, at_. split_and!; [reflexivity| |exact Hat].
           econstructor; [|done]. by exists i, s, b, es.
        -- intros (pre & nm & post & at_ & Heq & Hch & Hat).
           destruct pre as [|p pre]; simpl in Heq; injection Heq as <- ->.
           ++ inversion Hch; subst. rewrite Hn in Hat. congruence.
           ++ inversion Hch as [|? ? c' ? ? (?&?&?&?&Hd&Hl) Hch']; subst.
              rewrite Hn in Hd. injection Hd as <- <- <- <-.
              rewrite Hname in Hl. injection Hl as <-.
              by exists pre, nm, post, at_.
      * split; [intros _|done]. exists [], name, rest, cur.
        split_and!; [done|constructor|]. by rewrite Hn.
Qed.

(** ** Entries under updates of the object store *)

Lemma entry_insert_file (h : gmap Z INode) (r i s i' s' : Z) (b b' : list Z)
    (d : Z) (name : string) (c : Z) :
  h !! r = Some (File i s b) →
  entry (<[r := File i' s' b']> h) d name c ↔ entry h d name c.
Proof.
  intros Hr. unfold entry. destruct (decide (d = r)) as [->|Hne].
  - rewrite lookup_insert_eq, Hr. naive_solver.
  - rewrite lookup_insert_ne by done. done.
Qed.

Lemma entry_insert_dir (h : gmap Z INode) (p i s : Z) (b : list Z)
    (es' : gmap string Z) (d : Z) (name : string) (c : Z) :
  entry (<[p := Directory i s b es']> h) d name c ↔
  (d = p ∧ es' !! name = Some c) ∨ (d ≠ p ∧ entry h d name c).
Proof.
  unfold entry. destruct (decide (d = p)) as [->|Hne].
  - rewrite lookup_insert_eq. naive_solver.
  - rewrite lookup_insert_ne by done. naive_solver.
Qed.

Lemma entry_insert_new (h : gmap Z INode) (new_inode : Z → INode) (r : Z)
    (d : Z) (name : string) (c : Z) :
  constructor new_inode → h !! r = None →
  entry (<[r := new_inode r]> h) d name c ↔ entry h d name c.
Proof.
  intros Hmk Hr. unfold entry. destruct (decide (d = r)) as [->|Hne].
  - rewrite lookup_insert_eq, Hr.
    destruct Hmk as [-> | ->]; unfold File_init, Directory_init;
      split; intros (?&?&?&?&[=]&?); simplify_eq; by rewrite ?lookup_empty in *.
  - rewrite lookup_insert_ne by done. done.
Qed.

Lemma entry_created (h : gmap Z INode) (new_inode : Z → INode) (p pid ps : Z)
    (pb : list Z) (es : gmap string Z) (name : string) (new : Z)
    (d : Z) (nm : string) (c : Z) :
  constructor new_inode → h !! new = None →
  h !! p = Some (Directory pid ps pb es) → es !! name = None →
  entry (<[p := Directory pid ps pb (<[name := new]> es)]> (<[new := new_inode new]> h))
        d nm c
  ↔ entry h d nm c ∨ (d = p ∧ nm = name ∧ c = new).
Proof.
  intros Hmk Hnew Hp Hname. rewrite entry_insert_dir.
  rewrite (entry_insert_new h new_inode new d nm c Hmk Hnew).
  rewrite lookup_insert_Some. unfold entry. split.
  - intros [[-> [[<- <-]|[Hne Hl]]]|[Hne He]]; [by right|left|by left].
    by exists pid, ps, pb, es.
  - intros [(i & s & b & es' & Hd & Hl)|(-> & -> & ->)].
    + destruct (decide (d = p)) as [->|Hne]; [left|right; split; [done|];
        by exists i, s, b, es'].
      split; [done|]. right. rewrite Hp in Hd. simplify_eq. split; [|done].
      intros ->. congruence.
    + left. split; [done|]. by left.
Qed.

Lemma entry_deleted (h : gmap Z INode) (p pid ps : Z) (pb : list Z)
    (es : gmap string Z) (name : string) (d : Z) (nm : string) (c : Z) :
  h !! p = Some (Directory pid ps pb es) →
  entry (<[p := Directory pid ps pb (delete name es)]> h) d nm c
  ↔ entry h d nm c ∧ ¬ (d = p ∧ nm = name).
Proof.
  intros Hp. rewrite entry_insert_dir, lookup_delete_Some. unfold entry. split.
  - intros [[-> [Hne Hl]]|[Hne He]]; [|naive_solver].
    split; [by exists pid, ps, pb, es|]. naive_solver.
  - intros [(i & s & b & es' & Hd & Hl) Hnot].
    destruct (decide (d = p)) as [->|Hne]; [left|right; split; [done|];
      by exists i, s, b, es'].
    rewrite Hp in Hd. simplify_eq. split; [done|]. split; [|done].
    intros ->. by apply Hnot.
Qed.

(** A walk ends at its start or at a node some directory refers to. *)
Lemma walk_linked (h : gmap Z INode) (cur : Z) (parts : list string) (r : Z) :
  walk h cur parts = Some r → r = cur ∨ linked h r.
Proof.
  revert cur. induction parts as [|name rest IH]; intros cur; simpl.
  - intros [= ->]. by left.
  - destruct (h !! cur) as [[|i s b es]|] eqn:Hcur; [done| |done].
    destruct (es !! name) as [child|] eqn:Hname; [|done].
    intros [->|Hl]%IH; [|by right].
    right. exists cur, name, i, s, b, es. done.
Qed.

(** ** Data blocks under the loops of [write] *)

Lemma fresh_blocks_ok (db : gmap Z DataBlock) (taken : list Z) (x : Z) :
  block_ok db x ∨ x ∈ taken → block_ok (fresh_blocks db taken) x.
Proof.
  revert db. induction taken as [|t taken IH]; intros db; simpl.
  - intros [H|H]; [done|]. by apply elem_of_nil in H.
  - intros H. apply IH. destruct (decide (x = t)) as [->|Hne].
    + left. exists (DataBlock_init t). rewrite lookup_insert_eq. split; [done|].
      simpl. by rewrite length_replicate.
    + destruct H as [(d & Hd & Hl)|H].
      * left. exists d. by rewrite lookup_insert_ne.
      * right. apply elem_of_cons in H as [?|?]; done.
Qed.

Lemma copy_in_ok (blks : list Z) (db : gmap Z DataBlock) (idx : Z)
    (bytes : list Byte.byte) (x : Z) :
  block_ok db x →
  block_ok match copy_in blks db idx bytes with inl db' => db' | inr (_, db') => db' end x.
Proof.
  revert db idx. induction bytes as [|byte rest IH]; intros db idx Hx; simpl; [done|].
  destruct (py_getitem blks (idx `div` BLOCK_SIZE)) as [blk|]; [|done].
  destruct (db !! blk) as [d|] eqn:Hd; [|done].
  destruct (idx `mod` BLOCK_SIZE <? Z.of_nat (length (data d))); [|done].
  apply IH. destruct (decide (x = blk)) as [->|Hne].
  - destruct Hx as (d' & Hd' & Hl). rewrite Hd in Hd'. simplify_eq.
    eexists. rewrite lookup_insert_eq. split; [done|]. simpl.
    by rewrite length_insert.
  - destruct Hx as (d' & Hd' & Hl). exists d'. by rewrite lookup_insert_ne.
Qed.

(** ** The invariant holds initially *)

Lemma entry_singleton_empty (r i s : Z) (b : list Z) (d : Z) (name : string) (c : Z) :
  ¬ entry {[r := Directory i s b ∅]} d name c.
Proof.
  intros (i' & s' & b' & es & Hd & Hl).
  apply lookup_singleton_Some in Hd as [_ [= _ _ _ <-]].
  by rewrite lookup_empty in Hl.
Qed.

Lemma init_inv (total_blocks : Z) : fs_inv (FileSystem_init total_blocks).
Proof.
  unfold FileSystem_init, Directory_init. simpl. rewrite !insert_empty.
  split; simpl.
  - exists 1, 0, [], ∅. by rewrite lookup_singleton_eq.
  - intros r [n [<- _]%lookup_singleton_Some]. done.
  - intros r [n [<- _]%lookup_singleton_Some]. done.
  - intros r n [<- <-]%lookup_singleton_Some. done.
  - intros d name c H. by apply entry_singleton_empty in H.
  - intros d name c H. by apply entry_singleton_empty in H.
  - intros d1 n1 d2 n2 c H. by apply entry_singleton_empty in H.
  - intros r. split.
    + intros [n [<- _]%lookup_singleton_Some]. by left.
    + intros [->|(d & name & H)]; [by rewrite lookup_singleton_eq|].
      by apply entry_singleton_empty in H.
  - apply (BlockManager_init_NoDup total_blocks).
  - intros r b [(i & s & H) _]. simpl in H.
    by apply lookup_singleton_Some in H as [_ [=]].
  - intros r1 r2 b1 b2 [(i & s & H) _]. simpl in H.
    by apply lookup_singleton_Some in H as [_ [=]].
  - intros r i s b [_ [=]]%lookup_singleton_Some.
  - intros r i s b x [_ [=]]%lookup_singleton_Some.
Qed.

(** ** The invariant is kept by [mkdir] and [create_file] *)

Section created.
Context (new_inode : Z → INode) (st : FileSystem) (parent pid psize : Z)
        (pblocks : list Z) (entries : gmap string Z) (name : string).
Hypothesis Hinv : fs_inv st.
Hypothesis Hmk : constructor new_inode.
Hypothesis Hparent : objs st !! parent = Some (Directory pid psize pblocks entries).
Hypothesis Hname : entries !! name = None.

Local Abbreviation st' := (created new_inode st parent pid psize pblocks entries name).

Lemma created_fresh : objs st !! next_inode_id st = None.
Proof.
  destruct (objs st !! next_inode_id st) eqn:E; [|done].
  pose proof (inv_fresh st Hinv (next_inode_id st) (mk_is_Some _ _ E)). lia.
Qed.

Lemma created_parent_old : parent ≠ next_inode_id st.
Proof. intros ->. pose proof created_fresh. congruence. Qed.

Lemma created_lookup (r : Z) (n : INode) :
  objs st' !! r = Some n ↔
  (r = parent ∧ n = Directory pid psize pblocks (<[name := next_inode_id st]> entries)) ∨
  (r = next_inode_id st ∧ n = new_inode r) ∨
  (r ≠ parent ∧ r ≠ next_inode_id st ∧ objs st !! r = Some n).
Proof.
  pose proof created_parent_old. simpl.
  rewrite lookup_insert_Some, lookup_insert_Some. naive_solver.
Qed.

Lemma created_entry (d : Z) (nm : string) (c : Z) :
  entry (objs st') d nm c ↔
  entry (objs st) d nm c ∨ (d = parent ∧ nm = name ∧ c = next_inode_id st).
Proof. apply entry_created; [done|apply created_fresh|done..]. Qed.

Lemma created_linked (r : Z) :
  linked (objs st') r ↔ linked (objs st) r ∨ r = next_inode_id st.
Proof.
  unfold linked. split.
  - intros (d & nm & [H|(_ & _ & ->)]%created_entry); [left|by right].
    by exists d, nm.
  - intros [(d & nm & H)| ->].
    + exists d, nm. apply created_entry. by left.
    + exists parent, name. apply created_entry. by right.
Qed.

Lemma created_is_Some (r : Z) :
  is_Some (objs st' !! r) ↔ is_Some (objs st !! r) ∨ r = next_inode_id st.
Proof.
  simpl. rewrite !lookup_insert_is_Some. split.
  - intros [<-|[Hne [<-|[Hne' H]]]]; [left; by eexists|by right|by left].
  - intros [H| ->].
    + destruct (decide (parent = r)); [by left|right; split; [done|]].
      destruct (decide (next_inode_id st = r)); [by left|by right].
    + right. split; [apply created_parent_old|by left].
Qed.

Lemma created_file (r i s : Z) (b : list Z) :
  objs st' !! r = Some (File i s b) →
  (r ≠ next_inode_id st ∧ objs st !! r = Some (File i s b)) ∨
  (r = next_inode_id st ∧ s = 0 ∧ b = []).
Proof.
  intros [[_ [=]]|[[-> Hn]|(_ & Hne & H)]]%created_lookup; [|by left].
  right. destruct Hmk as [-> | ->]; [|done]. by injection Hn as <- <- <-.
Qed.

Lemma created_owned (r : Z) (b : list Z) :
  owned st' r b → owned st r b ∨ b = [].
Proof.
  intros [(i & s & [[Hne H]|(_ & _ & ->)]%created_file) Hl]; [left|by right].
  split; [by exists i, s|].
  apply created_linked in Hl as [Hl|?]; done.
Qed.

Lemma created_inv : fs_inv st'.
Proof.
  pose proof created_fresh as Hfresh. pose proof created_parent_old as Hpo.
  destruct Hinv as [Hroot Hmin Hfr Hid Hclosed Horder Huniq Hreg Hfree Hblocks
                      Hdisj Hcap Hdata].
  assert (Hrootnew : root st ≠ next_inode_id st).
  { destruct Hroot as (i & s & b & es & Hr). intros E. rewrite E in Hr. congruence. }
  split.
  - destruct Hroot as (i & s & b & es & Hr).
    destruct (decide (root st = parent)) as [E|Hne].
    + do 4 eexists. apply created_lookup. left. done.
    + exists i, s, b, es. apply created_lookup. right. right. done.
  - intros r [H| ->]%created_is_Some; [by apply Hmin|].
    destruct Hroot as (i & s & b & es & Hr).
    specialize (Hfr (root st) (mk_is_Some _ _ Hr)). simpl. lia.
  - intros r [H| ->]%created_is_Some; simpl; [|lia].
    specialize (Hfr r H). lia.
  - intros r n [[-> ->]|[[-> ->]|(_ & _ & H)]]%created_lookup.
    + apply (Hid _ _ Hparent).
    + destruct Hmk as [-> | ->]; done.
    + by apply Hid.
  - intros d nm c [H|(_ & _ & ->)]%created_entry; apply created_is_Some.
    + left. by apply (Hclosed d nm).
    + by right.
  - intros d nm c [H|(-> & _ & ->)]%created_entry; [by apply (Horder d nm)|].
    apply Hfr. by eexists.
  - intros d1 n1 d2 n2 c [H1|(-> & -> & ->)]%created_entry
                          [H2|(-> & -> & Hc)]%created_entry.
    + by apply (Huniq d1 n1 d2 n2 c).
    + subst c. apply Hclosed in H1 as [? ?]. congruence.
    + apply Hclosed in H2 as [? ?]. congruence.
    + done.
  - intros r. rewrite created_linked. simpl.
    rewrite lookup_insert_is_Some, Hreg. split.
    + intros [<-|[Hne [->|Hl]]]; [right; by right|by left|right; by left].
    + intros [->|[Hl| ->]]; [right; split; [done|by left]| |by left].
      destruct (decide (next_inode_id st = r)); [by left|right; split; [done|by right]].
  - done.
  - intros r b [Ho| ->]%created_owned; [by apply (Hblocks r)|].
    split; [constructor|]. intros x Hx. by apply elem_of_nil in Hx.
  - intros r1 r2 b1 b2 [Ho1| ->]%created_owned [Ho2| ->]%created_owned Hne x Hx.
    + by apply (Hdisj r1 r2 b1 b2).
    + apply not_elem_of_nil.
    + by apply elem_of_nil in Hx.
    + apply not_elem_of_nil.
  - intros r i s b [[_ H]|(_ & -> & ->)]%created_file; [by apply (Hcap r i)|].
    simpl. lia.
  - intros r i s b x [[_ H]|(_ & -> & ->)]%created_file Hx.
    + by apply (Hdata r i s b).
    + by apply elem_of_nil in Hx.
Qed.
End created.

(** ** The invariant is kept by [write] *)

Section written.
Context (st : FileSystem) (node iid fsize fsize' : Z) (blks taken : list Z)
        (bm : BlockManager) (db : gmap Z DataBlock).
Hypothesis Hinv : fs_inv st.
Hypothesis Hnode : objs st !! node = Some (File iid fsize blks).
Hypothesis Hlinked : linked (objs st) node.
Hypothesis Hfree : free_blocks (block_mgr st) = free_blocks bm ++ reverse taken.
Hypothesis Hdb : ∀ x, block_ok (data_blocks st) x ∨ x ∈ taken → block_ok db x.
Hypothesis Hsize : 0 ≤ fsize' ≤ Z.of_nat (length (blks ++ taken)) * BLOCK_SIZE.

Local Abbreviation st' := (written st node iid fsize' blks taken bm db).

Lemma written_entry (d : Z) (nm : string) (c : Z) :
  entry (objs st') d nm c ↔ entry (objs st) d nm c.
Proof. apply (entry_insert_file _ _ _ _ _ _ _ _ _ _ _ Hnode). Qed.

Lemma written_is_Some (r : Z) : is_Some (objs st' !! r) ↔ is_Some (objs st !! r).
Proof.
  simpl. rewrite lookup_insert_is_Some. split.
  - intros [<-|[_ H]]; [by eexists|done].
  - intros H. destruct (decide (node = r)); [by left|by right].
Qed.

Lemma written_file (r i s : Z) (b : list Z) :
  objs st' !! r = Some (File i s b) →
  (r = node ∧ i = iid ∧ s = fsize' ∧ b = blks ++ taken) ∨
  (r ≠ node ∧ objs st !! r = Some (File i s b)).
Proof. simpl. rewrite lookup_insert_Some. naive_solver. Qed.

Lemma written_owned (r : Z) (b : list Z) :
  owned st' r b → (r = node ∧ b = blks ++ taken) ∨ (r ≠ node ∧ owned st r b).
Proof.
  intros [(i & s & [(-> & _ & _ & ->)|[Hne H]]%written_file) (d & nm & Hl)];
    [by left|right].
  split; [done|]. split; [by exists i, s|].
  exists d, nm. by apply written_entry.
Qed.

Lemma taken_free (x : Z) : x ∈ taken → x ∈ free_blocks (block_mgr st).
Proof. intros Hx. rewrite Hfree, elem_of_app, elem_of_reverse. by right. Qed.

Lemma written_inv : fs_inv st'.
Proof.
  pose proof Hinv as [Hroot Hmin Hfr Hid Hclosed Horder Huniq Hreg Hnd Hblocks
                        Hdisj Hcap Hdata].
  assert (Hown : owned st node blks) by (split; [by exists iid, fsize|done]).
  destruct (Hblocks node blks Hown) as [Hnd_blks Hblks_free].
  rewrite Hfree in Hnd. apply NoDup_app in Hnd as (Hnd1 & Hnd2 & Hnd3).
  rewrite reverse_Permutation in Hnd3.
  split.
  - destruct Hroot as (i & s & b & es & Hr). exists i, s, b, es. simpl.
    rewrite lookup_insert_ne; [done|]. intros E. rewrite E in Hnode. congruence.
  - intros r H%written_is_Some. by apply Hmin.
  - intros r H%written_is_Some. by apply Hfr.
  - intros r n. simpl. rewrite lookup_insert_Some. intros [[<- <-]|[_ H]].
    + apply (Hid _ _ Hnode).
    + by apply Hid.
  - intros d nm c H%written_entry. apply written_is_Some. by apply (Hclosed d nm).
  - intros d nm c H%written_entry. by apply (Horder d nm).
  - intros d1 n1 d2 n2 c H1%written_entry H2%written_entry.
    by apply (Huniq d1 n1 d2 n2 c).
  - intros r. simpl. rewrite Hreg. unfold linked.
    by setoid_rewrite (entry_insert_file _ _ _ _ _ _ _ _ _ _ _ Hnode).
  - done.
  - intros r b [[-> ->]|[Hne Ho]]%written_owned; simpl.
    + split.
      * apply NoDup_app. split_and!; [done| |done].
        intros x Hx Hx'%taken_free. by apply (Hblks_free x).
      * intros x [Hx|Hx]%elem_of_app Hx'.
        -- apply (Hblks_free x Hx). rewrite Hfree, elem_of_app. by left.
        -- apply (Hnd2 x Hx'). by apply elem_of_reverse.
    + destruct (Hblocks r b Ho) as [? Hb]. split; [done|].
      intros x Hx Hx'. apply (Hb x Hx). rewrite Hfree, elem_of_app. by left.
  - intros r1 r2 b1 b2 [[-> ->]|[Hne1 Ho1]]%written_owned
      [[-> ->]|[Hne2 Ho2]]%written_owned Hne x Hx; [done| | |].
    + apply elem_of_app in Hx as [Hx|Hx].
      * by apply (Hdisj node r2 blks b2).
      * intros Hx2. destruct (Hblocks r2 b2 Ho2) as [_ Hb].
        by apply (Hb x Hx2), taken_free.
    + intros [Hx2|Hx2]%elem_of_app.
      * by apply (Hdisj r1 node b1 blks Ho1 Hown Hne x).
      * destruct (Hblocks r1 b1 Ho1) as [_ Hb]. by apply (Hb x Hx), taken_free.
    + by apply (Hdisj r1 r2 b1 b2).
  - intros r i s b [(-> & -> & -> & ->)|[_ H]]%written_file; [done|].
    by apply (Hcap r i).
  - intros r i s b x [(-> & -> & -> & ->)|[_ H]]%written_file Hx; apply Hdb.
    + apply elem_of_app in Hx as [Hx|Hx]; [left|by right].
      by apply (Hdata node iid fsize blks).
    + left. by apply (Hdata r i s b).
Qed.
End written.

(** ** The invariant is kept by [delete] *)

Lemma foldl_free (bm : BlockManager) (l : list Z) :
  free_blocks (foldl free bm l) = free_blocks bm ++ l.
Proof.
  revert bm. induction l as [|x l IH]; intros bm; simpl.
  - by rewrite app_nil_r.
  - rewrite IH. simpl. by rewrite <- app_assoc.
Qed.

Section deleted.
Context (st : FileSystem) (parent pid psize : Z) (pblocks : list Z)
        (entries : gmap string Z) (name : string) (child : Z) (node : INode).
Hypothesis Hinv : fs_inv st.
Hypothesis Hparent : objs st !! parent = Some (Directory pid psize pblocks entries).
Hypothesis Hname : entries !! name = Some child.
Hypothesis Hchild : objs st !! child = Some node.

Local Abbreviation st' := (deleted st parent pid psize pblocks entries name node).

Lemma deleted_the_entry : entry (objs st) parent name child.
Proof. by exists pid, psize, pblocks, entries. Qed.

Lemma deleted_child_id : inode_id node = child.
Proof. apply (inv_id st Hinv _ _ Hchild). Qed.

Lemma deleted_child_not_parent : child ≠ parent.
Proof. pose proof (inv_order st Hinv _ _ _ deleted_the_entry). lia. Qed.

Lemma deleted_child_not_root : child ≠ root st.
Proof.
  pose proof (inv_order st Hinv _ _ _ deleted_the_entry).
  pose proof (inv_root_min st Hinv parent (mk_is_Some _ _ Hparent)). lia.
Qed.

Lemma deleted_entry (d : Z) (nm : string) (c : Z) :
  entry (objs st') d nm c ↔ entry (objs st) d nm c ∧ ¬ (d = parent ∧ nm = name).
Proof. by apply entry_deleted. Qed.

Lemma deleted_linked (r : Z) :
  linked (objs st') r ↔ linked (objs st) r ∧ r ≠ child.
Proof.
  unfold linked. split.
  - intros (d & nm & [H Hnot]%deleted_entry). split; [by exists d, nm|].
    intros ->. apply Hnot.
    apply (inv_unique st Hinv _ _ _ _ _ H deleted_the_entry).
  - intros [(d & nm & H) Hne]. exists d, nm. apply deleted_entry. split; [done|].
    intros [-> ->]. destruct H as (?&?&?&?&H1&H2).
    rewrite Hparent in H1. simplify_eq.
Qed.

Lemma deleted_is_Some (r : Z) : is_Some (objs st' !! r) ↔ is_Some (objs st !! r).
Proof.
  simpl. rewrite lookup_insert_is_Some. split.
  - intros [<-|[_ H]]; [by eexists|done].
  - intros H. destruct (decide (parent = r)); [by left|by right].
Qed.

Lemma deleted_file (r i s : Z) (b : list Z) :
  objs st' !! r = Some (File i s b) ↔ objs st !! r = Some (File i s b).
Proof.
  simpl. rewrite lookup_insert_Some. split; [naive_solver|].
  intros H. right. split; [|done]. intros <-. congruence.
Qed.

Lemma deleted_owned (r : Z) (b : list Z) :
  owned st' r b → owned st r b ∧ r ≠ child.
Proof.
  intros [(i & s & H%deleted_file) [Hl Hne]%deleted_linked].
  split; [|done]. split; [by exists i, s|done].
Qed.

Lemma deleted_registered : is_Some (inodes st !! inode_id node).
Proof.
  rewrite deleted_child_id. apply (inv_registry st Hinv). right.
  exists parent, name. apply deleted_the_entry.
Qed.

Lemma deleted_inv : fs_inv st'.
Proof.
  pose proof Hinv as [Hroot Hmin Hfr Hid Hclosed Horder Huniq Hreg Hnd Hblocks
                        Hdisj Hcap Hdata].
  split.
  - destruct Hroot as (i & s & b & es & Hr). simpl.
    destruct (decide (parent = root st)) as [E|Hne].
    + rewrite <- E, lookup_insert_eq. by do 4 eexists.
    + rewrite lookup_insert_ne by done. by exists i, s, b, es.
  - intros r H%deleted_is_Some. by apply Hmin.
  - intros r H%deleted_is_Some. by apply Hfr.
  - intros r n. simpl. rewrite lookup_insert_Some. intros [[<- <-]|[_ H]].
    + apply (Hid _ _ Hparent).
    + by apply Hid.
  - intros d nm c [H _]%deleted_entry. apply deleted_is_Some.
    by apply (Hclosed d nm).
  - intros d nm c [H _]%deleted_entry. by apply (Horder d nm).
  - intros d1 n1 d2 n2 c [H1 _]%deleted_entry [H2 _]%deleted_entry.
    by apply (Huniq d1 n1 d2 n2 c).
  - intros r. rewrite deleted_linked. simpl.
    rewrite deleted_child_id, lookup_delete_is_Some, Hreg.
    pose proof deleted_child_not_root. naive_solver.
  - simpl. destruct node as [i s b|i s b es]; simpl; [|done].
    rewrite foldl_free.
    assert (Ho : owned st child b).
    { split; [by exists i, s|]. exists parent, name. apply deleted_the_entry. }
    destruct (Hblocks child b Ho) as [Hb1 Hb2].
    apply NoDup_app. split_and!; [done| |done].
    intros x Hx Hx'. by apply (Hb2 x).
  - intros r b [Ho Hne]%deleted_owned. destruct (Hblocks r b Ho) as [Hb1 Hb2].
    split; [done|]. intros x Hx. simpl.
    destruct node as [i s b'|i s b' es]; simpl; [|by apply Hb2].
    rewrite foldl_free. intros [Hx'|Hx']%elem_of_app; [by apply (Hb2 x)|].
    assert (Ho' : owned st child b').
    { split; [by exists i, s|]. exists parent, name. apply deleted_the_entry. }
    by apply (Hdisj r child b b' Ho Ho' Hne x).
  - intros r1 r2 b1 b2 [Ho1 _]%deleted_owned [Ho2 _]%deleted_owned.
    by apply Hdisj.
  - intros r i s b H%deleted_file. by apply (Hcap r i).
  - intros r i s b x H%deleted_file. by apply (Hdata r i s b).
Qed.
End deleted.

(** ** What the calls return, and the state they leave *)

Lemma create_node_cases (new_inode : Z → INode) (st : FileSystem) (path : string) :
  (rsplit_slash path = None ∧ create_node new_inode st path = Raise ValueError st) ∨
  (is_Some (rsplit_slash path) ∧ create_node new_inode st path = Ret false st) ∨
  (∃ parent_path name parent pid psize pblocks entries,
     rsplit_slash path = Some (parent_path, name) ∧
     node_at st (or_slash parent_path)
       = Some (parent, Directory pid psize pblocks entries) ∧
     entries !! name = None ∧
     create_node new_inode st path
       = Ret true (created new_inode st parent pid psize pblocks entries name)).
Proof.
  unfold create_node. destruct (rsplit_slash path) as [[pp name]|]; [|by left].
  right. destruct (node_at st (or_slash pp)) as [[par [|pid ps pb es]]|] eqn:Hn;
    [left; by split..| |left; by split].
  destruct (es !! name) eqn:Hname; [left; by split|].
  right. by exists pp, name, par, pid, ps, pb, es.
Qed.

Lemma write_cases (st : FileSystem) (path : string) (bytes : list Byte.byte)
    (offset : Z) :
  ((∀ node iid fsize blks, node_at st path ≠ Some (node, File iid fsize blks)) ∧
   write st path bytes offset = Ret false st) ∨
  (∃ node iid fsize blks bm taken,
     let end_ := offset + Z.of_nat (length bytes) in
     let blks' := blks ++ taken in
     let db := fresh_blocks (data_blocks st) taken in
     node_at st path = Some (node, File iid fsize blks) ∧
     free_blocks (block_mgr st) = free_blocks bm ++ reverse taken ∧
     (taken ≠ [] → (Z.of_nat (length blks') - 1) * BLOCK_SIZE < end_) ∧
     ((free_blocks bm = [] ∧ Z.of_nat (length blks') * BLOCK_SIZE < end_ ∧
       write st path bytes offset = Ret false (written st node iid fsize blks taken bm db))
      ∨ (end_ ≤ Z.of_nat (length blks') * BLOCK_SIZE ∧
         ∃ db', copy_in blks' db offset bytes = inl db' ∧
                write st path bytes offset
                  = Ret true (written st node iid (Z.max fsize end_) blks taken bm db'))
      ∨ (end_ ≤ Z.of_nat (length blks') * BLOCK_SIZE ∧
         ∃ e db', copy_in blks' db offset bytes = inr (e, db') ∧
                  write st path bytes offset
                    = Raise e (written st node iid fsize blks taken bm db')))).
Proof.
  unfold write.
  destruct (node_at st path) as [[node [iid fsize blks|]]|] eqn:Hn;
    [|left; split; [intros; congruence|done]..].
  right.
  destruct (alloc_loop_spec (length (free_blocks (block_mgr st)))
              (offset + Z.of_nat (length bytes)) (block_mgr st) blks (data_blocks st))
    as (ok & bm' & taken & -> & Hfree & Hok & Hmin); [done|].
  exists node, iid, fsize, blks, bm', taken. simpl.
  split_and!; [done..|].
  destruct ok.
  - right. destruct (copy_in _ _ _ _) as [db'|[e db']] eqn:Hcopy.
    + left. split; [done|]. exists db'. split; [done|].
      unfold written. simpl. by rewrite insert_insert_eq.
    + right. split; [done|]. by exists e, db'.
  - left. destruct Hok as [? ?]. done.
Qed.

Lemma fs_delete_cases (st : FileSystem) (path : string) :
  fs_inv st →
  (rsplit_slash path = None ∧ fs_delete st path = Raise ValueError st) ∨
  (is_Some (rsplit_slash path) ∧ fs_delete st path = Ret false st) ∨
  (∃ parent_path name parent pid psize pblocks entries child node,
     rsplit_slash path = Some (parent_path, name) ∧
     node_at st (or_slash parent_path)
       = Some (parent, Directory pid psize pblocks entries) ∧
     entries !! name = Some child ∧
     objs st !! child = Some node ∧
     fs_delete st path
       = Ret true (deleted st parent pid psize pblocks entries name node)).
Proof.
  intros Hinv. unfold fs_delete.
  destruct (rsplit_slash path) as [[pp name]|]; [|by left].
  right. destruct (node_at st (or_slash pp)) as [[par [|pid ps pb es]]|] eqn:Hn;
    [left; by split..| |left; by split].
  destruct (es !! name) as [child|] eqn:Hname; [|left; by split].
  right. apply node_at_Some in Hn as Hn'. destruct Hn' as [_ Hpar].
  destruct (inv_closed st Hinv par name child) as [node Hnode];
    [by exists pid, ps, pb, es|].
  pose proof (deleted_child_not_parent st par pid ps pb es name child Hinv Hpar Hname).
  pose proof (deleted_registered st par pid ps pb es name child node Hinv Hpar Hname
                Hnode) as [v Hv].
  exists pp, name, par, pid, ps, pb, es, child, node.
  split_and!; [done..|].
  simpl. rewrite lookup_insert_ne by done. rewrite Hnode.
  destruct (is_dir node) eqn:Hd; simpl; rewrite Hv; unfold deleted; by rewrite Hd.
Qed.

(** ** Every call keeps the invariant *)

Lemma node_at_linked (st : FileSystem) (path : string) (r i s : Z) (b : list Z) :
  fs_inv st → node_at st path = Some (r, File i s b) → linked (objs st) r.
Proof.
  intros Hinv [Htr Hobj]%node_at_Some.
  apply walk_linked in Htr as [->|H]; [|done].
  destruct (inv_root st Hinv) as (?&?&?&?&Hr). congruence.
Qed.

Lemma create_node_inv (new_inode : Z → INode) (st : FileSystem) (path : string) :
  constructor new_inode → fs_inv st →
  fs_inv (state_of st (create_node new_inode st path)).
Proof.
  intros Hmk Hinv.
  destruct (create_node_cases new_inode st path)
    as [[_ ->]|[[_ ->]|(pp & name & par & pid & ps & pb & es & _ & Hn & Hname & ->)]];
    [done..|].
  apply node_at_Some in Hn as [_ Hpar]. simpl. by apply created_inv.
Qed.

Lemma write_inv (st : FileSystem) (path : string) (bytes : list Byte.byte)
    (offset : Z) :
  fs_inv st → fs_inv (state_of st (write st path bytes offset)).
Proof.
  intros Hinv.
  destruct (write_cases st path bytes offset)
    as [[_ ->]|(node & iid & fsize & blks & bm & taken & Hn & Hfree & _ & Hcases)];
    [done|].
  pose proof (node_at_linked _ _ _ _ _ _ Hinv Hn) as Hl.
  apply node_at_Some in Hn as [_ Hobj].
  pose proof (inv_capacity st Hinv _ _ _ _ Hobj) as Hcap.
  assert (Hgrow : Z.of_nat (length blks) ≤ Z.of_nat (length (blks ++ taken))).
  { rewrite length_app. lia. }
  pose proof BLOCK_SIZE_pos.
  destruct Hcases as [(_ & _ & ->)|[(Hend & db' & Hcopy & ->)|(_ & e & db' & Hcopy & ->)]];
    simpl; apply (written_inv st node iid fsize); try done.
  - apply fresh_blocks_ok.
  - nia.
  - intros x Hx%fresh_blocks_ok.
    pose proof (copy_in_ok (blks ++ taken) _ offset bytes x Hx) as Hok.
    by rewrite Hcopy in Hok.
  - nia.
  - intros x Hx%fresh_blocks_ok.
    pose proof (copy_in_ok (blks ++ taken) _ offset bytes x Hx) as Hok.
    by rewrite Hcopy in Hok.
  - nia.
Qed.

Lemma read_state (st : FileSystem) (path : string) (size_ offset : Z) :
  state_of st (read st path size_ offset) = st.
Proof.
  unfold read. destruct (node_at st path) as [[r [i s b|]]|]; [|done..].
  destruct (s <=? offset); [done|]. by destruct (copy_out _ _ _ _).
Qed.

Lemma ls_state (st : FileSystem) (path : string) : state_of st (ls st path) = st.
Proof. unfold ls. by destruct (node_at st path) as [[r [|]]|]. Qed.

Lemma fs_delete_inv (st : FileSystem) (path : string) :
  fs_inv st → fs_inv (state_of st (fs_delete st path)).
Proof.
  intros Hinv.
  destruct (fs_delete_cases st path Hinv)
    as [[_ ->]|[[_ ->]|(pp & name & par & pid & ps & pb & es & child & node
                       & _ & Hn & Hname & Hchild & ->)]]; [done..|].
  apply node_at_Some in Hn as [_ Hpar]. simpl. by apply (deleted_inv _ _ _ _ _ _ _ child).
Qed.

Lemma exec_inv (c : call) (st : FileSystem) : fs_inv st → fs_inv (exec c st).
Proof.
  intros Hinv. destruct c; simpl.
  - apply create_node_inv; [by right|done].
  - apply create_node_inv; [by left|done].
  - by apply write_inv.
  - by rewrite read_state.
  - by rewrite ls_state.
  - by apply fs_delete_inv.
Qed.

Lemma run_inv (cs : list call) (st : FileSystem) : fs_inv st → fs_inv (run cs st).
Proof.
  revert st. induction cs as [|c cs IH]; intros st Hinv; [done|].
  apply IH, exec_inv, Hinv.
Qed.

Lemma after_inv (total_blocks : Z) (cs : list call) : fs_inv (after total_blocks cs).
Proof. apply run_inv, init_inv. Qed.

(** ** Reading and writing bytes *)

Lemma py_getitem_nonneg {A} (l : list A) (i : Z) :
  0 ≤ i → py_getitem l i = l !! Z.to_nat i.
Proof. intros H. unfold py_getitem. by rewrite (proj2 (Z.leb_le 0 i) H). Qed.

Lemma copy_out_spec (blks : list Z) (db : gmap Z DataBlock) (idx : Z) (n : nat)
    (l : list Byte.byte) :
  copy_out blks db idx n = inr l ↔
  length l = n ∧ ∀ k, (k < n)%nat → byte_at blks db (idx + Z.of_nat k) = l !! k.
Proof.
  revert idx l. induction n as [|n IH]; intros idx l; simpl.
  - split.
    + intros [= <-]. split; [done|]. lia.
    + intros [Hl _]. by destruct l.
  - split.
    + destruct (py_getitem blks (idx `div` BLOCK_SIZE)) as [blk|] eqn:Hblk; [|done].
      destruct (db !! blk) as [d|] eqn:Hd; [|done].
      destruct (data d !! Z.to_nat (idx `mod` BLOCK_SIZE)) as [byte|] eqn:Hbyte; [|done].
      destruct (copy_out blks db (idx + 1) n) as [|tl] eqn:Htl; [done|].
      intros [= <-]. apply IH in Htl as [Hlen Htl]. split; [simpl; lia|].
      intros [|k] Hk; simpl.
      * rewrite Z.add_0_r. unfold byte_at. by rewrite Hblk, Hd.
      * rewrite <- Htl by lia. f_equal. lia.
    + intros [Hlen Hall]. destruct l as [|byte tl]; [done|].
      pose proof (Hall 0%nat ltac:(lia)) as H0. simpl in H0.
      rewrite Z.add_0_r in H0. unfold byte_at in H0.
      destruct (py_getitem blks (idx `div` BLOCK_SIZE)) as [blk|]; [|done].
      destruct (db !! blk) as [d|]; [|done]. rewrite H0.
      assert (Htl : copy_out blks db (idx + 1) n = inr tl).
      { apply IH. split; [simpl in Hlen; lia|]. intros k Hk.
        specialize (Hall (S k) ltac:(lia)). simpl in Hall.
        rewrite <- Hall. f_equal. lia. }
      by rewrite Htl.
Qed.

Lemma copy_out_total (blks : list Z) (db : gmap Z DataBlock) (idx : Z) (n : nat) :
  (∀ k, (k < n)%nat → is_Some (byte_at blks db (idx + Z.of_nat k))) →
  ∃ l, copy_out blks db idx n = inr l.
Proof.
  revert idx. induction n as [|n IH]; intros idx Hall; simpl; [by eexists|].
  destruct (Hall 0%nat ltac:(lia)) as [byte H0]. simpl in H0.
  rewrite Z.add_0_r in H0. unfold byte_at in H0.
  destruct (py_getitem blks (idx `div` BLOCK_SIZE)) as [blk|]; [|done].
  destruct (db !! blk) as [d|]; [|done]. rewrite H0.
  destruct (IH (idx + 1)) as [tl ->]; [|by eexists].
  intros k Hk. specialize (Hall (S k) ltac:(lia)).
  by replace (idx + 1 + Z.of_nat k) with (idx + Z.of_nat (S k)) by lia.
Qed.

(** Within the capacity of the block list every position holds a byte. *)
Lemma byte_at_is_Some (blks : list Z) (db : gmap Z DataBlock) (idx : Z) :
  (∀ x, x ∈ blks → block_ok db x) →
  0 ≤ idx < Z.of_nat (length blks) * BLOCK_SIZE →
  ∃ blk d byte,
    py_getitem blks (idx `div` BLOCK_SIZE) = Some blk ∧
    (Z.to_nat (idx `div` BLOCK_SIZE) < length blks)%nat ∧
    db !! blk = Some d ∧
    data d !! Z.to_nat (idx `mod` BLOCK_SIZE) = Some byte ∧
    byte_at blks db idx = Some byte.
Proof.
  intros Hok Hidx. pose proof BLOCK_SIZE_pos as Hpos.
  assert (Hdiv : 0 ≤ idx `div` BLOCK_SIZE < Z.of_nat (length blks)).
  { split; [apply Z.div_pos; lia|]. apply Z.div_lt_upper_bound; lia. }
  assert (Hi : (Z.to_nat (idx `div` BLOCK_SIZE) < length blks)%nat) by lia.
  destruct (lookup_lt_is_Some_2 blks _ Hi) as [blk Hblk].
  destruct (Hok blk) as (d & Hd & Hlen); [by eapply list_elem_of_lookup_2|].
  pose proof (Z.mod_pos_bound idx BLOCK_SIZE Hpos) as Hmod.
  destruct (lookup_lt_is_Some_2 (data d) (Z.to_nat (idx `mod` BLOCK_SIZE)))
    as [byte Hbyte]; [lia|].
  exists blk, d, byte. unfold byte_at.
  rewrite py_getitem_nonneg by lia. rewrite Hblk, Hd. done.
Qed.

(** C10. After any sequence of calls on a new file system, every file
    object has [size <= len(blocks) * BLOCK_SIZE]; hence for every
    position below [size] the index [idx // BLOCK_SIZE] is within the
    block list, the block id found there is a key of [data_blocks], and
    the block has a byte at [idx % BLOCK_SIZE]. *)
Theorem capacity_invariant (total_blocks : Z) (cs : list call) (r iid fsize : Z)
    (blks : list Z) :
  objs (after total_blocks cs) !! r = Some (File iid fsize blks) →
  fsize ≤ Z.of_nat (length blks) * BLOCK_SIZE ∧
  ∀ idx, 0 ≤ idx < fsize →
    ∃ blk d byte,
      py_getitem blks (idx `div` BLOCK_SIZE) = Some blk ∧
      (Z.to_nat (idx `div` BLOCK_SIZE) < length blks)%nat ∧
      data_blocks (after total_blocks cs) !! blk = Some d ∧
      data d !! Z.to_nat (idx `mod` BLOCK_SIZE) = Some byte.
Proof.
  intros Hr. pose proof (after_inv total_blocks cs) as Hinv.
  pose proof (inv_capacity _ Hinv _ _ _ _ Hr) as Hcap. split; [lia|].
  intros idx Hidx.
  destruct (byte_at_is_Some blks (data_blocks (after total_blocks cs)) idx)
    as (blk & d & byte & ? & ? & ? & ? & _); [|lia|by exists blk, d, byte].
  intros x Hx. by apply (inv_data _ Hinv r iid fsize blks).
Qed.

(** C2. After any sequence of calls on a new file system, [read] with a
    non-negative size and offset on a path that resolves to a file
    returns the empty bytes when [offset >= file.size] and otherwise
    bytes of length [min(size, file.size - offset)]; on any other path
    it returns [None].  The state is left as it was: no block is
    allocated. *)
Theorem read_spec (total_blocks : Z) (cs : list call) (path : string)
    (size_ offset : Z) :
  0 ≤ size_ → 0 ≤ offset →
  let st := after total_blocks cs in
  match node_at st path with
  | Some (_, File _ fsize _) =>
      ∃ bytes,
        read st path size_ offset = Ret (Some bytes) st ∧
        (fsize ≤ offset → bytes = []) ∧
        (offset < fsize → Z.of_nat (length bytes) = Z.min size_ (fsize - offset))
  | _ => read st path size_ offset = Ret None st
  end.
Proof.
  intros Hsize Hoff st. pose proof (after_inv total_blocks cs) as Hinv. fold st in Hinv.
  unfold read. destruct (node_at st path) as [[r [iid fsize blks|]]|] eqn:Hn; [|done..].
  apply node_at_Some in Hn as [_ Hobj].
  pose proof (inv_capacity _ Hinv _ _ _ _ Hobj) as Hcap.
  destruct (Z.leb_spec fsize offset) as [Hle|Hlt].
  { exists []. split; [done|]. split; [done|lia]. }
  destruct (copy_out_total blks (data_blocks st) offset
              (Z.to_nat (Z.min size_ (fsize - offset)))) as [l Hl].
  { intros k Hk.
    destruct (byte_at_is_Some blks (data_blocks st) (offset + Z.of_nat k))
      as (? & ? & byte & _ & _ & _ & _ & ->); [|lia|by eexists].
    intros x Hx. by apply (inv_data _ Hinv r iid fsize blks). }
  rewrite Hl. exists l. split; [done|]. split; [lia|]. intros _.
  apply copy_out_spec in Hl as [-> _]. lia.
Qed.

Lemma byte_at_insert_same (blks : list Z) (db : gmap Z DataBlock) (idx blk : Z)
    (d : DataBlock) (byte : Byte.byte) :
  0 ≤ idx → blks !! Z.to_nat (idx `div` BLOCK_SIZE) = Some blk →
  idx `mod` BLOCK_SIZE < Z.of_nat (length (data d)) →
  byte_at blks
    (<[blk := mkDataBlock (block_id d)
                (<[Z.to_nat (idx `mod` BLOCK_SIZE) := byte]> (data d))]> db) idx
  = Some byte.
Proof.
  intros Hidx Hblk Hoff. pose proof BLOCK_SIZE_pos as Hpos.
  pose proof (Z.mod_pos_bound idx BLOCK_SIZE Hpos).
  unfold byte_at. rewrite py_getitem_nonneg by (apply Z.div_pos; lia).
  rewrite Hblk, lookup_insert_eq. simpl. apply list_lookup_insert_eq. lia.
Qed.

Lemma byte_at_insert_other (blks : list Z) (db : gmap Z DataBlock) (idx j blk : Z)
    (d : DataBlock) (byte : Byte.byte) :
  NoDup blks → 0 ≤ idx → 0 ≤ j → j ≠ idx →
  blks !! Z.to_nat (idx `div` BLOCK_SIZE) = Some blk → db !! blk = Some d →
  byte_at blks
    (<[blk := mkDataBlock (block_id d)
                (<[Z.to_nat (idx `mod` BLOCK_SIZE) := byte]> (data d))]> db) j
  = byte_at blks db j.
Proof.
  intros Hnd Hidx Hj Hne Hblk Hd. pose proof BLOCK_SIZE_pos as Hpos.
  pose proof (Z.mod_pos_bound idx BLOCK_SIZE Hpos).
  pose proof (Z.mod_pos_bound j BLOCK_SIZE Hpos).
  pose proof (Z.div_pos idx BLOCK_SIZE Hidx Hpos).
  pose proof (Z.div_pos j BLOCK_SIZE Hj Hpos).
  unfold byte_at. rewrite py_getitem_nonneg by done.
  destruct (blks !! Z.to_nat (j `div` BLOCK_SIZE)) as [bj|] eqn:Hbj; [|done].
  destruct (decide (bj = blk)) as [->|Hb].
  - rewrite lookup_insert_eq, Hd. simpl.
    pose proof (NoDup_lookup _ _ _ _ Hnd Hbj Hblk) as Hsame.
    apply list_lookup_insert_ne.
    pose proof (Z.div_mod idx BLOCK_SIZE ltac:(lia)).
    pose proof (Z.div_mod j BLOCK_SIZE ltac:(lia)).
    assert (j `div` BLOCK_SIZE = idx `div` BLOCK_SIZE) as Hq by lia.
    rewrite Hq in *. lia.
  - by rewrite lookup_insert_ne.
Qed.

(** After the copy loop the bytes are where they were put, and what lies
    before them is as it was. *)
Lemma copy_in_spec (blks : list Z) (db db' : gmap Z DataBlock) (idx : Z)
    (bytes : list Byte.byte) :
  NoDup blks → 0 ≤ idx →
  copy_in blks db idx bytes = inl db' →
  (∀ k, (k < length bytes)%nat → byte_at blks db' (idx + Z.of_nat k) = bytes !! k) ∧
  (∀ j, 0 ≤ j < idx → byte_at blks db' j = byte_at blks db j).
Proof.
  intros Hnd. revert db idx. induction bytes as [|byte rest IH]; intros db idx Hidx; simpl.
  - intros [= <-]. split; [lia|done].
  - pose proof BLOCK_SIZE_pos as Hpos.
    rewrite py_getitem_nonneg by (apply Z.div_pos; lia).
    destruct (blks !! Z.to_nat (idx `div` BLOCK_SIZE)) as [blk|] eqn:Hblk; [|done].
    destruct (db !! blk) as [d|] eqn:Hd; [|done].
    destruct (Z.ltb_spec (idx `mod` BLOCK_SIZE) (Z.of_nat (length (data d))))
      as [Hoff|]; [|done].
    intros [Hput Hkeep]%IH; [|lia]. split.
    + intros [|k] Hk; simpl.
      * rewrite Z.add_0_r, Hkeep by lia. by apply byte_at_insert_same.
      * rewrite <- Hput by lia. f_equal. lia.
    + intros j Hj. rewrite Hkeep by lia.
      apply byte_at_insert_other; [done|lia..|done|done].
Qed.

(** Whatever was written is read back, on any file. *)
Lemma write_read_roundtrip (st st' : FileSystem) (path : string)
    (bytes : list Byte.byte) (offset : Z) :
  fs_inv st → 0 ≤ offset →
  write st path bytes offset = Ret true st' →
  read st' path (Z.of_nat (length bytes)) offset = Ret (Some bytes) st'.
Proof.
  intros Hinv Hoff Hw.
  pose proof (write_inv st path bytes offset Hinv) as Hinv'. rewrite Hw in Hinv'.
  simpl in Hinv'.
  destruct (write_cases st path bytes offset)
    as [[_ E]|(node & iid & fsize & blks & bm & taken & Hn & Hfree & _ & Hcases)];
    [congruence|].
  destruct Hcases as [(_ & _ & E)|[(Hend & db' & Hcopy & E)|(_ & e & db' & _ & E)]];
    [congruence| |congruence].
  rewrite E in Hw. injection Hw as <-.
  apply node_at_Some in Hn as [Htr Hobj].
  assert (Hn' : node_at (written st node iid (Z.max fsize (offset + Z.of_nat (length bytes)))
                           blks taken bm db') path
                = Some (node, File iid (Z.max fsize (offset + Z.of_nat (length bytes)))
                                (blks ++ taken))).
  { apply node_at_Some. unfold _traverse in *. simpl.
    by rewrite (walk_insert_file _ _ _ _ _ _ _ _ _ _ Hobj), lookup_insert_eq. }
  pose proof (node_at_linked _ _ _ _ _ _ Hinv' Hn') as Hl.
  unfold read. rewrite Hn'.
  destruct (Z.leb_spec (Z.max fsize (offset + Z.of_nat (length bytes))) offset)
    as [Hle|Hlt].
  { destruct bytes; [done|simpl in Hle; lia]. }
  replace (Z.min _ _) with (Z.of_nat (length bytes)) by lia.
  rewrite Nat2Z.id. simpl.
  assert (Hnd : NoDup (blks ++ taken)).
  { apply (inv_blocks _ Hinv' node). split; [|done]. do 2 eexists.
    apply node_at_Some in Hn' as [_ Hobj']. exact Hobj'. }
  apply (copy_in_spec _ _ _ _ _ Hnd Hoff) in Hcopy as [Hput _].
  assert (Hout : copy_out (blks ++ taken) db' offset (length bytes) = inr bytes)
    by (by apply copy_out_spec).
  by rewrite Hout.
Qed.

(** ** Chains *)

Lemma chain_mono (h h' : gmap Z INode) (cur : Z) (names : list string) (r : Z) :
  (∀ d name c, entry h d name c → entry h' d name c) →
  chain h cur names r → chain h' cur names r.
Proof.
  intros Hsub. induction 1 as [|cur name child rest r He _ IH]; [constructor|].
  econstructor; [by apply Hsub|done].
Qed.

Lemma chain_app (h : gmap Z INode) (cur mid r : Z) (ns1 ns2 : list string) :
  chain h cur ns1 mid → chain h mid ns2 r → chain h cur (ns1 ++ ns2) r.
Proof.
  induction 1 as [|cur name child rest mid He _ IH]; intros H2; [done|].
  simpl. econstructor; [done|]. by apply IH.
Qed.

Lemma chain_snoc_inv (h : gmap Z INode) (cur r : Z) (ns : list string) (n : string) :
  chain h cur (ns ++ [n]) r → ∃ d, chain h cur ns d ∧ entry h d n r.
Proof.
  revert cur. induction ns as [|m ns IH]; intros cur; simpl.
  - inversion 1 as [|? ? child ? ? He Hch]; subst. inversion Hch; subst.
    exists cur. split; [constructor|done].
  - inversion 1 as [|? ? child ? ? He Hch]; subst.
    destruct (IH _ Hch) as (d & Hd & Hl). exists d. split; [|done].
    by econstructor.
Qed.

Lemma chain_is_Some (st : FileSystem) (names : list string) (r : Z) :
  fs_inv st → chain (objs st) (root st) names r → is_Some (objs st !! r).
Proof.
  intros Hinv.
  assert (Hgen : ∀ cur, is_Some (objs st !! cur) →
                        chain (objs st) cur names r → is_Some (objs st !! r)).
  { intros cur Hcur Hch. induction Hch as [|cur name child rest r He _ IH]; [done|].
    apply IH. by apply (inv_closed st Hinv cur name). }
  apply Hgen. destruct (inv_root st Hinv) as (?&?&?&?&Hr). by eexists.
Qed.

Lemma no_entry_to_root (st : FileSystem) (d : Z) (name : string) :
  fs_inv st → ¬ entry (objs st) d name (root st).
Proof.
  intros Hinv He. pose proof (inv_order st Hinv _ _ _ He).
  destruct He as (?&?&?&?&Hd&_).
  pose proof (inv_root_min st Hinv d (mk_is_Some _ _ Hd)). lia.
Qed.

(** The path given to a successful [mkdir] or [create_file] resolves to
    the new inode, unless it ends with a separator: then it resolves to
    the parent. *)
Lemma created_traverse (new_inode : Z → INode) (st : FileSystem) (path : string)
    (parent_path name : string) (parent pid psize : Z) (pblocks : list Z)
    (entries : gmap string Z) :
  fs_inv st → constructor new_inode →
  rsplit_slash path = Some (parent_path, name) →
  node_at st (or_slash parent_path) = Some (parent, Directory pid psize pblocks entries) →
  entries !! name = None →
  _traverse (created new_inode st parent pid psize pblocks entries name) path
  = Some (if decide (name = EmptyString) then parent else next_inode_id st).
Proof.
  intros Hinv Hmk Hsplit [Htr Hpar]%node_at_Some Hname.
  unfold _traverse. rewrite (path_parts_rsplit _ _ _ Hsplit).
  assert (Hch : chain (objs (created new_inode st parent pid psize pblocks entries name))
                  (root st) (path_parts (or_slash parent_path)) parent).
  { apply (chain_mono (objs st)); [|by apply walk_chain].
    intros d nm c He. apply created_entry; [done..|by left]. }
  apply walk_chain. destruct (decide (name = EmptyString)) as [E|Hne].
  - by rewrite app_nil_r.
  - apply (chain_app _ _ parent); [done|].
    econstructor; [|constructor]. apply created_entry; [done..|by right].
Qed.

(** C1. On a new file system after any sequence of calls: when
    [create_file(path)] succeeds and then [write(path, d, o)] with
    [o >= 0] succeeds, the file written is the one just created, with
    size 0 and no block, and [read(path, len(d), o)] returns [d]. *)
Theorem write_read_fresh (total_blocks : Z) (cs : list call) (path : string)
    (bytes : list Byte.byte) (offset : Z) (st1 st2 : FileSystem) :
  0 ≤ offset →
  create_file (after total_blocks cs) path = Ret true st1 →
  write st1 path bytes offset = Ret true st2 →
  node_at st1 path
    = Some (next_inode_id (after total_blocks cs),
            File (next_inode_id (after total_blocks cs)) 0 []) ∧
  read st2 path (Z.of_nat (length bytes)) offset = Ret (Some bytes) st2.
Proof.
  intros Hoff Hc Hw.
  pose proof (after_inv total_blocks cs) as Hinv0.
  pose proof (create_node_inv File_init (after total_blocks cs) path
                ltac:(by left) Hinv0) as Hinv.
  unfold create_file in Hc. rewrite Hc in Hinv. simpl in Hinv.
  split; [|by apply (write_read_roundtrip st1)].
  destruct (create_node_cases File_init (after total_blocks cs) path)
    as [[_ E]|[[_ E]|(pp & name & par & pid & ps & pb & es & Hsplit & Hn & Hname & E)]];
    [congruence..|].
  rewrite E in Hc. injection Hc as <-.
  pose proof (created_traverse File_init _ path pp name par pid ps pb es Hinv0
                ltac:(by left) Hsplit Hn Hname) as Htr.
  apply node_at_Some in Hn as [_ Hpar].
  pose proof (created_parent_old _ _ _ _ _ _ Hinv0 Hpar) as Hold.
  destruct (decide (name = EmptyString)) as [->|Hne].
  - exfalso. unfold write, node_at in Hw. rewrite Htr in Hw. simpl in Hw.
    rewrite lookup_insert_eq in Hw. done.
  - apply node_at_Some. split; [done|]. simpl.
    rewrite lookup_insert_ne by done. by rewrite lookup_insert_eq.
Qed.

(** No hard links and no cycles: at most one chain from the root. *)
Lemma chain_unique (st : FileSystem) (ns1 ns2 : list string) (r : Z) :
  fs_inv st →
  chain (objs st) (root st) ns1 r → chain (objs st) (root st) ns2 r → ns1 = ns2.
Proof.
  intros Hinv. revert ns2 r.
  induction ns1 as [|n1 ns1 IH] using rev_ind; intros ns2 r H1 H2.
  - inversion H1; subst.
    destruct ns2 as [|n2 ns2 _] using rev_ind; [done|].
    apply chain_snoc_inv in H2 as (d & _ & He).
    by apply no_entry_to_root in He.
  - apply chain_snoc_inv in H1 as (d1 & Hd1 & He1).
    destruct ns2 as [|n2 ns2 _] using rev_ind.
    + inversion H2; subst. by apply no_entry_to_root in He1.
    + apply chain_snoc_inv in H2 as (d2 & Hd2 & He2).
      destruct (inv_unique st Hinv _ _ _ _ _ He1 He2) as [<- <-].
      by rewrite (IH ns2 d1).
Qed.

(** C5. After any sequence of calls on a new file system: the parts of a
    path are the non-empty segments between separators; [""] and ["/"]
    resolve to the root; [_traverse] returns [r] exactly when following
    the parts as entry names from the root, through directories, leads
    to [r], which is then an inode object; it returns [None] exactly when
    the walk reaches, by a proper prefix of the parts, a node that is not
    a directory or a directory without the next name. *)
Theorem traverse_spec (total_blocks : Z) (cs : list call) (path : string) :
  let st := after total_blocks cs in
  join_slash (split_slash path) = path ∧
  Forall (λ seg, has_slash seg = false) (split_slash path) ∧
  path_parts path = filter (λ p : string, p ≠ EmptyString) (split_slash path) ∧
  Forall (λ seg, seg ≠ EmptyString ∧ has_slash seg = false) (path_parts path) ∧
  _traverse st "" = Some (root st) ∧
  _traverse st "/" = Some (root st) ∧
  (∀ r, _traverse st path = Some r ↔ chain (objs st) (root st) (path_parts path) r) ∧
  (∀ r, _traverse st path = Some r → is_Some (objs st !! r)) ∧
  (_traverse st path = None ↔ stuck_at (objs st) (root st) (path_parts path)).
Proof.
  intros st. pose proof (after_inv total_blocks cs) as Hinv. fold st in Hinv.
  split_and!.
  - apply split_slash_join.
  - apply split_slash_no_slash.
  - done.
  - apply path_parts_spec.
  - done.
  - done.
  - intros r. apply walk_chain.
  - intros r Hr%walk_chain. by apply (chain_is_Some st (path_parts path)).
  - apply walk_None.
    + destruct (inv_root st Hinv) as (?&?&?&?&Hr). by eexists.
    + apply (inv_closed st Hinv).
Qed.

(** ** Uniqueness of names *)

Lemma creators_cases (op : FileSystem → string → outcome bool) :
  op ∈ creators → ∃ new_inode, constructor new_inode ∧ op = create_node new_inode.
Proof.
  unfold creators. rewrite !elem_of_cons, elem_of_nil.
  intros [->|[->|[]]]; [exists Directory_init|exists File_init]; split; try done.
  - by right.
  - by left.
Qed.

Lemma target_Some (st : FileSystem) (path : string) (parent : Z) (name : string) :
  target st path = Some (parent, name) ↔
  ∃ parent_path, rsplit_slash path = Some (parent_path, name) ∧
                 _traverse st (or_slash parent_path) = Some parent.
Proof.
  unfold target. destruct (rsplit_slash path) as [[pp nm]|].
  - split.
    + destruct (_traverse st (or_slash pp)) as [par|] eqn:Htr; [|done].
      intros [= <- <-]. by exists pp.
    + intros (pp' & [= <- <-] & ->). done.
  - split; [done|]. by intros (? & [=] & _).
Qed.

(** C7. After any sequence of calls on a new file system: when one of
    [mkdir] and [create_file] succeeded for a parent directory and a
    name, the next such call for the same parent and name returns
    [False] and changes nothing; and such a call returns [False],
    changing nothing, when the parent path does not resolve to a
    directory. *)
Theorem create_unique (total_blocks : Z) (cs : list call)
    (op1 op2 : FileSystem → string → outcome bool) (path1 path2 : string) :
  op1 ∈ creators → op2 ∈ creators →
  let st := after total_blocks cs in
  (∀ st1, target st path1 = target st path2 →
          op1 st path1 = Ret true st1 → op2 st1 path2 = Ret false st1) ∧
  (∀ parent_path name,
     rsplit_slash path1 = Some (parent_path, name) →
     match node_at st (or_slash parent_path) with
     | Some (_, Directory _ _ _ _) => False
     | _ => True
     end →
     op1 st path1 = Ret false st).
Proof.
  intros (mk1 & Hmk1 & ->)%creators_cases (mk2 & Hmk2 & ->)%creators_cases st.
  pose proof (after_inv total_blocks cs) as Hinv. fold st in Hinv.
  split.
  - intros st1 Htarget Hop.
    destruct (create_node_cases mk1 st path1)
      as [[_ E]|[[_ E]|(pp & name & par & pid & ps & pb & es & Hsplit & Hn & Hname & E)]];
      [congruence..|].
    rewrite E in Hop. injection Hop as <-.
    apply node_at_Some in Hn as [Htr Hpar].
    assert (Ht : target st path2 = Some (par, name)).
    { rewrite <- Htarget. apply target_Some. by exists pp. }
    apply target_Some in Ht as (pp2 & Hsplit2 & Htr2).
    unfold create_node. rewrite Hsplit2.
    assert (Hn2 : node_at (created mk1 st par pid ps pb es name) (or_slash pp2)
                  = Some (par, Directory pid ps pb (<[name := next_inode_id st]> es))).
    { apply node_at_Some. split.
      - apply walk_chain. apply walk_chain in Htr2.
        apply (chain_mono (objs st)); [|done].
        intros d nm c He. apply created_entry; [done..|by left].
      - simpl. by rewrite lookup_insert_eq. }
    rewrite Hn2, lookup_insert_eq. done.
  - intros pp name Hsplit Hn. unfold create_node. rewrite Hsplit.
    by destruct (node_at st (or_slash pp)) as [[par [|]]|].
Qed.

(** ** The tree of directory entries *)

Lemma chain_deleted (h : gmap Z INode) (p pid ps : Z) (pb : list Z)
    (es : gmap string Z) (name : string) (child cur : Z) (ns : list string) (r : Z) :
  h !! p = Some (Directory pid ps pb es) → es !! name = Some child →
  (∀ n c, ¬ entry h child n c) → r ≠ child →
  chain h cur ns r →
  chain (<[p := Directory pid ps pb (delete name es)]> h) cur ns r.
Proof.
  intros Hp Hname Hleaf Hne.
  induction 1 as [|cur nm c rest r He Hch IH]; [constructor|].
  econstructor; [|exact (IH Hne)].
  apply entry_deleted; [done|]. split; [done|]. intros [-> ->].
  destruct He as (?&?&?&?&Hd&Hl). rewrite Hp in Hd. simplify_eq.
  inversion Hch as [|? ? ? ? ? He' _]; subst; [done|].
  by apply Hleaf in He'.
Qed.

Lemma init_reachable (total_blocks : Z) : all_reachable (FileSystem_init total_blocks).
Proof.
  intros r. unfold FileSystem_init. simpl. rewrite insert_empty.
  intros [v [<- _]%lookup_singleton_Some]. exists []. constructor.
Qed.

Lemma create_node_reachable (new_inode : Z → INode) (st : FileSystem) (path : string) :
  constructor new_inode → fs_inv st → all_reachable st →
  all_reachable (state_of st (create_node new_inode st path)).
Proof.
  intros Hmk Hinv Hreach.
  destruct (create_node_cases new_inode st path)
    as [[_ ->]|[[_ ->]|(pp & name & par & pid & ps & pb & es & _ & Hn & Hname & ->)]];
    [done..|].
  apply node_at_Some in Hn as [Htr Hpar]. simpl. intros r. simpl.
  assert (Hsub : ∀ d nm c, entry (objs st) d nm c →
                           entry (objs (created new_inode st par pid ps pb es name)) d nm c).
  { intros d nm c He. apply created_entry; [done..|by left]. }
  rewrite lookup_insert_is_Some. intros [<-|[_ Hr]].
  - exists (path_parts (or_slash pp) ++ [name]).
    apply (chain_app _ _ par).
    + apply (chain_mono (objs st)); [done|]. by apply walk_chain.
    + econstructor; [|constructor]. apply created_entry; [done..|by right].
  - destruct (Hreach r Hr) as [names Hch]. exists names.
    by apply (chain_mono (objs st)).
Qed.

Lemma write_reachable (st : FileSystem) (path : string) (bytes : list Byte.byte)
    (offset : Z) :
  all_reachable st → all_reachable (state_of st (write st path bytes offset)).
Proof.
  intros Hreach.
  assert (Hgen : ∀ node iid fsize fsize' blks taken bm db,
            objs st !! node = Some (File iid fsize blks) →
            all_reachable (written st node iid fsize' blks taken bm db)).
  { intros node iid fsize fsize' blks taken bm db Hobj r Hr. simpl in Hr.
    destruct (Hreach r Hr) as [names Hch]. exists names.
    apply (chain_mono (objs st)); [|done].
    intros d nm c He. by apply (entry_insert_file _ _ _ _ _ _ _ _ _ _ _ Hobj). }
  destruct (write_cases st path bytes offset)
    as [[_ ->]|(node & iid & fsize & blks & bm & taken & Hn & _ & _ & Hcases)]; [done|].
  apply node_at_Some in Hn as [_ Hobj].
  destruct Hcases as [(_ & _ & ->)|[(_ & db' & _ & ->)|(_ & e & db' & _ & ->)]];
    by apply (Hgen _ _ fsize).
Qed.

Lemma fs_delete_reachable (st : FileSystem) (path : string) :
  fs_inv st → all_reachable st → deletes_leaf st path →
  all_reachable (state_of st (fs_delete st path)).
Proof.
  intros Hinv Hreach Hleaf.
  destruct (fs_delete_cases st path Hinv)
    as [[_ ->]|[[_ ->]|(pp & name & par & pid & ps & pb & es & child & node
                       & Hsplit & Hn & Hname & Hchild & ->)]]; [done..|].
  unfold deletes_leaf in Hleaf. rewrite Hsplit, Hn, Hname, Hchild in Hleaf.
  apply node_at_Some in Hn as [_ Hpar].
  assert (Hnone : ∀ n c, ¬ entry (objs st) child n c).
  { intros n c (?&?&?&ces&Hd&Hl). rewrite Hchild in Hd. injection Hd as ->.
    simpl in Hleaf. subst ces. by rewrite lookup_empty in Hl. }
  intros r. simpl.
  rewrite (inv_id st Hinv _ _ Hchild).
  rewrite lookup_delete_is_Some. intros [Hne Hr].
  destruct (Hreach r Hr) as [names Hch]. exists names.
  by apply (chain_deleted _ _ _ _ _ _ _ child).
Qed.

Lemma leaf_deletes_reachable (cs : list call) (st : FileSystem) :
  fs_inv st → all_reachable st → leaf_deletes st cs → all_reachable (run cs st).
Proof.
  revert st. induction cs as [|c cs IH]; intros st Hinv Hreach; [done|].
  intros [Hc Hcs]. apply IH; [by apply exec_inv| |done].
  destruct c; simpl.
  - apply create_node_reachable; [by right|done..].
  - apply create_node_reachable; [by left|done..].
  - by apply write_reachable.
  - by rewrite read_state.
  - by rewrite ls_state.
  - by apply fs_delete_reachable.
Qed.

(** A node from which a chain leads to a node the root reaches is the
    root or a node some directory refers to. *)
Lemma chain_from_registered (st : FileSystem) (a r : Z) (ns1 ns2 : list string) :
  fs_inv st →
  chain (objs st) a ns1 r → chain (objs st) (root st) ns2 r →
  a = root st ∨ linked (objs st) a.
Proof.
  intros Hinv. revert ns2 r.
  induction ns1 as [|n1 ns1 IH] using rev_ind; intros ns2 r H1 H2.
  - inversion H1; subst. apply walk_chain, walk_linked in H2. done.
  - apply chain_snoc_inv in H1 as (d1 & Hd1 & He1).
    destruct ns2 as [|n2 ns2 _] using rev_ind.
    + inversion H2; subst. by apply no_entry_to_root in He1.
    + apply chain_snoc_inv in H2 as (d2 & Hd2 & He2).
      destruct (inv_unique st Hinv _ _ _ _ _ He1 He2) as [<- _].
      by apply (IH ns2 d1).
Qed.

(** Every inode of the registry is reached from the root or lies under a
    removed directory. *)
Lemma registered_reachable_or_under_removed (st : FileSystem) (r : Z) :
  fs_inv st → is_Some (inodes st !! r) →
  (∃ names, chain (objs st) (root st) names r) ∨ under_removed st r.
Proof.
  intros Hinv.
  assert (Hgen : ∀ k r, (Z.to_nat (r - root st) < k)%nat → is_Some (inodes st !! r) →
            (∃ names, chain (objs st) (root st) names r) ∨ under_removed st r).
  { clear r. induction k as [|k IH]; intros r Hk Hr; [lia|].
    apply (inv_registry st Hinv) in Hr as [->|(d & n & He)].
    { left. exists []. constructor. }
    pose proof (inv_order st Hinv _ _ _ He) as Hlt.
    assert (Hmin : root st ≤ d).
    { destruct He as (?&?&?&?&Hd&_). apply (inv_root_min st Hinv). by eexists. }
    assert (Hstep : chain (objs st) d [n] r) by (econstructor; [done|constructor]).
    destruct (inodes st !! d) as [v|] eqn:Hd.
    - destruct (IH d ltac:(lia) ltac:(by rewrite Hd)) as [[names Hch]|(d0 & names & H0 & Hne & Hch)].
      + left. exists (names ++ [n]). by apply (chain_app _ _ d).
      + right. exists d0, (names ++ [n]). split_and!; [done| |by apply (chain_app _ _ d)].
        by destruct names.
    - right. by exists d, [n]. }
  apply (Hgen (S (Z.to_nat (r - root st)))). lia.
Qed.

(** C8, as amended.  After any sequence of calls on a new file system:
    no inode is reached from the root by two different chains of
    directory entries (no hard links, no cycles); every inode of the
    registry is reached from the root by exactly one chain, except those
    that lie under a directory [delete] has removed, which no chain from
    the root reaches; and there is no such exception when no [delete] of
    the sequence removed a directory that still had entries. *)
Theorem tree_invariant (total_blocks : Z) (cs : list call) :
  let st := after total_blocks cs in
  (∀ r ns1 ns2, chain (objs st) (root st) ns1 r →
                chain (objs st) (root st) ns2 r → ns1 = ns2) ∧
  (∀ r, is_Some (inodes st !! r) →
        (∃ names, chain (objs st) (root st) names r ∧
                  ∀ names', chain (objs st) (root st) names' r → names' = names)
        ∨ under_removed st r) ∧
  (∀ r, under_removed st r → ¬ ∃ names, chain (objs st) (root st) names r) ∧
  (leaf_deletes (FileSystem_init total_blocks) cs →
   ∀ r, is_Some (inodes st !! r) →
        ∃ names, chain (objs st) (root st) names r ∧
                 ∀ names', chain (objs st) (root st) names' r → names' = names).
Proof.
  intros st. pose proof (after_inv total_blocks cs) as Hinv. fold st in Hinv.
  split_and!.
  - intros r ns1 ns2. by apply chain_unique.
  - intros r Hr.
    destruct (registered_reachable_or_under_removed st r Hinv Hr) as [[names Hch]|Hu];
      [left|by right].
    exists names. split; [done|]. intros names' Hch'.
    by apply (chain_unique st names' names r).
  - intros r (d & ns1 & Hd & _ & H1) [ns2 H2].
    assert (Hreg : is_Some (inodes st !! d)).
    { apply (inv_registry st Hinv). by apply (chain_from_registered st d r ns1 ns2). }
    rewrite Hd in Hreg. by destruct Hreg.
  - intros Hleaf r Hr.
    destruct (leaf_deletes_reachable cs (FileSystem_init total_blocks)
                (init_inv total_blocks) (init_reachable total_blocks) Hleaf r Hr)
      as [names Hch].
    exists names. split; [done|]. intros names' Hch'.
    by apply (chain_unique st names' names r).
Qed.

(** The claim without the restriction on [delete] fails: after
    [mkdir("/a")], [mkdir("/a/b")], [delete("/a")] the inode of ["/a/b"]
    is still in the registry and no chain from the root leads to it. *)
Lemma tree_invariant_orphan :
  is_Some (inodes (after 1024 [Mkdir "/a"; Mkdir "/a/b"; Delete "/a"]) !! 3) ∧
  ¬ ∃ names,
      chain (objs (after 1024 [Mkdir "/a"; Mkdir "/a/b"; Delete "/a"]))
            (root (after 1024 [Mkdir "/a"; Mkdir "/a/b"; Delete "/a"])) names 3.
Proof.
  split.
  - exists 3. vm_compute. reflexivity.
  - intros [names Hch]. apply walk_chain in Hch.
    assert (Hroot : objs (after 1024 [Mkdir "/a"; Mkdir "/a/b"; Delete "/a"])
                      !! root (after 1024 [Mkdir "/a"; Mkdir "/a/b"; Delete "/a"])
                    = Some (Directory 1 0 [] ∅)) by (vm_compute; reflexivity).
    destruct names as [|name rest]; simpl in Hch.
    + vm_compute in Hch. discriminate Hch.
    + rewrite Hroot, lookup_empty in Hch. discriminate Hch.
Qed.

Lemma tree_invariant_witness :
  (is_Some (inodes (after 1024 [Mkdir "/a"; Mkdir "/a/b"; Delete "/a"]) !! 3) ∧
   ((∃ names,
       chain (objs (after 1024 [Mkdir "/a"; Mkdir "/a/b"; Delete "/a"]))
             (root (after 1024 [Mkdir "/a"; Mkdir "/a/b"; Delete "/a"])) names 3 ∧
       ∀ names',
         chain (objs (after 1024 [Mkdir "/a"; Mkdir "/a/b"; Delete "/a"]))
               (root (after 1024 [Mkdir "/a"; Mkdir "/a/b"; Delete "/a"])) names' 3 →
         names' = names)
    ∨ under_removed (after 1024 [Mkdir "/a"; Mkdir "/a/b"; Delete "/a"]) 3)) ∧
  leaf_deletes (FileSystem_init 1024)
    [Mkdir "/a"; CreateFile "/a/f"; Delete "/a/f"; Delete "/a"] ∧
  ∀ r,
    is_Some (inodes (after 1024 [Mkdir "/a"; CreateFile "/a/f"; Delete "/a/f"; Delete "/a"])
               !! r) →
    ∃ names,
      chain (objs (after 1024 [Mkdir "/a"; CreateFile "/a/f"; Delete "/a/f"; Delete "/a"]))
            (root (after 1024 [Mkdir "/a"; CreateFile "/a/f"; Delete "/a/f"; Delete "/a"]))
            names r ∧
      ∀ names',
        chain (objs (after 1024 [Mkdir "/a"; CreateFile "/a/f"; Delete "/a/f"; Delete "/a"]))
              (root (after 1024 [Mkdir "/a"; CreateFile "/a/f"; Delete "/a/f"; Delete "/a"]))
              names' r → names' = names.
Proof.
  assert (H0 : is_Some (inodes (after 1024 [Mkdir "/a"; Mkdir "/a/b"; Delete "/a"]) !! 3))
    by (exists 3; vm_compute; reflexivity).
  assert (H : leaf_deletes (FileSystem_init 1024)
                [Mkdir "/a"; CreateFile "/a/f"; Delete "/a/f"; Delete "/a"]).
  { vm_compute. repeat split. }
  split.
  { split; [exact H0|].
    exact (proj1 (proj2 (tree_invariant 1024 [Mkdir "/a"; Mkdir "/a/b"; Delete "/a"]))
             3 H0). }
  split; [exact H|].
  exact (proj2 (proj2 (proj2 (tree_invariant 1024
                  [Mkdir "/a"; CreateFile "/a/f"; Delete "/a/f"; Delete "/a"]))) H).
Defined.

(** In the state of the counterexample the inode of ["/a/b"] is one of
    the exceptions: it lies under the removed directory ["/a"]. *)
Example orphan_under_removed :
  under_removed (after 1024 [Mkdir "/a"; Mkdir "/a/b"; Delete "/a"]) 3.
Proof.
  exists 2, ["b"%string]. split_and!; [vm_compute; reflexivity|done|].
  econstructor; [|constructor].
  exists 2, 0, [], {["b"%string := 3]}. split; vm_compute; reflexivity.
Qed.

(** ** Paths without a separator *)

Lemma no_slash_raises (st : FileSystem) (path : string) :
  has_slash path = false →
  mkdir st path = Raise ValueError st ∧
  create_file st path = Raise ValueError st ∧
  fs_delete st path = Raise ValueError st.
Proof.
  intros H%rsplit_slash_None. unfold mkdir, create_file, create_node, fs_delete.
  by rewrite H.
Qed.

(** C6 fails on the code: on a path without a separator, here ["abc"] on
    a new file system, [mkdir], [create_file] and [delete] raise
    [ValueError] (from unpacking the one-element result of [rsplit])
    instead of returning a flag. *)
Theorem no_slash_path_raises :
  mkdir (FileSystem_init 1024) "abc" = Raise ValueError (FileSystem_init 1024) ∧
  create_file (FileSystem_init 1024) "abc" = Raise ValueError (FileSystem_init 1024) ∧
  fs_delete (FileSystem_init 1024) "abc" = Raise ValueError (FileSystem_init 1024).
Proof. by apply no_slash_raises. Qed.

Lemma copy_in_total (blks : list Z) (db : gmap Z DataBlock) (idx : Z)
    (bytes : list Byte.byte) :
  (∀ x, x ∈ blks → block_ok db x) → 0 ≤ idx →
  idx + Z.of_nat (length bytes) ≤ Z.of_nat (length blks) * BLOCK_SIZE →
  ∃ db', copy_in blks db idx bytes = inl db'.
Proof.
  revert db idx. induction bytes as [|byte rest IH]; intros db idx Hok Hidx Hend; simpl.
  - by eexists.
  - simpl in Hend.
    destruct (byte_at_is_Some blks db idx Hok ltac:(lia))
      as (blk & d & b0 & Hblk & _ & Hd & Hb & _).
    apply lookup_lt_Some in Hb. pose proof BLOCK_SIZE_pos as Hpos.
    pose proof (Z.mod_pos_bound idx BLOCK_SIZE Hpos).
    assert (Hlt : (idx `mod` BLOCK_SIZE <? Z.of_nat (length (data d))) = true)
      by (apply Z.ltb_lt; lia).
    rewrite Hblk, Hd, Hlt.
    apply IH; [|lia..].
    intros x Hx. specialize (Hok x Hx).
    pose proof (copy_in_ok blks db idx [byte] x Hok) as H1. simpl in H1.
    by rewrite Hblk, Hd, Hlt in H1.
Qed.

(** X14. Apart from paths without a separator, no call raises: after any
    sequence of calls on a new file system, with a non-negative offset. *)
Lemma calls_return (total_blocks : Z) (cs : list call) (path : string)
    (bytes : list Byte.byte) (size_ offset : Z) :
  0 ≤ offset →
  let st := after total_blocks cs in
  (has_slash path = true →
   ¬ raises (mkdir st path) ∧ ¬ raises (create_file st path) ∧
   ¬ raises (fs_delete st path)) ∧
  ¬ raises (write st path bytes offset) ∧
  ¬ raises (read st path size_ offset) ∧
  ¬ raises (ls st path).
Proof.
  intros Hoff st. pose proof (after_inv total_blocks cs) as Hinv. fold st in Hinv.
  split_and!.
  - intros Hs.
    assert (Hsome : rsplit_slash path ≠ None).
    { intros H%rsplit_slash_None. congruence. }
    split_and!.
    + destruct (create_node_cases Directory_init st path)
        as [[? _]|[[_ E]|(?&?&?&?&?&?&?&_&_&_&E)]]; [congruence|..];
        unfold mkdir; rewrite E; by intros [].
    + destruct (create_node_cases File_init st path)
        as [[? _]|[[_ E]|(?&?&?&?&?&?&?&_&_&_&E)]]; [congruence|..];
        unfold create_file; rewrite E; by intros [].
    + destruct (fs_delete_cases st path Hinv)
        as [[? _]|[[_ E]|(?&?&?&?&?&?&?&?&?&_&_&_&_&E)]]; [congruence|..]; rewrite E; by intros [].
  - destruct (write_cases st path bytes offset)
      as [[_ ->]|(node & iid & fsize & blks & bm & taken & Hn & _ & _ & Hcases)];
      [by intros []|].
    destruct Hcases as [(_ & _ & ->)|[(_ & db' & _ & ->)|(Hend & e & db' & Hcopy & _)]];
      [by intros []..|].
    apply node_at_Some in Hn as [_ Hobj].
    destruct (copy_in_total (blks ++ taken) (fresh_blocks (data_blocks st) taken)
                offset bytes) as [db'' E]; [|done..|congruence].
    intros x [Hx|Hx]%elem_of_app; apply fresh_blocks_ok; [left|by right].
    by apply (inv_data st Hinv node iid fsize blks).
  - unfold read.
    destruct (node_at st path) as [[r [iid fsize blks|]]|] eqn:Hn; [|by intros []..].
    apply node_at_Some in Hn as [_ Hobj].
    pose proof (inv_capacity _ Hinv _ _ _ _ Hobj) as Hcap.
    destruct (Z.leb_spec fsize offset) as [Hle|Hlt]; [by intros []|].
    destruct (copy_out_total blks (data_blocks st) offset
                (Z.to_nat (Z.min size_ (fsize - offset)))) as [l ->]; [|by intros []].
    intros k Hk.
    destruct (byte_at_is_Some blks (data_blocks st) (offset + Z.of_nat k))
      as (? & ? & byte & _ & _ & _ & _ & ->); [|lia|by eexists].
    intros x Hx. by apply (inv_data _ Hinv r iid fsize blks).
  - unfold ls. destruct (node_at st path) as [[r [|]]|]; by intros [].
Qed.

(** ** The scenarios of the specification *)

Example split_example : split_slash "/a//b/" = [""; "a"; ""; "b"; ""]%string.
Proof. reflexivity. Qed.

Example path_parts_example : path_parts "/a//b/" = ["a"; "b"]%string.
Proof. reflexivity. Qed.

Example rsplit_example : rsplit_slash "/a/b.txt" = Some ("/a", "b.txt")%string.
Proof. reflexivity. Qed.

Example rsplit_root_example : rsplit_slash "/" = Some ("", "")%string.
Proof. reflexivity. Qed.

(** [mkdir("/")] succeeds: it adds the entry [""] to the root. *)
Example mkdir_root_example :
  mkdir (after 1024 []) "/" = Ret true (after 1024 [Mkdir "/"]) ∧
  entry (objs (after 1024 [Mkdir "/"])) 1 "" 2.
Proof.
  split; [vm_compute; reflexivity|].
  exists 1, 0, [], {[EmptyString := 2]}. split; vm_compute; reflexivity.
Qed.

Example scenario_hello :
  read (after 1024 [Mkdir "/a"; CreateFile "/a/b.txt"; Write "/a/b.txt" hello 0])
       "/a/b.txt" 5 0
  = Ret (Some hello)
        (after 1024 [Mkdir "/a"; CreateFile "/a/b.txt"; Write "/a/b.txt" hello 0]).
Proof. vm_compute. reflexivity. Qed.

Example scenario_helloworld :
  read (after 1024 [Mkdir "/a"; CreateFile "/a/b.txt"; Write "/a/b.txt" hello 0;
                    Write "/a/b.txt" world 5])
       "/a/b.txt" 10 0
  = Ret (Some (hello ++ world))
        (after 1024 [Mkdir "/a"; CreateFile "/a/b.txt"; Write "/a/b.txt" hello 0;
                     Write "/a/b.txt" world 5]).
Proof. vm_compute. reflexivity. Qed.

Example scenario_deleted :
  read (after 1024 [Mkdir "/a"; CreateFile "/a/b.txt"; Delete "/a/b.txt"]) "/a/b.txt" 1 0
  = Ret None (after 1024 [Mkdir "/a"; CreateFile "/a/b.txt"; Delete "/a/b.txt"]).
Proof. vm_compute. reflexivity. Qed.

(** ** Instances *)

Lemma write_read_fresh_witness :
  0 ≤ 0 ∧
  create_file (after 1024 [Mkdir "/a"]) "/a/b.txt"
    = Ret true (after 1024 [Mkdir "/a"; CreateFile "/a/b.txt"]) ∧
  write (after 1024 [Mkdir "/a"; CreateFile "/a/b.txt"]) "/a/b.txt" hello 0
    = Ret true (after 1024 [Mkdir "/a"; CreateFile "/a/b.txt"; Write "/a/b.txt" hello 0]) ∧
  node_at (after 1024 [Mkdir "/a"; CreateFile "/a/b.txt"]) "/a/b.txt"
    = Some (next_inode_id (after 1024 [Mkdir "/a"]),
            File (next_inode_id (after 1024 [Mkdir "/a"])) 0 []) ∧
  read (after 1024 [Mkdir "/a"; CreateFile "/a/b.txt"; Write "/a/b.txt" hello 0])
       "/a/b.txt" (Z.of_nat (length hello)) 0
    = Ret (Some hello)
          (after 1024 [Mkdir "/a"; CreateFile "/a/b.txt"; Write "/a/b.txt" hello 0]).
Proof.
  assert (H0 : 0 ≤ 0) by lia.
  assert (H1 : create_file (after 1024 [Mkdir "/a"]) "/a/b.txt"
               = Ret true (after 1024 [Mkdir "/a"; CreateFile "/a/b.txt"]))
    by (vm_compute; reflexivity).
  assert (H2 : write (after 1024 [Mkdir "/a"; CreateFile "/a/b.txt"]) "/a/b.txt" hello 0
               = Ret true (after 1024 [Mkdir "/a"; CreateFile "/a/b.txt";
                                       Write "/a/b.txt" hello 0]))
    by (vm_compute; reflexivity).
  split; [exact H0|]. split; [exact H1|]. split; [exact H2|].
  exact (write_read_fresh 1024 [Mkdir "/a"] "/a/b.txt" hello 0 _ _ H0 H1 H2).
Defined.

Lemma read_spec_witness :
  0 ≤ 10 ∧ 0 ≤ 0 ∧
  let st := after 1024 [Mkdir "/a"; CreateFile "/a/b.txt"; Write "/a/b.txt" hello 0] in
  match node_at st "/a/b.txt" with
  | Some (_, File _ fsize _) =>
      ∃ bytes,
        read st "/a/b.txt" 10 0 = Ret (Some bytes) st ∧
        (fsize ≤ 0 → bytes = []) ∧
        (0 < fsize → Z.of_nat (length bytes) = Z.min 10 (fsize - 0))
  | _ => read st "/a/b.txt" 10 0 = Ret None st
  end.
Proof.
  assert (H1 : 0 ≤ 10) by lia. assert (H2 : 0 ≤ 0) by lia.
  split_and!; [exact H1|exact H2|].
  exact (read_spec 1024 [Mkdir "/a"; CreateFile "/a/b.txt"; Write "/a/b.txt" hello 0]
           "/a/b.txt" 10 0 H1 H2).
Defined.

(** The scenario with [total_blocks=1]: 4097 bytes do not fit. *)
Lemma write_exhausted_witness :
  node_at (after 1 [CreateFile "/f"]) "/f" = Some (2, File 2 0 []) ∧
  Z.of_nat (length (@nil Z) + length (free_blocks (block_mgr (after 1 [CreateFile "/f"]))))
    * BLOCK_SIZE < 0 + Z.of_nat (length (replicate 4097 Byte.x00)) ∧
  ∃ st',
    write (after 1 [CreateFile "/f"]) "/f" (replicate 4097 Byte.x00) 0 = Ret false st' ∧
    free_blocks (block_mgr st') = [] ∧
    node_at st' "/f"
      = Some (2, File 2 0 ([] ++ reverse (free_blocks (block_mgr (after 1 [CreateFile "/f"]))))) ∧
    size (File 2 0 ([] ++ reverse (free_blocks (block_mgr (after 1 [CreateFile "/f"]))))) = 0.
Proof.
  assert (H1 : node_at (after 1 [CreateFile "/f"]) "/f" = Some (2, File 2 0 []))
    by (vm_compute; reflexivity).
  assert (H2 : Z.of_nat (length (@nil Z)
                         + length (free_blocks (block_mgr (after 1 [CreateFile "/f"]))))
               * BLOCK_SIZE < 0 + Z.of_nat (length (replicate 4097 Byte.x00)))
    by (vm_compute; reflexivity).
  split_and!; [exact H1|exact H2|].
  exact (write_exhausted (after 1 [CreateFile "/f"]) "/f" (replicate 4097 Byte.x00) 0
           2 2 0 [] H1 H2).
Defined.

Lemma write_size_witness :
  node_at (after 1024 [Mkdir "/a"; CreateFile "/a/b.txt"; Write "/a/b.txt" hello 0])
          "/a/b.txt" = Some (3, File 3 5 [1023]) ∧
  write (after 1024 [Mkdir "/a"; CreateFile "/a/b.txt"; Write "/a/b.txt" hello 0])
        "/a/b.txt" world 5
    = Ret true (after 1024 [Mkdir "/a"; CreateFile "/a/b.txt"; Write "/a/b.txt" hello 0;
                            Write "/a/b.txt" world 5]) ∧
  ∃ n,
    node_at (after 1024 [Mkdir "/a"; CreateFile "/a/b.txt"; Write "/a/b.txt" hello 0;
                         Write "/a/b.txt" world 5]) "/a/b.txt" = Some (3, n) ∧
    is_dir n = false ∧ inode_id n = 3 ∧
    size n = Z.max 5 (5 + Z.of_nat (length world)).
Proof.
  assert (H1 : node_at (after 1024 [Mkdir "/a"; CreateFile "/a/b.txt";
                                    Write "/a/b.txt" hello 0])
                       "/a/b.txt" = Some (3, File 3 5 [1023]))
    by (vm_compute; reflexivity).
  assert (H2 : write (after 1024 [Mkdir "/a"; CreateFile "/a/b.txt";
                                  Write "/a/b.txt" hello 0]) "/a/b.txt" world 5
               = Ret true (after 1024 [Mkdir "/a"; CreateFile "/a/b.txt";
                                       Write "/a/b.txt" hello 0; Write "/a/b.txt" world 5]))
    by (vm_compute; reflexivity).
  split_and!; [exact H1|exact H2|].
  exact (write_size _ _ "/a/b.txt" world 5 3 3 5 [1023] H1 H2).
Defined.

Lemma create_unique_witness :
  mkdir ∈ creators ∧ create_file ∈ creators ∧
  target (after 1024 []) "/a" = target (after 1024 []) "//a" ∧
  mkdir (after 1024 []) "/a" = Ret true (after 1024 [Mkdir "/a"]) ∧
  create_file (after 1024 [Mkdir "/a"]) "//a" = Ret false (after 1024 [Mkdir "/a"]).
Proof.
  assert (H1 : mkdir ∈ creators) by (apply elem_of_cons; by left).
  assert (H2 : create_file ∈ creators)
    by (apply elem_of_cons; right; apply elem_of_cons; by left).
  assert (H3 : target (after 1024 []) "/a" = target (after 1024 []) "//a")
    by (vm_compute; reflexivity).
  assert (H4 : mkdir (after 1024 []) "/a" = Ret true (after 1024 [Mkdir "/a"]))
    by (vm_compute; reflexivity).
  split_and!; [exact H1|exact H2|exact H3|exact H4|].
  exact (proj1 (create_unique 1024 [] mkdir create_file "/a" "//a" H1 H2) _ H3 H4).
Defined.

Lemma capacity_invariant_witness :
  objs (after 1024 [Mkdir "/a"; CreateFile "/a/b.txt"; Write "/a/b.txt" hello 0]) !! 3
    = Some (File 3 5 [1023]) ∧
  5 ≤ Z.of_nat (length [1023]) * BLOCK_SIZE ∧
  ∀ idx, 0 ≤ idx < 5 →
    ∃ blk d byte,
      py_getitem [1023] (idx `div` BLOCK_SIZE) = Some blk ∧
      (Z.to_nat (idx `div` BLOCK_SIZE) < length [1023])%nat ∧
      data_blocks (after 1024 [Mkdir "/a"; CreateFile "/a/b.txt"; Write "/a/b.txt" hello 0])
        !! blk = Some d ∧
      data d !! Z.to_nat (idx `mod` BLOCK_SIZE) = Some byte.
Proof.
  assert (H1 : objs (after 1024 [Mkdir "/a"; CreateFile "/a/b.txt";
                                 Write "/a/b.txt" hello 0]) !! 3
               = Some (File 3 5 [1023])) by (vm_compute; reflexivity).
  split; [exact H1|].
  exact (capacity_invariant 1024 _ 3 3 5 [1023] H1).
Defined.

(** * Further properties of the code *)

(** ** What the loops of [write] leave alone *)

Lemma py_getitem_elem {A} (l : list A) (i : Z) (x : A) :
  py_getitem l i = Some x → x ∈ l.
Proof.
  unfold py_getitem. destruct (0 <=? i); [by apply list_elem_of_lookup_2|].
  destruct (- i <=? Z.of_nat (length l)); [by apply list_elem_of_lookup_2|done].
Qed.

Lemma fresh_blocks_frame (db : gmap Z DataBlock) (taken : list Z) (x : Z) :
  x ∉ taken → fresh_blocks db taken !! x = db !! x.
Proof.
  revert db. induction taken as [|t taken IH]; intros db Hx; simpl; [done|].
  apply not_elem_of_cons in Hx as [Hne Hx]. rewrite (IH _ Hx).
  by rewrite lookup_insert_ne.
Qed.

Lemma fresh_blocks_taken (db : gmap Z DataBlock) (taken : list Z) (x : Z) :
  x ∈ taken → fresh_blocks db taken !! x = Some (DataBlock_init x).
Proof.
  revert db. induction taken as [|t taken IH]; intros db Hx; simpl.
  - by apply elem_of_nil in Hx.
  - destruct (decide (x ∈ taken)) as [Hin|Hnin]; [by apply IH|].
    apply elem_of_cons in Hx as [->|?]; [|done].
    by rewrite (fresh_blocks_frame _ _ _ Hnin), lookup_insert_eq.
Qed.

Lemma copy_in_frame (blks : list Z) (db : gmap Z DataBlock) (idx : Z)
    (bytes : list Byte.byte) (x : Z) :
  x ∉ blks →
  match copy_in blks db idx bytes with inl db' => db' | inr (_, db') => db' end !! x
  = db !! x.
Proof.
  intros Hx. revert db idx. induction bytes as [|byte rest IH]; intros db idx; simpl; [done|].
  destruct (py_getitem blks (idx `div` BLOCK_SIZE)) as [blk|] eqn:Hblk; [|done].
  destruct (db !! blk) as [d|] eqn:Hd; [|done].
  destruct (idx `mod` BLOCK_SIZE <? Z.of_nat (length (data d))); [|done].
  rewrite IH. apply lookup_insert_ne. intros ->.
  by apply Hx, (py_getitem_elem _ (idx `div` BLOCK_SIZE)).
Qed.

Lemma copy_out_ext (blks : list Z) (db db' : gmap Z DataBlock) (idx : Z) (n : nat) :
  (∀ x, x ∈ blks → db' !! x = db !! x) →
  copy_out blks db' idx n = copy_out blks db idx n.
Proof.
  intros Hsame. revert idx. induction n as [|n IH]; intros idx; simpl; [done|].
  destruct (py_getitem blks (idx `div` BLOCK_SIZE)) as [blk|] eqn:Hblk; [|done].
  rewrite (Hsame blk) by by apply (py_getitem_elem _ (idx `div` BLOCK_SIZE)).
  destruct (db !! blk) as [d|]; [|done].
  destruct (data d !! Z.to_nat (idx `mod` BLOCK_SIZE)); [|done].
  by rewrite IH.
Qed.

(** The copy loop changes no position outside [idx, idx + len(data)). *)
Lemma copy_in_keep (blks : list Z) (db db' : gmap Z DataBlock) (idx : Z)
    (bytes : list Byte.byte) :
  NoDup blks → 0 ≤ idx →
  copy_in blks db idx bytes = inl db' →
  ∀ j, 0 ≤ j → j < idx ∨ idx + Z.of_nat (length bytes) ≤ j →
       byte_at blks db' j = byte_at blks db j.
Proof.
  intros Hnd. revert db idx. induction bytes as [|byte rest IH]; intros db idx Hidx; simpl.
  - by intros [= <-].
  - pose proof BLOCK_SIZE_pos as Hpos.
    rewrite py_getitem_nonneg by (apply Z.div_pos; lia).
    destruct (blks !! Z.to_nat (idx `div` BLOCK_SIZE)) as [blk|] eqn:Hblk; [|done].
    destruct (db !! blk) as [d|] eqn:Hd; [|done].
    destruct (Z.ltb_spec (idx `mod` BLOCK_SIZE) (Z.of_nat (length (data d))))
      as [Hoff|]; [|done].
    intros Hcopy j Hj Hout. rewrite (IH _ (idx + 1) ltac:(lia) Hcopy j Hj ltac:(lia)).
    apply byte_at_insert_other; [done|lia..|done|done].
Qed.

(** Two block lists and stores that hold the same bytes at the positions
    read give the same result. *)
Lemma copy_out_agree (blks blks' : list Z) (db db' : gmap Z DataBlock) (idx : Z)
    (n : nat) :
  (∀ k, (k < n)%nat →
        is_Some (byte_at blks db (idx + Z.of_nat k)) ∧
        byte_at blks' db' (idx + Z.of_nat k) = byte_at blks db (idx + Z.of_nat k)) →
  copy_out blks' db' idx n = copy_out blks db idx n.
Proof.
  intros Hall.
  destruct (copy_out_total blks db idx n) as [l Hl]; [intros k Hk; by apply Hall|].
  destruct (copy_out_total blks' db' idx n) as [l' Hl'].
  { intros k Hk. destruct (Hall k Hk) as [Hs ->]. done. }
  rewrite Hl, Hl'. f_equal.
  apply copy_out_spec in Hl as [Hlen Hl]. apply copy_out_spec in Hl' as [Hlen' Hl'].
  apply list_eq. intros k. destruct (decide (k < n)%nat) as [Hk|Hk].
  - rewrite <- Hl, <- Hl' by done. by apply Hall.
  - rewrite !lookup_ge_None_2 by lia. done.
Qed.

(** ** [write] on a file: when it succeeds and what it changes *)

Lemma written_node_at (st : FileSystem) (path : string) (node iid fsize fsize' : Z)
    (blks taken : list Z) (bm : BlockManager) (db : gmap Z DataBlock) :
  node_at st path = Some (node, File iid fsize blks) →
  node_at (written st node iid fsize' blks taken bm db) path
  = Some (node, File iid fsize' (blks ++ taken)).
Proof.
  intros [Htr Hobj]%node_at_Some. apply node_at_Some. unfold _traverse in *. simpl.
  by rewrite (walk_insert_file _ _ _ _ _ _ _ _ _ _ Hobj), lookup_insert_eq.
Qed.

Lemma written_node_at_other (st : FileSystem) (path : string) (node iid fsize fsize' : Z)
    (blks taken : list Z) (bm : BlockManager) (db : gmap Z DataBlock) :
  objs st !! node = Some (File iid fsize blks) →
  _traverse st path ≠ Some node →
  node_at (written st node iid fsize' blks taken bm db) path = node_at st path.
Proof.
  intros Hobj Hne. unfold node_at, _traverse in *. simpl.
  rewrite (walk_insert_file _ _ _ _ _ _ _ _ _ _ Hobj).
  destruct (walk (objs st) (root st) (path_parts path)) as [r|]; [|done].
  rewrite lookup_insert_ne; [done|]. intros ->. done.
Qed.

(** With a non-negative offset and enough blocks the copy loop of
    [write] runs through. *)
Lemma write_copy_total (st : FileSystem) (node iid fsize : Z) (blks taken : list Z)
    (bytes : list Byte.byte) (offset : Z) :
  fs_inv st → objs st !! node = Some (File iid fsize blks) → 0 ≤ offset →
  offset + Z.of_nat (length bytes) ≤ Z.of_nat (length (blks ++ taken)) * BLOCK_SIZE →
  ∃ db', copy_in (blks ++ taken) (fresh_blocks (data_blocks st) taken) offset bytes
         = inl db'.
Proof.
  intros Hinv Hobj Hoff Hend. apply copy_in_total; [|done..].
  intros x [Hx|Hx]%elem_of_app; apply fresh_blocks_ok; [left|by right].
  by apply (inv_data st Hinv node iid fsize blks).
Qed.

(** X1. After any sequence of calls on a new file system, [write] to a
    file with a non-negative offset returns [True] exactly when the
    blocks of the file and the free blocks together cover
    [offset + len(data)]; it then takes as few blocks as needed (none
    when the file's blocks suffice), from the end of the free list, and
    appends them to the file's block list. *)
Theorem write_succeeds_iff (total_blocks : Z) (cs : list call) (path : string)
    (bytes : list Byte.byte) (offset : Z) (node iid fsize : Z) (blks : list Z) :
  node_at (after total_blocks cs) path = Some (node, File iid fsize blks) →
  0 ≤ offset →
  ((∃ st', write (after total_blocks cs) path bytes offset = Ret true st') ↔
   offset + Z.of_nat (length bytes)
   ≤ Z.of_nat (length blks + length (free_blocks (block_mgr (after total_blocks cs))))
     * BLOCK_SIZE) ∧
  (∀ st', write (after total_blocks cs) path bytes offset = Ret true st' →
     ∃ taken,
       free_blocks (block_mgr (after total_blocks cs))
         = free_blocks (block_mgr st') ++ reverse taken ∧
       node_at st' path
         = Some (node, File iid (Z.max fsize (offset + Z.of_nat (length bytes)))
                            (blks ++ taken)) ∧
       (offset + Z.of_nat (length bytes) ≤ Z.of_nat (length blks) * BLOCK_SIZE →
        taken = []) ∧
       (taken ≠ [] →
        (Z.of_nat (length (blks ++ taken)) - 1) * BLOCK_SIZE
        < offset + Z.of_nat (length bytes))).
Proof.
  intros Hn Hoff. pose proof (after_inv total_blocks cs) as Hinv.
  pose proof BLOCK_SIZE_pos as Hpos.
  destruct (write_cases (after total_blocks cs) path bytes offset)
    as [[Hnot _]|(node' & iid' & fsize' & blks' & bm & taken & Hn' & Hfree & Hmin & Hcases)].
  { by destruct (Hnot node iid fsize blks). }
  rewrite Hn in Hn'. injection Hn' as <- <- <- <-.
  assert (Hlen : length (free_blocks (block_mgr (after total_blocks cs)))
                 = (length (free_blocks bm) + length taken)%nat).
  { by rewrite Hfree, length_app, length_reverse. }
  assert (Hnone : offset + Z.of_nat (length bytes) ≤ Z.of_nat (length blks) * BLOCK_SIZE →
                  taken = []).
  { intros Hfit. destruct taken as [|t taken]; [done|].
    specialize (Hmin ltac:(done)). rewrite length_app in Hmin. simpl in Hmin. nia. }
  destruct Hcases as [(Hempty & Hshort & E)|[(Hend & db' & Hcopy & E)|(Hend & e & db' & Hcopy & E)]].
  - split.
    + split; [intros [st' H]; congruence|].
      intros Hfit. rewrite Hlen, Hempty in Hfit. rewrite length_app in Hshort.
      simpl in Hfit. nia.
    + intros st' H. congruence.
  - split.
    + split; [intros _|intros _; by eexists].
      rewrite length_app in Hend. nia.
    + intros st' H. rewrite E in H. injection H as <-. exists taken.
      split_and!; [done| |done..].
      by apply (written_node_at _ _ _ _ fsize).
  - apply node_at_Some in Hn as [_ Hobj].
    destruct (write_copy_total _ _ _ _ _ taken bytes offset Hinv Hobj Hoff Hend)
      as [db'' E']. congruence.
Qed.

Lemma write_succeeds_iff_witness :
  node_at (after 1024 [Mkdir "/a"; CreateFile "/a/b.txt"]) "/a/b.txt"
    = Some (3, File 3 0 []) ∧
  0 ≤ 0 ∧
  ((∃ st', write (after 1024 [Mkdir "/a"; CreateFile "/a/b.txt"]) "/a/b.txt" hello 0
           = Ret true st') ↔
   0 + Z.of_nat (length hello)
   ≤ Z.of_nat (length (@nil Z)
               + length (free_blocks
                           (block_mgr (after 1024 [Mkdir "/a"; CreateFile "/a/b.txt"]))))
     * BLOCK_SIZE).
Proof.
  assert (H1 : node_at (after 1024 [Mkdir "/a"; CreateFile "/a/b.txt"]) "/a/b.txt"
               = Some (3, File 3 0 [])) by (vm_compute; reflexivity).
  assert (H2 : 0 ≤ 0) by lia.
  split; [exact H1|]. split; [exact H2|].
  exact (proj1 (write_succeeds_iff 1024 [Mkdir "/a"; CreateFile "/a/b.txt"] "/a/b.txt"
                  hello 0 3 3 0 [] H1 H2)).
Defined.

(** A write to the file object [node] leaves what another path of the
    tree resolves to, and what [read] returns there, as it was. *)
Lemma read_written_other (st : FileSystem) (node iid fsize fsize' : Z)
    (blks taken : list Z) (bm : BlockManager) (db : gmap Z DataBlock)
    (path : string) (size_ offset : Z) :
  fs_inv st → objs st !! node = Some (File iid fsize blks) → linked (objs st) node →
  (∀ x, x ∈ taken → x ∈ free_blocks (block_mgr st)) →
  (∀ x, x ∉ blks ++ taken → db !! x = data_blocks st !! x) →
  _traverse st path ≠ Some node →
  node_at (written st node iid fsize' blks taken bm db) path = node_at st path ∧
  result_of (read (written st node iid fsize' blks taken bm db) path size_ offset)
  = result_of (read st path size_ offset).
Proof.
  intros Hinv Hobj Hl Htaken Hframe Hne.
  pose proof (written_node_at_other st path node iid fsize fsize' blks taken bm db
                Hobj Hne) as Hsame.
  split; [done|]. unfold read. rewrite Hsame.
  destruct (node_at st path) as [[r [i s b|]]|] eqn:Hn; [|done..].
  destruct (s <=? offset); [done|]. simpl.
  pose proof (node_at_linked _ _ _ _ _ _ Hinv Hn) as Hlr.
  apply node_at_Some in Hn as [Htr Hr].
  assert (Hrn : r ≠ node) by (intros ->; done).
  assert (Hor : owned st r b) by (split; [by exists i, s|done]).
  assert (Hon : owned st node blks) by (split; [by exists iid, fsize|done]).
  rewrite (copy_out_ext b (data_blocks st) db).
  { by destruct (copy_out b (data_blocks st) offset _). }
  intros x Hx. apply Hframe. intros [Hx'|Hx']%elem_of_app.
  - by apply (inv_disjoint st Hinv r node b blks Hor Hon Hrn x).
  - destruct (inv_blocks st Hinv r b Hor) as [_ Hfree]. by apply (Hfree x Hx), Htaken.
Qed.

(** X2. After any sequence of calls on a new file system, a [write] to
    one path, whatever it returns or raises, changes neither the inode
    another path resolves to nor what [read] returns there, when the two
    paths do not resolve to the same inode. *)
Theorem write_isolated (total_blocks : Z) (cs : list call) (path_a path_b : string)
    (bytes : list Byte.byte) (offset size_ offset_b : Z) :
  _traverse (after total_blocks cs) path_a ≠ _traverse (after total_blocks cs) path_b →
  node_at (state_of (after total_blocks cs)
             (write (after total_blocks cs) path_a bytes offset)) path_b
  = node_at (after total_blocks cs) path_b ∧
  result_of (read (state_of (after total_blocks cs)
                     (write (after total_blocks cs) path_a bytes offset))
                  path_b size_ offset_b)
  = result_of (read (after total_blocks cs) path_b size_ offset_b).
Proof.
  intros Hne. pose proof (after_inv total_blocks cs) as Hinv.
  destruct (write_cases (after total_blocks cs) path_a bytes offset)
    as [[_ ->]|(node & iid & fsize & blks & bm & taken & Hn & Hfree & _ & Hcases)];
    [done|].
  pose proof (node_at_linked _ _ _ _ _ _ Hinv Hn) as Hl.
  apply node_at_Some in Hn as [Htr Hobj].
  assert (Htaken : ∀ x, x ∈ taken → x ∈ free_blocks (block_mgr (after total_blocks cs))).
  { intros x Hx. rewrite Hfree, elem_of_app, elem_of_reverse. by right. }
  assert (Hb : _traverse (after total_blocks cs) path_b ≠ Some node) by congruence.
  assert (Hfresh : ∀ x, x ∉ blks ++ taken →
            fresh_blocks (data_blocks (after total_blocks cs)) taken !! x
            = data_blocks (after total_blocks cs) !! x).
  { intros x Hx. apply fresh_blocks_frame. intros Hx'. apply Hx, elem_of_app. by right. }
  assert (Hcopy : ∀ x, x ∉ blks ++ taken →
            match copy_in (blks ++ taken)
                    (fresh_blocks (data_blocks (after total_blocks cs)) taken) offset bytes
            with inl db' => db' | inr (_, db') => db' end !! x
            = data_blocks (after total_blocks cs) !! x).
  { intros x Hx. by rewrite copy_in_frame, Hfresh. }
  destruct Hcases as [(_ & _ & ->)|[(_ & db' & E & ->)|(_ & e & db' & E & ->)]]; simpl;
    apply (read_written_other _ _ _ fsize); try done; by rewrite E in Hcopy.
Qed.

Lemma write_isolated_witness :
  _traverse (after 1024 [CreateFile "/f"; CreateFile "/g"; Write "/g" hello 0]) "/f"
  ≠ _traverse (after 1024 [CreateFile "/f"; CreateFile "/g"; Write "/g" hello 0]) "/g" ∧
  result_of (read (state_of (after 1024 [CreateFile "/f"; CreateFile "/g"; Write "/g" hello 0])
                     (write (after 1024 [CreateFile "/f"; CreateFile "/g"; Write "/g" hello 0])
                            "/f" world 0))
                  "/g" 5 0)
  = result_of (read (after 1024 [CreateFile "/f"; CreateFile "/g"; Write "/g" hello 0])
                    "/g" 5 0).
Proof.
  assert (H : _traverse (after 1024 [CreateFile "/f"; CreateFile "/g"; Write "/g" hello 0]) "/f"
              ≠ _traverse (after 1024 [CreateFile "/f"; CreateFile "/g"; Write "/g" hello 0])
                          "/g") by (vm_compute; discriminate).
  split; [exact H|].
  exact (proj2 (write_isolated 1024 [CreateFile "/f"; CreateFile "/g"; Write "/g" hello 0]
                  "/f" "/g" world 0 5 0 H)).
Defined.

(** Appending fresh blocks changes no byte within the old block list. *)
Lemma byte_at_grown (blks taken : list Z) (db : gmap Z DataBlock) (j : Z) :
  (∀ x, x ∈ blks → x ∉ taken) →
  0 ≤ j < Z.of_nat (length blks) * BLOCK_SIZE →
  byte_at (blks ++ taken) (fresh_blocks db taken) j = byte_at blks db j.
Proof.
  intros Hdisj Hj. pose proof BLOCK_SIZE_pos as Hpos.
  assert (Hdiv : 0 ≤ j `div` BLOCK_SIZE < Z.of_nat (length blks)).
  { split; [apply Z.div_pos; lia|]. apply Z.div_lt_upper_bound; lia. }
  unfold byte_at. rewrite !py_getitem_nonneg by lia.
  rewrite lookup_app_l by lia.
  destruct (blks !! Z.to_nat (j `div` BLOCK_SIZE)) as [x|] eqn:Hx; [|done].
  rewrite fresh_blocks_frame; [done|].
  by apply Hdisj, (list_elem_of_lookup_2 _ _ _ Hx).
Qed.

(** Every position of freshly taken blocks holds a zero byte. *)
Lemma byte_at_fresh (taken : list Z) (db : gmap Z DataBlock) (j : Z) :
  0 ≤ j < Z.of_nat (length taken) * BLOCK_SIZE →
  byte_at taken (fresh_blocks db taken) j = Some Byte.x00.
Proof.
  intros Hj. pose proof BLOCK_SIZE_pos as Hpos.
  assert (Hdiv : 0 ≤ j `div` BLOCK_SIZE < Z.of_nat (length taken)).
  { split; [apply Z.div_pos; lia|]. apply Z.div_lt_upper_bound; lia. }
  pose proof (Z.mod_pos_bound j BLOCK_SIZE Hpos).
  unfold byte_at. rewrite py_getitem_nonneg by lia.
  destruct (lookup_lt_is_Some_2 taken (Z.to_nat (j `div` BLOCK_SIZE)) ltac:(lia))
    as [x Hx].
  rewrite Hx, (fresh_blocks_taken db taken x) by by eapply list_elem_of_lookup_2.
  simpl. apply lookup_replicate_2. lia.
Qed.

(** X3. After any sequence of calls on a new file system, a successful
    [write] with a non-negative offset changes only the bytes it writes:
    [read] of a range inside the old size of the file that does not
    overlap [offset, offset + len(data)) returns what it returned
    before. *)
Theorem write_keeps_rest (total_blocks : Z) (cs : list call) (path : string)
    (bytes : list Byte.byte) (offset : Z) (st' : FileSystem)
    (node iid fsize : Z) (blks : list Z) (a len_ : Z) :
  node_at (after total_blocks cs) path = Some (node, File iid fsize blks) →
  0 ≤ offset →
  write (after total_blocks cs) path bytes offset = Ret true st' →
  0 ≤ a → 0 ≤ len_ → a + len_ ≤ fsize →
  a + len_ ≤ offset ∨ offset + Z.of_nat (length bytes) ≤ a →
  result_of (read st' path len_ a) = result_of (read (after total_blocks cs) path len_ a).
Proof.
  intros Hn Hoff Hw Ha Hlen Hin Hout.
  pose proof (after_inv total_blocks cs) as Hinv.
  pose proof (write_inv _ path bytes offset Hinv) as Hinv'. rewrite Hw in Hinv'.
  simpl in Hinv'.
  destruct (write_cases (after total_blocks cs) path bytes offset)
    as [[_ E]|(node' & iid' & fsize' & blks' & bm & taken & Hn' & Hfree & _ & Hcases)];
    [congruence|].
  rewrite Hn in Hn'. injection Hn' as <- <- <- <-.
  destruct Hcases as [(_ & _ & E)|[(Hend & db' & Hcopy & E)|(_ & e & db' & _ & E)]];
    [congruence| |congruence].
  rewrite E in Hw. injection Hw as <-.
  pose proof (written_node_at _ path node iid fsize
                (Z.max fsize (offset + Z.of_nat (length bytes))) blks taken bm db' Hn)
    as Hn'.
  pose proof (node_at_linked _ _ _ _ _ _ Hinv' Hn') as Hl'.
  pose proof (node_at_linked _ _ _ _ _ _ Hinv Hn) as Hl.
  unfold read. rewrite Hn, Hn'.
  apply node_at_Some in Hn as [_ Hobj]. apply node_at_Some in Hn' as [_ Hobj'].
  pose proof (inv_capacity _ Hinv _ _ _ _ Hobj) as Hcap.
  destruct (Z.leb_spec fsize a) as [Hle|Hlt].
  { assert (len_ = 0) as -> by lia.
    destruct (Z.max fsize (offset + Z.of_nat (length bytes)) <=? a); [done|].
    by replace (Z.min 0 _) with 0 by lia. }
  destruct (Z.leb_spec (Z.max fsize (offset + Z.of_nat (length bytes))) a); [lia|].
  replace (Z.min len_ (Z.max fsize (offset + Z.of_nat (length bytes)) - a))
    with len_ by lia.
  replace (Z.min len_ (fsize - a)) with len_ by lia.
  assert (Hnd : NoDup (blks ++ taken)).
  { apply (inv_blocks _ Hinv' node). split; [by do 2 eexists|done]. }
  assert (Hdisj : ∀ x, x ∈ blks → x ∉ taken).
  { pose proof (proj1 (NoDup_app _ _) Hnd) as (_ & Hd & _). done. }
  rewrite (copy_out_agree blks (blks ++ taken) (data_blocks (after total_blocks cs)) db').
  { by destruct (copy_out blks _ a _). }
  intros k Hk.
  assert (Hj : 0 ≤ a + Z.of_nat k < Z.of_nat (length blks) * BLOCK_SIZE) by lia.
  split.
  - destruct (byte_at_is_Some blks (data_blocks (after total_blocks cs)) (a + Z.of_nat k))
      as (? & ? & byte & _ & _ & _ & _ & ->); [|done|by eexists].
    intros x Hx. by apply (inv_data _ Hinv node iid fsize blks).
  - rewrite (copy_in_keep _ _ _ _ _ Hnd Hoff Hcopy) by lia.
    by apply byte_at_grown.
Qed.

Lemma write_keeps_rest_witness :
  node_at (after 1024 [CreateFile "/f"; Write "/f" (hello ++ world) 0]) "/f"
    = Some (2, File 2 10 [1023]) ∧
  0 ≤ 5 ∧
  write (after 1024 [CreateFile "/f"; Write "/f" (hello ++ world) 0]) "/f" hello 5
    = Ret true (after 1024 [CreateFile "/f"; Write "/f" (hello ++ world) 0;
                            Write "/f" hello 5]) ∧
  0 ≤ 0 ∧ 0 ≤ 5 ∧ 0 + 5 ≤ 10 ∧
  (0 + 5 ≤ 5 ∨ 5 + Z.of_nat (length hello) ≤ 0) ∧
  result_of (read (after 1024 [CreateFile "/f"; Write "/f" (hello ++ world) 0;
                               Write "/f" hello 5]) "/f" 5 0)
  = result_of (read (after 1024 [CreateFile "/f"; Write "/f" (hello ++ world) 0]) "/f" 5 0).
Proof.
  assert (H1 : node_at (after 1024 [CreateFile "/f"; Write "/f" (hello ++ world) 0]) "/f"
               = Some (2, File 2 10 [1023])) by (vm_compute; reflexivity).
  assert (H2 : 0 ≤ 5) by lia.
  assert (H3 : write (after 1024 [CreateFile "/f"; Write "/f" (hello ++ world) 0]) "/f"
                     hello 5
               = Ret true (after 1024 [CreateFile "/f"; Write "/f" (hello ++ world) 0;
                                       Write "/f" hello 5])) by (vm_compute; reflexivity).
  assert (H4 : 0 ≤ 0) by lia.
  assert (H5 : 0 + 5 ≤ 10) by lia.
  assert (H6 : 0 + 5 ≤ 5 ∨ 5 + Z.of_nat (length hello) ≤ 0) by (left; lia).
  split; [exact H1|]. split; [exact H2|]. split; [exact H3|]. split; [exact H4|].
  split; [exact H2|]. split; [exact H5|]. split; [exact H6|].
  exact (write_keeps_rest 1024 [CreateFile "/f"; Write "/f" (hello ++ world) 0] "/f"
           hello 5 _ 2 2 10 [1023] 0 5 H1 H2 H3 H4 H2 H5 H6).
Defined.

(** The file a successful [create_file] made, when [write] then accepts
    the path: it is the new inode, empty and without blocks. *)
Lemma create_file_then_write (st st1 st2 : FileSystem) (path : string)
    (bytes : list Byte.byte) (offset : Z) :
  fs_inv st →
  create_file st path = Ret true st1 →
  write st1 path bytes offset = Ret true st2 →
  node_at st1 path = Some (next_inode_id st, File (next_inode_id st) 0 []).
Proof.
  intros Hinv Hc Hw. unfold create_file in Hc.
  destruct (create_node_cases File_init st path)
    as [[_ E]|[[_ E]|(pp & name & par & pid & ps & pb & es & Hsplit & Hn & Hname & E)]];
    [congruence..|].
  rewrite E in Hc. injection Hc as <-.
  pose proof (created_traverse File_init _ path pp name par pid ps pb es Hinv
                ltac:(by left) Hsplit Hn Hname) as Htr.
  apply node_at_Some in Hn as [_ Hpar].
  pose proof (created_parent_old _ _ _ _ _ _ Hinv Hpar) as Hold.
  destruct (decide (name = EmptyString)) as [->|Hne].
  - exfalso. unfold write, node_at in Hw. rewrite Htr in Hw. simpl in Hw.
    rewrite lookup_insert_eq in Hw. done.
  - apply node_at_Some. split; [done|]. simpl.
    rewrite lookup_insert_ne by done. by rewrite lookup_insert_eq.
Qed.

(** X4. After any sequence of calls on a new file system: when
    [create_file(path)] succeeds and then [write(path, d, o)] with
    [o >= 0] succeeds, the [o] bytes before the data read as zeros. *)
Theorem sparse_write_zeros (total_blocks : Z) (cs : list call) (path : string)
    (bytes : list Byte.byte) (offset : Z) (st1 st2 : FileSystem) :
  0 ≤ offset →
  create_file (after total_blocks cs) path = Ret true st1 →
  write st1 path bytes offset = Ret true st2 →
  read st2 path offset 0 = Ret (Some (replicate (Z.to_nat offset) Byte.x00)) st2.
Proof.
  intros Hoff Hc Hw. pose proof (after_inv total_blocks cs) as Hinv0.
  pose proof (create_file_then_write _ _ _ _ _ _ Hinv0 Hc Hw) as Hn.
  pose proof (create_node_inv File_init (after total_blocks cs) path
                ltac:(by left) Hinv0) as Hinv.
  unfold create_file in Hc. rewrite Hc in Hinv. simpl in Hinv.
  pose proof (write_inv _ path bytes offset Hinv) as Hinv'. rewrite Hw in Hinv'.
  simpl in Hinv'.
  destruct (write_cases st1 path bytes offset)
    as [[_ E]|(node' & iid' & fsize' & blks' & bm & taken & Hn' & Hfree & _ & Hcases)];
    [congruence|].
  rewrite Hn in Hn'. injection Hn' as <- <- <- <-.
  destruct Hcases as [(_ & _ & E)|[(Hend & db' & Hcopy & E)|(_ & e & db' & _ & E)]];
    [congruence| |congruence].
  rewrite E in Hw. injection Hw as <-.
  pose proof (written_node_at _ path _ _ 0
                (Z.max 0 (offset + Z.of_nat (length bytes))) [] taken bm db' Hn) as Hn'.
  pose proof (node_at_linked _ _ _ _ _ _ Hinv' Hn') as Hl'.
  unfold read. rewrite Hn'. simpl in *.
  destruct (Z.leb_spec (Z.max 0 (offset + Z.of_nat (length bytes))) 0) as [Hle|Hlt].
  { by replace offset with 0 by lia. }
  replace (Z.min offset _) with offset by lia.
  assert (Hnd : NoDup taken).
  { apply (inv_blocks _ Hinv' (next_inode_id (after total_blocks cs))).
    split; [|done]. apply node_at_Some in Hn' as [_ Hobj']. by do 2 eexists. }
  assert (Hout : copy_out taken db' 0 (Z.to_nat offset)
                 = inr (replicate (Z.to_nat offset) Byte.x00)).
  { apply copy_out_spec. split; [by rewrite length_replicate|].
    intros k Hk. rewrite lookup_replicate_2 by done.
    rewrite (copy_in_keep _ _ _ _ _ Hnd Hoff Hcopy) by lia.
    apply byte_at_fresh. lia. }
  by rewrite Hout.
Qed.

Lemma sparse_write_zeros_witness :
  0 ≤ 3 ∧
  create_file (after 1024 []) "/f" = Ret true (after 1024 [CreateFile "/f"]) ∧
  write (after 1024 [CreateFile "/f"]) "/f" hello 3
    = Ret true (after 1024 [CreateFile "/f"; Write "/f" hello 3]) ∧
  read (after 1024 [CreateFile "/f"; Write "/f" hello 3]) "/f" 3 0
    = Ret (Some (replicate (Z.to_nat 3) Byte.x00))
          (after 1024 [CreateFile "/f"; Write "/f" hello 3]).
Proof.
  assert (H1 : 0 ≤ 3) by lia.
  assert (H2 : create_file (after 1024 []) "/f" = Ret true (after 1024 [CreateFile "/f"]))
    by (vm_compute; reflexivity).
  assert (H3 : write (after 1024 [CreateFile "/f"]) "/f" hello 3
               = Ret true (after 1024 [CreateFile "/f"; Write "/f" hello 3]))
    by (vm_compute; reflexivity).
  split; [exact H1|]. split; [exact H2|]. split; [exact H3|].
  exact (sparse_write_zeros 1024 [] "/f" hello 3 _ _ H1 H2 H3).
Defined.

(** ** [delete] *)

Lemma walk_app (h : gmap Z INode) (cur : Z) (ns1 ns2 : list string) :
  walk h cur (ns1 ++ ns2)
  = match walk h cur ns1 with Some mid => walk h mid ns2 | None => None end.
Proof.
  revert cur. induction ns1 as [|n ns1 IH]; intros cur; simpl; [done|].
  destruct (h !! cur) as [[|i s b es]|]; [done| |done].
  destruct (es !! n); [apply IH|done].
Qed.

(** Along a chain the references grow. *)
Lemma chain_le (st : FileSystem) (cur : Z) (ns : list string) (r : Z) :
  fs_inv st → chain (objs st) cur ns r → cur ≤ r.
Proof.
  intros Hinv. induction 1 as [|cur nm c rest r He _ IH]; [lia|].
  pose proof (inv_order st Hinv _ _ _ He). lia.
Qed.

(** A chain to the directory that loses an entry, or to a node created
    before it, does not use the entry. *)
Lemma chain_to_parent_deleted (st : FileSystem) (p pid ps : Z) (pb : list Z)
    (es : gmap string Z) (name : string) (cur : Z) (ns : list string) (r : Z) :
  fs_inv st → objs st !! p = Some (Directory pid ps pb es) → r ≤ p →
  chain (objs st) cur ns r →
  chain (<[p := Directory pid ps pb (delete name es)]> (objs st)) cur ns r.
Proof.
  intros Hinv Hp Hr Hch.
  induction Hch as [|cur nm c rest r He Hch IH]; [constructor|].
  econstructor; [|by apply IH].
  apply entry_deleted; [done|]. split; [done|]. intros [-> ->].
  pose proof (inv_order st Hinv _ _ _ He).
  pose proof (chain_le st _ _ _ Hinv Hch). lia.
Qed.

(** What [delete] returns, with the reason. *)
Lemma fs_delete_cases_full (st : FileSystem) (path : string) :
  fs_inv st →
  (rsplit_slash path = None ∧ fs_delete st path = Raise ValueError st) ∨
  (∃ parent_path name,
     rsplit_slash path = Some (parent_path, name) ∧
     (∀ parent, _traverse st (or_slash parent_path) = Some parent →
                ∀ c, ¬ entry (objs st) parent name c) ∧
     fs_delete st path = Ret false st) ∨
  (∃ parent_path name parent pid psize pblocks entries child node,
     rsplit_slash path = Some (parent_path, name) ∧
     node_at st (or_slash parent_path)
       = Some (parent, Directory pid psize pblocks entries) ∧
     entries !! name = Some child ∧
     objs st !! child = Some node ∧
     fs_delete st path
       = Ret true (deleted st parent pid psize pblocks entries name node)).
Proof.
  intros Hinv.
  destruct (fs_delete_cases st path Hinv)
    as [H|[[[[pp name] Hsplit] E]|H]]; [by left| |by right; right].
  right. left. exists pp, name. split_and!; [done| |done].
  intros par Htr c (i & s & b & es & Hpar & Hname).
  assert (Hn : node_at st (or_slash pp) = Some (par, Directory i s b es))
    by by apply node_at_Some.
  destruct (inv_closed st Hinv par name c) as [node Hnode]; [by exists i, s, b, es|].
  pose proof (deleted_child_not_parent st par i s b es name c Hinv Hpar Hname).
  pose proof (deleted_registered st par i s b es name c node Hinv Hpar Hname Hnode)
    as [v Hv].
  unfold fs_delete in E. rewrite Hsplit, Hn, Hname in E. simpl in E.
  rewrite lookup_insert_ne in E by done. rewrite Hnode in E.
  destruct (is_dir node); simpl in E; rewrite Hv in E; done.
Qed.

(** X5. After any sequence of calls on a new file system, [delete]
    returns [True] exactly when the path designates an existing entry of
    a directory.  It then removes that entry and no other, takes the
    inode out of the registry, appends the blocks of a file to the free
    list in order, frees nothing for a directory (whatever it contains),
    and leaves the data blocks as they are. *)
Theorem delete_spec (total_blocks : Z) (cs : list call) (path : string) :
  ((∃ st', fs_delete (after total_blocks cs) path = Ret true st') ↔
   ∃ parent name child,
     target (after total_blocks cs) path = Some (parent, name) ∧
     entry (objs (after total_blocks cs)) parent name child) ∧
  (∀ st', fs_delete (after total_blocks cs) path = Ret true st' →
     ∃ parent name child node,
       target (after total_blocks cs) path = Some (parent, name) ∧
       entry (objs (after total_blocks cs)) parent name child ∧
       objs (after total_blocks cs) !! child = Some node ∧
       (∀ d nm c, entry (objs st') d nm c ↔
                  entry (objs (after total_blocks cs)) d nm c ∧ ¬ (d = parent ∧ nm = name)) ∧
       inodes st' = delete child (inodes (after total_blocks cs)) ∧
       free_blocks (block_mgr st')
         = free_blocks (block_mgr (after total_blocks cs))
           ++ (if is_dir node then [] else blocks node) ∧
       data_blocks st' = data_blocks (after total_blocks cs)).
Proof.
  pose proof (after_inv total_blocks cs) as Hinv.
  destruct (fs_delete_cases_full (after total_blocks cs) path Hinv)
    as [[Hsplit E]|[(pp & name & Hsplit & Hnone & E)
                   |(pp & name & par & pid & ps & pb & es & child & node
                     & Hsplit & Hn & Hname & Hchild & E)]].
  - split.
    + split; [intros [st' H]; congruence|].
      intros (par & name & child & (pp & Hs & _)%target_Some & _). congruence.
    + intros st' H. congruence.
  - split.
    + split; [intros [st' H]; congruence|].
      intros (par & nm & child & (pp' & Hs & Htr)%target_Some & He).
      rewrite Hsplit in Hs. injection Hs as <- <-. destruct (Hnone par Htr child He).
    + intros st' H. congruence.
  - apply node_at_Some in Hn as [Htr Hpar].
    assert (Ht : target (after total_blocks cs) path = Some (par, name)).
    { apply target_Some. by exists pp. }
    assert (He : entry (objs (after total_blocks cs)) par name child)
      by by exists pid, ps, pb, es.
    split.
    + split; [intros _; by exists par, name, child|intros _; by eexists].
    + intros st' H. rewrite E in H. injection H as <-.
      exists par, name, child, node. split_and!; [done..| | | |done].
      * intros d nm c. by apply entry_deleted.
      * simpl. by rewrite (inv_id _ Hinv _ _ Hchild).
      * simpl. destruct (is_dir node); [by rewrite app_nil_r|apply foldl_free].
Qed.

(** X6. After any sequence of calls on a new file system: once
    [delete(path)] has succeeded, for a path that does not end with a
    separator, the path resolves to nothing: [read] and [ls] return
    [None] and [write] returns [False], changing nothing. *)
Theorem delete_then_not_found (total_blocks : Z) (cs : list call) (path : string)
    (parent_path name : string) (st' : FileSystem)
    (bytes : list Byte.byte) (size_ offset : Z) :
  rsplit_slash path = Some (parent_path, name) → name ≠ EmptyString →
  fs_delete (after total_blocks cs) path = Ret true st' →
  _traverse st' path = None ∧
  read st' path size_ offset = Ret None st' ∧
  write st' path bytes offset = Ret false st' ∧
  ls st' path = Ret None st'.
Proof.
  intros Hsplit Hne Hd. pose proof (after_inv total_blocks cs) as Hinv.
  destruct (fs_delete_cases_full (after total_blocks cs) path Hinv)
    as [[_ E]|[(? & ? & _ & _ & E)
              |(pp & nm & par & pid & ps & pb & es & child & node
                & Hsplit' & Hn & Hname & Hchild & E)]]; [congruence..|].
  rewrite Hsplit in Hsplit'. injection Hsplit' as <- <-.
  rewrite E in Hd. injection Hd as <-.
  apply node_at_Some in Hn as [Htr Hpar].
  assert (Hnone : _traverse (deleted (after total_blocks cs) par pid ps pb es name node) path
                  = None).
  { unfold _traverse. rewrite (path_parts_rsplit _ _ _ Hsplit).
    destruct (decide (name = EmptyString)); [done|].
    rewrite walk_app. simpl.
    assert (Hw : walk (<[par := Directory pid ps pb (delete name es)]>
                         (objs (after total_blocks cs)))
                      (root (after total_blocks cs)) (path_parts (or_slash parent_path))
                 = Some par).
    { apply walk_chain. apply chain_to_parent_deleted; [done|done|lia|].
      by apply walk_chain. }
    rewrite Hw. simpl. by rewrite lookup_insert_eq, lookup_delete_eq. }
  split; [done|]. unfold read, write, ls, node_at. by rewrite Hnone.
Qed.

Lemma delete_then_not_found_witness :
  rsplit_slash "/a/b.txt" = Some ("/a", "b.txt")%string ∧
  "b.txt"%string ≠ EmptyString ∧
  fs_delete (after 1024 [Mkdir "/a"; CreateFile "/a/b.txt"]) "/a/b.txt"
    = Ret true (after 1024 [Mkdir "/a"; CreateFile "/a/b.txt"; Delete "/a/b.txt"]) ∧
  read (after 1024 [Mkdir "/a"; CreateFile "/a/b.txt"; Delete "/a/b.txt"]) "/a/b.txt" 1 0
    = Ret None (after 1024 [Mkdir "/a"; CreateFile "/a/b.txt"; Delete "/a/b.txt"]).
Proof.
  assert (H1 : rsplit_slash "/a/b.txt" = Some ("/a", "b.txt")%string) by reflexivity.
  assert (H2 : "b.txt"%string ≠ EmptyString) by discriminate.
  assert (H3 : fs_delete (after 1024 [Mkdir "/a"; CreateFile "/a/b.txt"]) "/a/b.txt"
               = Ret true (after 1024 [Mkdir "/a"; CreateFile "/a/b.txt"; Delete "/a/b.txt"]))
    by (vm_compute; reflexivity).
  split; [exact H1|]. split; [exact H2|]. split; [exact H3|].
  exact (proj1 (proj2 (delete_then_not_found 1024 [Mkdir "/a"; CreateFile "/a/b.txt"]
                         "/a/b.txt" "/a" "b.txt" _ [] 1 0 H1 H2 H3))).
Defined.

Lemma delete_spec_witness :
  fs_delete (after 1024 [CreateFile "/f"; Write "/f" hello 0]) "/f"
    = Ret true (after 1024 [CreateFile "/f"; Write "/f" hello 0; Delete "/f"]) ∧
  ∃ parent name child node,
    target (after 1024 [CreateFile "/f"; Write "/f" hello 0]) "/f" = Some (parent, name) ∧
    entry (objs (after 1024 [CreateFile "/f"; Write "/f" hello 0])) parent name child ∧
    objs (after 1024 [CreateFile "/f"; Write "/f" hello 0]) !! child = Some node ∧
    (∀ d nm c,
       entry (objs (after 1024 [CreateFile "/f"; Write "/f" hello 0; Delete "/f"])) d nm c ↔
       entry (objs (after 1024 [CreateFile "/f"; Write "/f" hello 0])) d nm c
       ∧ ¬ (d = parent ∧ nm = name)) ∧
    inodes (after 1024 [CreateFile "/f"; Write "/f" hello 0; Delete "/f"])
      = delete child (inodes (after 1024 [CreateFile "/f"; Write "/f" hello 0])) ∧
    free_blocks (block_mgr (after 1024 [CreateFile "/f"; Write "/f" hello 0; Delete "/f"]))
      = free_blocks (block_mgr (after 1024 [CreateFile "/f"; Write "/f" hello 0]))
        ++ (if is_dir node then [] else blocks node) ∧
    data_blocks (after 1024 [CreateFile "/f"; Write "/f" hello 0; Delete "/f"])
      = data_blocks (after 1024 [CreateFile "/f"; Write "/f" hello 0]).
Proof.
  assert (H : fs_delete (after 1024 [CreateFile "/f"; Write "/f" hello 0]) "/f"
              = Ret true (after 1024 [CreateFile "/f"; Write "/f" hello 0; Delete "/f"]))
    by (vm_compute; reflexivity).
  split; [exact H|].
  exact (proj2 (delete_spec 1024 [CreateFile "/f"; Write "/f" hello 0] "/f") _ H).
Defined.

(** ** [mkdir] and [create_file] *)

Lemma create_node_resolves (new_inode : Z → INode) (st st' : FileSystem)
    (path parent_path name : string) :
  fs_inv st → constructor new_inode →
  rsplit_slash path = Some (parent_path, name) → name ≠ EmptyString →
  create_node new_inode st path = Ret true st' →
  _traverse st path = None ∧
  node_at st' path = Some (next_inode_id st, new_inode (next_inode_id st)) ∧
  is_Some (inodes st' !! next_inode_id st).
Proof.
  intros Hinv Hmk Hsplit Hne Hc.
  destruct (create_node_cases new_inode st path)
    as [[_ E]|[[_ E]|(pp & nm & par & pid & ps & pb & es & Hsplit' & Hn & Hname & E)]];
    [congruence..|].
  rewrite Hsplit in Hsplit'. injection Hsplit' as <- <-.
  rewrite E in Hc. injection Hc as <-.
  pose proof (created_traverse new_inode _ path parent_path name par pid ps pb es Hinv
                Hmk Hsplit Hn Hname) as Htr.
  apply node_at_Some in Hn as [Hpp Hpar].
  pose proof (created_parent_old _ _ _ _ _ _ Hinv Hpar) as Hold.
  destruct (decide (name = EmptyString)); [done|].
  split_and!.
  - unfold _traverse in *. rewrite (path_parts_rsplit _ _ _ Hsplit).
    destruct (decide (name = EmptyString)); [done|].
    rewrite walk_app, Hpp. simpl. by rewrite Hpar, Hname.
  - apply node_at_Some. split; [done|]. simpl.
    rewrite lookup_insert_ne by done. by rewrite lookup_insert_eq.
  - simpl. rewrite lookup_insert_eq. by eexists.
Qed.

(** X7. After any sequence of calls on a new file system, a successful
    [mkdir(path)] or [create_file(path)], for a path that does not end
    with a separator, makes a path that resolved to nothing resolve to a
    new registered inode: an empty directory, for which [ls] returns
    the empty list, or an empty file, for which [read] at a non-negative
    offset returns the empty bytes. *)
Theorem create_resolves (total_blocks : Z) (cs : list call)
    (path parent_path name : string) :
  rsplit_slash path = Some (parent_path, name) → name ≠ EmptyString →
  (∀ st', mkdir (after total_blocks cs) path = Ret true st' →
     _traverse (after total_blocks cs) path = None ∧
     node_at st' path
       = Some (next_inode_id (after total_blocks cs),
               Directory (next_inode_id (after total_blocks cs)) 0 [] ∅) ∧
     is_Some (inodes st' !! next_inode_id (after total_blocks cs)) ∧
     ls st' path = Ret (Some []) st') ∧
  (∀ st', create_file (after total_blocks cs) path = Ret true st' →
     _traverse (after total_blocks cs) path = None ∧
     node_at st' path
       = Some (next_inode_id (after total_blocks cs),
               File (next_inode_id (after total_blocks cs)) 0 []) ∧
     is_Some (inodes st' !! next_inode_id (after total_blocks cs)) ∧
     ∀ size_ offset, 0 ≤ offset → read st' path size_ offset = Ret (Some []) st').
Proof.
  intros Hsplit Hne. pose proof (after_inv total_blocks cs) as Hinv.
  split; intros st' Hc.
  - destruct (create_node_resolves Directory_init _ _ _ _ _ Hinv ltac:(by right)
                Hsplit Hne Hc) as (H1 & H2 & H3).
    split_and!; [done..|]. unfold ls. rewrite H2. simpl.
    by rewrite map_to_list_empty.
  - destruct (create_node_resolves File_init _ _ _ _ _ Hinv ltac:(by left)
                Hsplit Hne Hc) as (H1 & H2 & H3).
    split_and!; [done..|]. intros size_ offset Hoff. unfold read. rewrite H2. simpl.
    by rewrite (proj2 (Z.leb_le 0 offset) Hoff).
Qed.

Lemma create_resolves_witness :
  rsplit_slash "/a" = Some ("", "a")%string ∧ "a"%string ≠ EmptyString ∧
  mkdir (after 1024 []) "/a" = Ret true (after 1024 [Mkdir "/a"]) ∧
  ls (after 1024 [Mkdir "/a"]) "/a" = Ret (Some []) (after 1024 [Mkdir "/a"]).
Proof.
  assert (H1 : rsplit_slash "/a" = Some ("", "a")%string) by reflexivity.
  assert (H2 : "a"%string ≠ EmptyString) by discriminate.
  assert (H3 : mkdir (after 1024 []) "/a" = Ret true (after 1024 [Mkdir "/a"]))
    by (vm_compute; reflexivity).
  split; [exact H1|]. split; [exact H2|]. split; [exact H3|].
  exact (proj2 (proj2 (proj2 (proj1 (create_resolves 1024 [] "/a" "" "a" H1 H2) _ H3)))).
Defined.

(** X8. After any sequence of calls on a new file system, [mkdir] and
    [create_file], whatever they return or raise, leave every path that
    resolved resolving to the same inode, leave what [read] returns
    there unchanged, and touch neither the block store nor the data
    blocks. *)
Theorem create_keeps_paths (total_blocks : Z) (cs : list call)
    (op : FileSystem → string → outcome bool) (path p : string) (size_ offset : Z) :
  op ∈ creators →
  is_Some (_traverse (after total_blocks cs) p) →
  _traverse (state_of (after total_blocks cs) (op (after total_blocks cs) path)) p
  = _traverse (after total_blocks cs) p ∧
  result_of (read (state_of (after total_blocks cs) (op (after total_blocks cs) path))
                  p size_ offset)
  = result_of (read (after total_blocks cs) p size_ offset) ∧
  block_mgr (state_of (after total_blocks cs) (op (after total_blocks cs) path))
  = block_mgr (after total_blocks cs) ∧
  data_blocks (state_of (after total_blocks cs) (op (after total_blocks cs) path))
  = data_blocks (after total_blocks cs).
Proof.
  intros (mk & Hmk & ->)%creators_cases [r Hr].
  pose proof (after_inv total_blocks cs) as Hinv.
  destruct (create_node_cases mk (after total_blocks cs) path)
    as [[_ ->]|[[_ ->]|(pp & name & par & pid & ps & pb & es & _ & Hn & Hname & ->)]];
    [done..|].
  apply node_at_Some in Hn as [_ Hpar]. simpl state_of.
  assert (Htr : _traverse (created mk (after total_blocks cs) par pid ps pb es name) p
                = Some r).
  { apply walk_chain. apply (chain_mono (objs (after total_blocks cs))).
    - intros d nm c He. apply created_entry; [done..|by left].
    - by apply walk_chain. }
  split_and!; [congruence| |done..].
  destruct (chain_is_Some _ (path_parts p) r Hinv) as [n Hobj]; [by apply walk_chain|].
  pose proof (created_fresh _ Hinv) as Hfresh.
  unfold read, node_at. rewrite Htr, Hr, Hobj. simpl.
  destruct (decide (par = r)) as [<-|Hne].
  - rewrite lookup_insert_eq. rewrite Hpar in Hobj. by injection Hobj as <-.
  - rewrite lookup_insert_ne by done. rewrite lookup_insert_ne by congruence.
    rewrite Hobj. destruct n as [i s b|]; [|done].
    destruct (s <=? offset); [done|]. simpl.
    by destruct (copy_out b _ offset _).
Qed.

Lemma create_keeps_paths_witness :
  mkdir ∈ creators ∧
  is_Some (_traverse (after 1024 [CreateFile "/f"; Write "/f" hello 0]) "/f") ∧
  result_of (read (state_of (after 1024 [CreateFile "/f"; Write "/f" hello 0])
                     (mkdir (after 1024 [CreateFile "/f"; Write "/f" hello 0]) "/d"))
                  "/f" 5 0)
  = result_of (read (after 1024 [CreateFile "/f"; Write "/f" hello 0]) "/f" 5 0).
Proof.
  assert (H1 : mkdir ∈ creators) by (apply elem_of_cons; by left).
  assert (H2 : is_Some (_traverse (after 1024 [CreateFile "/f"; Write "/f" hello 0]) "/f"))
    by (exists 2; vm_compute; reflexivity).
  split; [exact H1|]. split; [exact H2|].
  exact (proj1 (proj2 (create_keeps_paths 1024 [CreateFile "/f"; Write "/f" hello 0]
                         mkdir "/d" "/f" 5 0 H1 H2))).
Defined.

(** X9. After any sequence of calls on a new file system, [mkdir] or
    [create_file] on a path that ends with a separator and is accepted
    adds the entry [""] to the directory before the separator: the new
    inode is in the registry, no path resolves to it, and the path given
    resolves to that directory. *)
Theorem create_trailing_separator (total_blocks : Z) (cs : list call)
    (op : FileSystem → string → outcome bool) (path parent_path : string)
    (st' : FileSystem) :
  op ∈ creators →
  rsplit_slash path = Some (parent_path, EmptyString) →
  op (after total_blocks cs) path = Ret true st' →
  is_Some (inodes st' !! next_inode_id (after total_blocks cs)) ∧
  (∃ parent, entry (objs st') parent "" (next_inode_id (after total_blocks cs)) ∧
             _traverse st' path = Some parent ∧
             _traverse (after total_blocks cs) (or_slash parent_path) = Some parent) ∧
  (∀ p, _traverse st' p ≠ Some (next_inode_id (after total_blocks cs))).
Proof.
  intros (mk & Hmk & ->)%creators_cases Hsplit Hc.
  pose proof (after_inv total_blocks cs) as Hinv.
  destruct (create_node_cases mk (after total_blocks cs) path)
    as [[_ E]|[[_ E]|(pp & nm & par & pid & ps & pb & es & Hsplit' & Hn & Hname & E)]];
    [congruence..|].
  rewrite Hsplit in Hsplit'. injection Hsplit' as <- <-.
  rewrite E in Hc. injection Hc as <-.
  pose proof (created_traverse mk _ path parent_path "" par pid ps pb es Hinv
                Hmk Hsplit Hn Hname) as Htr.
  apply node_at_Some in Hn as [Hpp Hpar].
  pose proof (created_fresh _ Hinv) as Hfresh.
  split_and!.
  - simpl. rewrite lookup_insert_eq. by eexists.
  - exists par. split_and!; [|done..].
    apply created_entry; [done..|by right].
  - intros p Hp. unfold _traverse in Hp.
    destruct (path_parts p) as [|n ns _] eqn:Hparts using rev_ind.
    + simpl in Hp. injection Hp as Hroot.
      destruct (inv_root _ Hinv) as (?&?&?&?&Hr). congruence.
    + apply walk_chain, chain_snoc_inv in Hp as (d & _ & He).
      destruct (proj1 (created_entry mk _ par pid ps pb es "" Hinv Hmk Hpar Hname
                         d n _) He) as [He'|(_ & -> & _)].
      * apply (inv_closed _ Hinv) in He' as [? ?]. congruence.
      * pose proof (path_parts_spec p) as Hall. rewrite Hparts in Hall.
        apply Forall_app in Hall as [_ Hlast].
        by inversion Hlast as [|? ? [? _]].
Qed.

Lemma create_trailing_separator_witness :
  mkdir ∈ creators ∧
  rsplit_slash "/a/" = Some ("/a", "")%string ∧
  mkdir (after 1024 [Mkdir "/a"]) "/a/" = Ret true (after 1024 [Mkdir "/a"; Mkdir "/a/"]) ∧
  is_Some (inodes (after 1024 [Mkdir "/a"; Mkdir "/a/"])
             !! next_inode_id (after 1024 [Mkdir "/a"])) ∧
  ∀ p, _traverse (after 1024 [Mkdir "/a"; Mkdir "/a/"]) p
       ≠ Some (next_inode_id (after 1024 [Mkdir "/a"])).
Proof.
  assert (H1 : mkdir ∈ creators) by (apply elem_of_cons; by left).
  assert (H2 : rsplit_slash "/a/" = Some ("/a", "")%string) by reflexivity.
  assert (H3 : mkdir (after 1024 [Mkdir "/a"]) "/a/"
               = Ret true (after 1024 [Mkdir "/a"; Mkdir "/a/"]))
    by (vm_compute; reflexivity).
  split; [exact H1|]. split; [exact H2|]. split; [exact H3|].
  pose proof (create_trailing_separator 1024 [Mkdir "/a"] mkdir "/a/" "/a" _ H1 H2 H3)
    as (Ha & _ & Hb).
  exact (conj Ha Hb).
Defined.

(** ** [ls] *)

Lemma ls_directory (st : FileSystem) (path : string) (r i s : Z) (b : list Z)
    (es : gmap string Z) :
  node_at st path = Some (r, Directory i s b es) →
  ls st path = Ret (Some (fst <$> map_to_list es)) st.
Proof. intros H. unfold ls. by rewrite H. Qed.

Lemma not_elem_of_keys (es : gmap string Z) (name : string) :
  es !! name = None → name ∉ (fst <$> map_to_list es).
Proof.
  intros Hname ([nm c] & -> & Hin)%list_elem_of_fmap.
  apply elem_of_map_to_list in Hin. simpl in Hname. congruence.
Qed.

(** X10. After any sequence of calls on a new file system, [ls] of the
    parent directory follows the entries: a successful [mkdir] or
    [create_file] adds the new name, which was not listed, to the names
    listed before, and a successful [delete] takes the name, which is
    then no longer listed, out of them; nothing else changes in the
    listing (the order of the names apart). *)
Theorem ls_tracks_entries (total_blocks : Z) (cs : list call)
    (path parent_path name : string) :
  rsplit_slash path = Some (parent_path, name) →
  (∀ op st', op ∈ creators → op (after total_blocks cs) path = Ret true st' →
     ∃ names names',
       ls (after total_blocks cs) (or_slash parent_path)
         = Ret (Some names) (after total_blocks cs) ∧
       ls st' (or_slash parent_path) = Ret (Some names') st' ∧
       (name ∉ names) ∧ names' ≡ₚ name :: names) ∧
  (∀ st', fs_delete (after total_blocks cs) path = Ret true st' →
     ∃ names names',
       ls (after total_blocks cs) (or_slash parent_path)
         = Ret (Some names) (after total_blocks cs) ∧
       ls st' (or_slash parent_path) = Ret (Some names') st' ∧
       (name ∉ names') ∧ names ≡ₚ name :: names').
Proof.
  intros Hsplit. pose proof (after_inv total_blocks cs) as Hinv. split.
  - intros op st' (mk & Hmk & ->)%creators_cases Hc.
    destruct (create_node_cases mk (after total_blocks cs) path)
      as [[_ E]|[[_ E]|(pp & nm & par & pid & ps & pb & es & Hsplit' & Hn & Hname & E)]];
      [congruence..|].
    rewrite Hsplit in Hsplit'. injection Hsplit' as <- <-.
    rewrite E in Hc. injection Hc as <-.
    exists (fst <$> map_to_list es),
           (fst <$> map_to_list (<[name := next_inode_id (after total_blocks cs)]> es)).
    split_and!.
    + by apply (ls_directory _ _ par pid ps pb).
    + apply (ls_directory _ _ par pid ps pb). apply node_at_Some in Hn as [Htr Hpar].
      apply node_at_Some. split; [|simpl; by rewrite lookup_insert_eq].
      apply walk_chain. apply (chain_mono (objs (after total_blocks cs))).
      * intros d n c He. apply created_entry; [done..|by left].
      * by apply walk_chain.
    + by apply not_elem_of_keys.
    + by rewrite map_to_list_insert.
  - intros st' Hd.
    destruct (fs_delete_cases_full (after total_blocks cs) path Hinv)
      as [[_ E]|[(? & ? & _ & _ & E)
                |(pp & nm & par & pid & ps & pb & es & child & node
                  & Hsplit' & Hn & Hname & Hchild & E)]]; [congruence..|].
    rewrite Hsplit in Hsplit'. injection Hsplit' as <- <-.
    rewrite E in Hd. injection Hd as <-.
    exists (fst <$> map_to_list es), (fst <$> map_to_list (delete name es)).
    split_and!.
    + by apply (ls_directory _ _ par pid ps pb).
    + apply (ls_directory _ _ par pid ps pb). apply node_at_Some in Hn as [Htr Hpar].
      apply node_at_Some. split; [|simpl; by rewrite lookup_insert_eq].
      apply walk_chain. apply chain_to_parent_deleted; [done|done|lia|].
      by apply walk_chain.
    + apply not_elem_of_keys, lookup_delete_eq.
    + by rewrite <- (map_to_list_delete es name child Hname).
Qed.

Lemma ls_tracks_entries_witness :
  rsplit_slash "/a/f" = Some ("/a", "f")%string ∧
  create_file ∈ creators ∧
  create_file (after 1024 [Mkdir "/a"]) "/a/f"
    = Ret true (after 1024 [Mkdir "/a"; CreateFile "/a/f"]) ∧
  ∃ names names',
    ls (after 1024 [Mkdir "/a"]) (or_slash "/a") = Ret (Some names) (after 1024 [Mkdir "/a"]) ∧
    ls (after 1024 [Mkdir "/a"; CreateFile "/a/f"]) (or_slash "/a")
      = Ret (Some names') (after 1024 [Mkdir "/a"; CreateFile "/a/f"]) ∧
    ("f"%string ∉ names) ∧ names' ≡ₚ "f"%string :: names.
Proof.
  assert (H1 : rsplit_slash "/a/f" = Some ("/a", "f")%string) by reflexivity.
  assert (H2 : create_file ∈ creators)
    by (apply elem_of_cons; right; apply elem_of_cons; by left).
  assert (H3 : create_file (after 1024 [Mkdir "/a"]) "/a/f"
               = Ret true (after 1024 [Mkdir "/a"; CreateFile "/a/f"]))
    by (vm_compute; reflexivity).
  split; [exact H1|]. split; [exact H2|]. split; [exact H3|].
  exact (proj1 (ls_tracks_entries 1024 [Mkdir "/a"] "/a/f" "/a" "f" H1) create_file _ H2 H3).
Defined.

(** ** The root *)

Lemma exec_root (c : call) (st : FileSystem) : fs_inv st → root (exec c st) = root st.
Proof.
  intros Hinv. destruct c; simpl.
  - destruct (create_node_cases Directory_init st path)
      as [[_ E]|[[_ E]|(?&?&?&?&?&?&?&_&_&_&E)]]; unfold mkdir; by rewrite E.
  - destruct (create_node_cases File_init st path)
      as [[_ E]|[[_ E]|(?&?&?&?&?&?&?&_&_&_&E)]]; unfold create_file; by rewrite E.
  - destruct (write_cases st path bytes offset)
      as [[_ ->]|(?&?&?&?&?&?&_&_&_&[(_&_&->)|[(_&?&_&->)|(_&?&?&_&->)]])]; done.
  - by rewrite read_state.
  - by rewrite ls_state.
  - destruct (fs_delete_cases st path Hinv)
      as [[_ E]|[[_ E]|(?&?&?&?&?&?&?&?&?&_&_&_&_&E)]]; by rewrite E.
Qed.

Lemma run_root (cs : list call) (st : FileSystem) : fs_inv st → root (run cs st) = root st.
Proof.
  revert st. induction cs as [|c cs IH]; intros st Hinv; [done|].
  simpl. rewrite IH by by apply exec_inv. by apply exec_root.
Qed.

(** X11. The root directory outlives every sequence of calls on a new
    file system: it is the inode 1, a directory in the registry; [""]
    and ["/"] resolve to it; [ls("/")] returns a list; and [delete]
    never removes it, since no entry refers to it. *)
Theorem root_permanent (total_blocks : Z) (cs : list call) :
  root (after total_blocks cs) = 1 ∧
  _traverse (after total_blocks cs) "/" = Some 1 ∧
  _traverse (after total_blocks cs) "" = Some 1 ∧
  (∃ s b es, objs (after total_blocks cs) !! 1 = Some (Directory 1 s b es)) ∧
  is_Some (inodes (after total_blocks cs) !! 1) ∧
  (∃ names, ls (after total_blocks cs) "/" = Ret (Some names) (after total_blocks cs)) ∧
  (∀ d name, ¬ entry (objs (after total_blocks cs)) d name 1).
Proof.
  pose proof (after_inv total_blocks cs) as Hinv.
  assert (Hroot : root (after total_blocks cs) = 1).
  { unfold after. by rewrite run_root by apply init_inv. }
  destruct (inv_root _ Hinv) as (i & s & b & es & Hr). rewrite Hroot in Hr.
  pose proof (inv_id _ Hinv _ _ Hr) as Hid. simpl in Hid. subst i.
  split_and!.
  - done.
  - unfold _traverse. simpl. by rewrite Hroot.
  - unfold _traverse. simpl. by rewrite Hroot.
  - by exists s, b, es.
  - apply (inv_registry _ Hinv). by left.
  - eexists. apply (ls_directory _ _ 1 1 s b es). apply node_at_Some.
    split; [|done]. unfold _traverse. simpl. by rewrite Hroot.
  - intros d name. rewrite <- Hroot. by apply no_entry_to_root.
Qed.

(** ** The block store *)

Lemma BlockManager_init_S (n : nat) :
  free_blocks (BlockManager_init (Z.of_nat (S n)))
  = free_blocks (BlockManager_init (Z.of_nat n)) ++ [Z.of_nat n].
Proof.
  unfold BlockManager_init. simpl free_blocks. rewrite !Nat2Z.id.
  by rewrite seq_S, fmap_app.
Qed.

(** X12. [allocate] right after [free(b)] returns [b] and leaves the
    block store as it was before the [free]: the free list is a stack. *)
Theorem allocate_after_free (bm : BlockManager) (blk : Z) :
  allocate (free bm blk) = (Some blk, bm).
Proof. apply allocate_Some. by destruct bm. Qed.

(** X13. A new block store with [total_blocks = n] hands out the ids
    [n-1, n-2, ..., 0] in this order: [k <= n] calls of [allocate] return
    [n-1 .. n-k] and leave the store of a new one with [n-k] blocks; and
    [allocate] on a new store returns [None] exactly when
    [total_blocks <= 0]. *)
Theorem allocate_order (n k : nat) :
  (k ≤ n)%nat →
  allocate_n k (BlockManager_init (Z.of_nat n))
  = ((λ i : nat, Some (Z.of_nat n - 1 - Z.of_nat i)) <$> seq 0 k,
     BlockManager_init (Z.of_nat (n - k))) ∧
  ∀ total_blocks, (allocate (BlockManager_init total_blocks)).1 = None ↔ total_blocks ≤ 0.
Proof.
  intros Hk. split.
  - revert n Hk. induction k as [|k IH]; intros n Hk; simpl.
    + by rewrite Nat.sub_0_r.
    + destruct n as [|n]; [lia|].
      assert (E : allocate (BlockManager_init (Z.of_nat (S n)))
                  = (Some (Z.of_nat n), BlockManager_init (Z.of_nat n))).
      { apply allocate_Some. apply BlockManager_init_S. }
      rewrite E, (IH n) by lia. f_equal. f_equal; [f_equal; lia|].
      rewrite <- fmap_S_seq, <- list_fmap_compose. apply list_fmap_ext.
      intros i x _. simpl. f_equal. lia.
  - intros total_blocks. rewrite allocate_None. unfold BlockManager_init. simpl.
    destruct (Z.to_nat total_blocks) eqn:E; simpl; split; try done; lia.
Qed.

Lemma allocate_order_witness :
  (2 ≤ 3)%nat ∧
  allocate_n 2 (BlockManager_init (Z.of_nat 3))
  = ((λ i : nat, Some (Z.of_nat 3 - 1 - Z.of_nat i)) <$> seq 0 2,
     BlockManager_init (Z.of_nat (3 - 2))).
Proof.
  assert (H : (2 ≤ 3)%nat) by lia.
  split; [exact H|]. exact (proj1 (allocate_order 3 2 H)).
Defined.

(** ** Exceptions *)

Lemma calls_return_witness :
  0 ≤ 0 ∧
  ¬ raises (write (after 1024 [CreateFile "/f"]) "/f" hello 0) ∧
  ¬ raises (read (after 1024 [CreateFile "/f"]) "/f" 5 0) ∧
  ¬ raises (ls (after 1024 [CreateFile "/f"]) "/f").
Proof.
  assert (H : 0 ≤ 0) by lia.
  split; [exact H|].
  exact (proj2 (calls_return 1024 [CreateFile "/f"] "/f" hello 5 0 H)).
Defined.

(** X15. [write] of a non-empty payload that ends at or before position
    0, to a file without blocks, raises [IndexError] (from
    [node.blocks[blk_idx]] with a negative index into the empty list) and
    leaves the state as it was. *)
Theorem write_before_start_raises (st : FileSystem) (path : string)
    (bytes : list Byte.byte) (offset : Z) (node iid fsize : Z) :
  node_at st path = Some (node, File iid fsize []) →
  bytes ≠ [] →
  offset + Z.of_nat (length bytes) ≤ 0 →
  write st path bytes offset = Raise IndexError st.
Proof.
  intros Hn Hne Hend. pose proof BLOCK_SIZE_pos as Hpos.
  unfold write. rewrite Hn.
  assert (Hloop : ∀ fuel,
            alloc_loop fuel (offset + Z.of_nat (length bytes)) (block_mgr st) []
              (data_blocks st) = Some (true, block_mgr st, [], data_blocks st)).
  { intros fuel.
    assert (E : (Z.of_nat (length (@nil Z)) * BLOCK_SIZE
                 <? offset + Z.of_nat (length bytes)) = false)
      by (apply Z.ltb_ge; simpl; lia).
    destruct fuel; simpl; simpl in E; by rewrite E. }
  rewrite Hloop. destruct bytes as [|byte rest]; [done|].
  assert (Hidx : py_getitem (@nil Z) (offset `div` BLOCK_SIZE) = None).
  { simpl in Hend. unfold py_getitem.
    assert (offset `div` BLOCK_SIZE < 0) by (apply Z.div_lt_upper_bound; lia).
    destruct (Z.leb_spec 0 (offset `div` BLOCK_SIZE)); [lia|].
    destruct (Z.leb_spec (- (offset `div` BLOCK_SIZE)) (Z.of_nat (length (@nil Z))));
      [simpl in *; lia|done]. }
  simpl copy_in. rewrite Hidx. f_equal.
  apply node_at_Some in Hn as [_ Hobj].
  destruct st as [bm h reg nxt db rt]. unfold set_data_blocks, set_objs, set_block_mgr.
  simpl in *. by rewrite insert_id.
Qed.

Lemma write_before_start_raises_witness :
  node_at (after 1024 [CreateFile "/f"]) "/f" = Some (2, File 2 0 []) ∧
  hello ≠ [] ∧
  -5 + Z.of_nat (length hello) ≤ 0 ∧
  write (after 1024 [CreateFile "/f"]) "/f" hello (-5)
    = Raise IndexError (after 1024 [CreateFile "/f"]).
Proof.
  assert (H1 : node_at (after 1024 [CreateFile "/f"]) "/f" = Some (2, File 2 0 []))
    by (vm_compute; reflexivity).
  assert (H2 : hello ≠ []) by discriminate.
  assert (H3 : -5 + Z.of_nat (length hello) ≤ 0) by (simpl; lia).
  split; [exact H1|]. split; [exact H2|]. split; [exact H3|].
  exact (write_before_start_raises _ "/f" hello (-5) 2 2 0 H1 H2 H3).
Defined.

(** With a negative index the copy loop counts the blocks from the end:
    below position 0 it does what it does one capacity further. *)
Lemma copy_in_wrap (blks : list Z) (db : gmap Z DataBlock) (idx : Z)
    (bytes : list Byte.byte) :
  - (Z.of_nat (length blks) * BLOCK_SIZE) ≤ idx →
  idx + Z.of_nat (length bytes) ≤ 0 →
  copy_in blks db idx bytes
  = copy_in blks db (idx + Z.of_nat (length blks) * BLOCK_SIZE) bytes.
Proof.
  pose proof BLOCK_SIZE_pos as Hpos.
  revert db idx. induction bytes as [|byte rest IH]; intros db idx Hlo Hhi; [done|].
  simpl in Hhi. simpl.
  rewrite Z.div_add, Z.mod_add by lia.
  assert (Hq1 : idx `div` BLOCK_SIZE < 0) by (apply Z.div_lt_upper_bound; lia).
  assert (Hq2 : - Z.of_nat (length blks) ≤ idx `div` BLOCK_SIZE)
    by (apply Z.div_le_lower_bound; lia).
  assert (Hget : py_getitem blks (idx `div` BLOCK_SIZE)
                 = py_getitem blks (idx `div` BLOCK_SIZE + Z.of_nat (length blks))).
  { unfold py_getitem.
    destruct (Z.leb_spec 0 (idx `div` BLOCK_SIZE)); [lia|].
    destruct (Z.leb_spec (- (idx `div` BLOCK_SIZE)) (Z.of_nat (length blks))); [|lia].
    destruct (Z.leb_spec 0 (idx `div` BLOCK_SIZE + Z.of_nat (length blks))); [|lia].
    f_equal. lia. }
  rewrite Hget. clear Hget.
  destruct (py_getitem blks (idx `div` BLOCK_SIZE + Z.of_nat (length blks))) as [blk|];
    [|reflexivity].
  destruct (db !! blk) as [d|]; [|done].
  destruct (idx `mod` BLOCK_SIZE <? Z.of_nat (length (data d))); [|done].
  rewrite IH by lia. f_equal. lia.
Qed.

(** X16. After any sequence of calls on a new file system, [write] with
    a negative offset whose payload ends at or before position 0 and
    starts no further back than the capacity [len(blocks) * BLOCK_SIZE]
    of the file returns [True], allocates nothing, leaves size and block
    list as they were, and stores the payload counted from the end of
    the last block: at the positions [capacity + offset ..]. *)
Theorem write_negative_wraps (total_blocks : Z) (cs : list call) (path : string)
    (bytes : list Byte.byte) (offset : Z) (node iid fsize : Z) (blks : list Z) :
  node_at (after total_blocks cs) path = Some (node, File iid fsize blks) →
  - (Z.of_nat (length blks) * BLOCK_SIZE) ≤ offset →
  offset + Z.of_nat (length bytes) ≤ 0 →
  ∃ st',
    write (after total_blocks cs) path bytes offset = Ret true st' ∧
    node_at st' path = Some (node, File iid fsize blks) ∧
    block_mgr st' = block_mgr (after total_blocks cs) ∧
    ∀ k, (k < length bytes)%nat →
         byte_at blks (data_blocks st')
                 (Z.of_nat (length blks) * BLOCK_SIZE + offset + Z.of_nat k)
         = bytes !! k.
Proof.
  intros Hn Hlo Hhi. pose proof (after_inv total_blocks cs) as Hinv.
  pose proof BLOCK_SIZE_pos as Hpos.
  pose proof (node_at_linked _ _ _ _ _ _ Hinv Hn) as Hl.
  destruct (write_cases (after total_blocks cs) path bytes offset)
    as [[Hnot _]|(node' & iid' & fsize' & blks' & bm & taken & Hn' & Hfree & Hmin & Hcases)].
  { by destruct (Hnot node iid fsize blks). }
  rewrite Hn in Hn'. injection Hn' as <- <- <- <-.
  assert (taken = []) as ->.
  { destruct taken as [|t taken]; [done|].
    specialize (Hmin ltac:(done)). rewrite length_app in Hmin. simpl in Hmin. nia. }
  rewrite app_nil_r in *. simpl in Hfree, Hcases. rewrite ?app_nil_r in Hfree.
  assert (Hbm : bm = block_mgr (after total_blocks cs)).
  { destruct bm, (block_mgr (after total_blocks cs)). simpl in Hfree. by subst. }
  apply node_at_Some in Hn as Hn2. destruct Hn2 as [_ Hobj].
  pose proof (inv_capacity _ Hinv _ _ _ _ Hobj) as Hcap.
  assert (Hnd : NoDup blks).
  { apply (inv_blocks _ Hinv node). split; [by exists iid, fsize|done]. }
  destruct (copy_in_total blks (data_blocks (after total_blocks cs))
              (offset + Z.of_nat (length blks) * BLOCK_SIZE) bytes) as [db1 Hcopy];
    [|lia|lia|].
  { intros x Hx. by apply (inv_data _ Hinv node iid fsize blks). }
  rewrite copy_in_wrap in Hcases by done. rewrite Hcopy in Hcases.
  destruct Hcases as [(_ & Hshort & _)|[(_ & db' & [= <-] & E)|(_ & e & db' & [=] & _)]];
    [lia|].
  rewrite Z.max_l in E by lia.
  eexists. split; [exact E|]. split_and!.
  - pose proof (written_node_at _ path node iid fsize fsize blks [] bm db1 Hn) as H.
    by rewrite app_nil_r in H.
  - done.
  - intros k Hk.
    destruct (copy_in_spec blks _ _ (offset + Z.of_nat (length blks) * BLOCK_SIZE) bytes
                Hnd ltac:(lia) Hcopy) as [Hput _].
    rewrite <- (Hput k Hk). simpl. f_equal. lia.
Qed.

Lemma write_negative_wraps_witness :
  node_at (after 1024 [CreateFile "/f"; Write "/f" hello 0]) "/f"
    = Some (2, File 2 5 [1023]) ∧
  - (Z.of_nat (length [1023]) * BLOCK_SIZE) ≤ -5 ∧
  -5 + Z.of_nat (length world) ≤ 0 ∧
  ∃ st',
    write (after 1024 [CreateFile "/f"; Write "/f" hello 0]) "/f" world (-5)
      = Ret true st' ∧
    node_at st' "/f" = Some (2, File 2 5 [1023]) ∧
    block_mgr st' = block_mgr (after 1024 [CreateFile "/f"; Write "/f" hello 0]) ∧
    ∀ k, (k < length world)%nat →
         byte_at [1023] (data_blocks st')
                 (Z.of_nat (length [1023]) * BLOCK_SIZE + -5 + Z.of_nat k)
         = world !! k.
Proof.
  assert (H1 : node_at (after 1024 [CreateFile "/f"; Write "/f" hello 0]) "/f"
               = Some (2, File 2 5 [1023])) by (vm_compute; reflexivity).
  assert (H2 : - (Z.of_nat (length [1023]) * BLOCK_SIZE) ≤ -5)
    by (vm_compute; discriminate).
  assert (H3 : -5 + Z.of_nat (length world) ≤ 0) by (vm_compute; discriminate).
  split; [exact H1|]. split; [exact H2|]. split; [exact H3|].
  exact (write_negative_wraps 1024 [CreateFile "/f"; Write "/f" hello 0] "/f" world (-5)
           2 2 5 [1023] H1 H2 H3).
Defined.

(** ** Blocks: the pool and their owners *)

Lemma copy_in_pool (P : Z → DataBlock → Prop) (blks : list Z) (db : gmap Z DataBlock)
    (idx : Z) (bytes : list Byte.byte) :
  (∀ x d l, P x d → length l = length (data d) → P x (mkDataBlock (block_id d) l)) →
  (∀ x d, db !! x = Some d → P x d) →
  ∀ x d, match copy_in blks db idx bytes with inl db' => db' | inr (_, db') => db' end
           !! x = Some d → P x d.
Proof.
  intros HP. revert db idx. induction bytes as [|byte rest IH]; intros db idx Hdb; simpl;
    [done|].
  destruct (py_getitem blks (idx `div` BLOCK_SIZE)) as [blk|]; [|done].
  destruct (db !! blk) as [d0|] eqn:Hd0; [|done].
  destruct (idx `mod` BLOCK_SIZE <? Z.of_nat (length (data d0))); [|done].
  apply IH. intros x d. rewrite lookup_insert_Some. intros [[<- <-]|[_ H]]; [|by apply Hdb].
  apply HP; [by apply Hdb|]. by rewrite length_insert.
Qed.

Lemma fresh_blocks_pool (P : Z → DataBlock → Prop) (db : gmap Z DataBlock)
    (taken : list Z) :
  (∀ x, x ∈ taken → P x (DataBlock_init x)) →
  (∀ x d, db !! x = Some d → P x d) →
  ∀ x d, fresh_blocks db taken !! x = Some d → P x d.
Proof.
  revert db. induction taken as [|t taken IH]; intros db Ht Hdb; simpl; [done|].
  apply IH.
  - intros x Hx. apply Ht. by right.
  - intros x d. rewrite lookup_insert_Some. intros [[<- <-]|[_ H]]; [|by apply Hdb].
    apply Ht. by left.
Qed.

Lemma init_pool (total_blocks : Z) : pool_inv total_blocks (FileSystem_init total_blocks).
Proof.
  unfold pool_inv, FileSystem_init. simpl. rewrite insert_empty. split_and!.
  - intros x (k & -> & Hk)%list_elem_of_fmap. apply elem_of_seq in Hk. lia.
  - intros r n x [_ <-]%lookup_singleton_Some Hx. by apply elem_of_nil in Hx.
  - intros x d H. by rewrite lookup_empty in H.
Qed.

Lemma exec_pool (total_blocks : Z) (c : call) (st : FileSystem) :
  fs_inv st → pool_inv total_blocks st → pool_inv total_blocks (exec c st).
Proof.
  intros Hinv (Hfree & Hblks & Hdb).
  assert (Hcreate : ∀ mk path, constructor mk →
            pool_inv total_blocks (state_of st (create_node mk st path))).
  { intros mk path Hmk.
    destruct (create_node_cases mk st path)
      as [[_ ->]|[[_ ->]|(pp & name & par & pid & ps & pb & es & _ & Hn & Hname & ->)]];
      [done..|].
    apply node_at_Some in Hn as [_ Hpar]. split_and!; [done| |done].
    intros r n x. simpl. rewrite !lookup_insert_Some.
    intros [[_ <-]|[_ [[_ <-]|[_ H]]]] Hx.
    - by apply (Hblks par _ x Hpar).
    - destruct Hmk as [-> | ->]; by apply elem_of_nil in Hx.
    - by apply (Hblks r n x). }
  assert (Hwritten : ∀ node iid fsize fsize' blks taken bm db,
            objs st !! node = Some (File iid fsize blks) →
            free_blocks (block_mgr st) = free_blocks bm ++ reverse taken →
            (∀ x d, db !! x = Some d →
                    0 ≤ x < total_blocks ∧ block_id d = x ∧
                    length (data d) = Z.to_nat BLOCK_SIZE) →
            pool_inv total_blocks (written st node iid fsize' blks taken bm db)).
  { intros node iid fsize fsize' blks taken bm db Hobj Hf Hd. split_and!; [| |done].
    - intros x Hx. apply Hfree. rewrite Hf, elem_of_app. by left.
    - intros r n x. simpl. rewrite lookup_insert_Some. intros [[_ <-]|[_ H]] Hx.
      + simpl in Hx. apply elem_of_app in Hx as [Hx|Hx].
        * by apply (Hblks node _ x Hobj).
        * apply Hfree. rewrite Hf, elem_of_app, elem_of_reverse. by right.
      + by apply (Hblks r n x). }
  destruct c; simpl.
  - apply Hcreate. by right.
  - apply Hcreate. by left.
  - destruct (write_cases st path bytes offset)
      as [[_ ->]|(node & iid & fsize & blks & bm & taken & Hn & Hf & _ & Hcases)];
      [done|].
    apply node_at_Some in Hn as [_ Hobj].
    assert (Hfresh : ∀ x d, fresh_blocks (data_blocks st) taken !! x = Some d →
              0 ≤ x < total_blocks ∧ block_id d = x ∧
              length (data d) = Z.to_nat BLOCK_SIZE).
    { apply (fresh_blocks_pool
               (λ x d, 0 ≤ x < total_blocks ∧ block_id d = x ∧
                       length (data d) = Z.to_nat BLOCK_SIZE)); [|done].
      intros x Hx. split; [|split; [done|simpl; by rewrite length_replicate]].
      apply Hfree. rewrite Hf, elem_of_app, elem_of_reverse. by right. }
    pose proof (copy_in_pool
                  (λ x d, 0 ≤ x < total_blocks ∧ block_id d = x ∧
                          length (data d) = Z.to_nat BLOCK_SIZE)
                  (blks ++ taken) (fresh_blocks (data_blocks st) taken) offset bytes)
      as Hcopy.
    destruct Hcases as [(_ & _ & ->)|[(_ & db' & E & ->)|(_ & e & db' & E & ->)]]; simpl;
      apply (Hwritten _ _ fsize); try done; rewrite E in Hcopy; apply Hcopy; try done;
      intros x d l (? & ? & ?) Hl; simpl; (split; [done|split; congruence]).
  - by rewrite read_state.
  - by rewrite ls_state.
  - destruct (fs_delete_cases st path Hinv)
      as [[_ ->]|[[_ ->]|(pp & name & par & pid & ps & pb & es & child & node
                         & _ & Hn & Hname & Hchild & ->)]]; [done..|].
    apply node_at_Some in Hn as [_ Hpar]. simpl. split_and!; [| |done].
    + intros x. simpl. destruct (is_dir node); [by apply Hfree|].
      rewrite foldl_free. intros [Hx|Hx]%elem_of_app; [by apply Hfree|].
      by apply (Hblks child node x).
    + intros r n x. simpl. rewrite lookup_insert_Some. intros [[_ <-]|[_ H]] Hx.
      * by apply (Hblks par _ x Hpar).
      * by apply (Hblks r n x).
Qed.

(** X17. After any sequence of calls on a new file system with
    [total_blocks] blocks, every block id on the free list or in the
    block list of an inode lies in [0, total_blocks), and every data
    block is stored under its own id, an id of that range, with exactly
    [BLOCK_SIZE] bytes. *)
Theorem pool_invariant (total_blocks : Z) (cs : list call) :
  pool_inv total_blocks (after total_blocks cs).
Proof.
  unfold after.
  assert (Hgen : ∀ st, fs_inv st → pool_inv total_blocks st →
                       pool_inv total_blocks (run cs st)).
  { induction cs as [|c cs IH]; intros st Hinv Hpool; [done|].
    simpl. apply IH; [by apply exec_inv|by apply exec_pool]. }
  apply Hgen; [apply init_inv|apply init_pool].
Qed.

(** X18. After any sequence of calls on a new file system, the block
    list of a file a path resolves to has no repetition and shares no id
    with the free list, nor with the block list of a file that another
    path resolves to, unless it is the same inode. *)
Theorem files_share_no_block (total_blocks : Z) (cs : list call)
    (path_a path_b : string) (a b ia sa ib sb : Z) (blks_a blks_b : list Z) :
  node_at (after total_blocks cs) path_a = Some (a, File ia sa blks_a) →
  node_at (after total_blocks cs) path_b = Some (b, File ib sb blks_b) →
  NoDup blks_a ∧
  (∀ x, x ∈ blks_a → x ∉ free_blocks (block_mgr (after total_blocks cs))) ∧
  (a ≠ b → ∀ x, x ∈ blks_a → x ∉ blks_b).
Proof.
  intros Ha Hb. pose proof (after_inv total_blocks cs) as Hinv.
  pose proof (node_at_linked _ _ _ _ _ _ Hinv Ha) as Hla.
  pose proof (node_at_linked _ _ _ _ _ _ Hinv Hb) as Hlb.
  apply node_at_Some in Ha as [_ Ha]. apply node_at_Some in Hb as [_ Hb].
  assert (Hoa : owned (after total_blocks cs) a blks_a) by (split; [by exists ia, sa|done]).
  assert (Hob : owned (after total_blocks cs) b blks_b) by (split; [by exists ib, sb|done]).
  destruct (inv_blocks _ Hinv a blks_a Hoa) as [Hnd Hfree].
  split_and!; [done..|].
  intros Hne. by apply (inv_disjoint _ Hinv a b).
Qed.

Lemma files_share_no_block_witness :
  node_at (after 1024 [CreateFile "/f"; CreateFile "/g"; Write "/f" hello 0;
                       Write "/g" world 0]) "/f" = Some (2, File 2 5 [1023]) ∧
  node_at (after 1024 [CreateFile "/f"; CreateFile "/g"; Write "/f" hello 0;
                       Write "/g" world 0]) "/g" = Some (3, File 3 5 [1022]) ∧
  NoDup [1023] ∧
  (∀ x, x ∈ [1023] →
        x ∉ free_blocks (block_mgr (after 1024 [CreateFile "/f"; CreateFile "/g";
                                                Write "/f" hello 0; Write "/g" world 0]))) ∧
  (2 ≠ 3 → ∀ x, x ∈ [1023] → x ∉ [1022]).
Proof.
  assert (H1 : node_at (after 1024 [CreateFile "/f"; CreateFile "/g"; Write "/f" hello 0;
                                    Write "/g" world 0]) "/f"
               = Some (2, File 2 5 [1023])) by (vm_compute; reflexivity).
  assert (H2 : node_at (after 1024 [CreateFile "/f"; CreateFile "/g"; Write "/f" hello 0;
                                    Write "/g" world 0]) "/g"
               = Some (3, File 3 5 [1022])) by (vm_compute; reflexivity).
  split; [exact H1|]. split; [exact H2|].
  exact (files_share_no_block 1024 _ "/f" "/g" 2 3 2 5 3 5 [1023] [1022] H1 H2).
Defined.

(** ** No truncation *)

Lemma exec_grows (c : call) (st : FileSystem) (r i s : Z) (b : list Z) :
  fs_inv st → objs st !! r = Some (File i s b) →
  ∃ s' b', objs (exec c st) !! r = Some (File i s' (b ++ b')) ∧ s ≤ s'.
Proof.
  intros Hinv Hr.
  assert (Hsame : ∃ s' b', objs st !! r = Some (File i s' (b ++ b')) ∧ s ≤ s').
  { exists s, []. by rewrite app_nil_r. }
  assert (Hcreate : ∀ mk path, constructor mk →
            ∃ s' b', objs (state_of st (create_node mk st path)) !! r
                     = Some (File i s' (b ++ b')) ∧ s ≤ s').
  { intros mk path Hmk.
    destruct (create_node_cases mk st path)
      as [[_ ->]|[[_ ->]|(pp & name & par & pid & ps & pb & es & _ & Hn & Hname & ->)]];
      [done..|].
    apply node_at_Some in Hn as [_ Hpar]. exists s, []. rewrite app_nil_r.
    split; [|done]. apply created_lookup; [done..|]. right. right.
    pose proof (created_fresh _ Hinv). split_and!; congruence. }
  destruct c; simpl.
  - apply Hcreate. by right.
  - apply Hcreate. by left.
  - destruct (write_cases st path bytes offset)
      as [[_ ->]|(node & iid & fsize & blks & bm & taken & Hn & _ & _ & Hcases)];
      [done|].
    apply node_at_Some in Hn as [_ Hobj].
    assert (Hw : ∀ fsize', fsize ≤ fsize' →
              ∃ s' b', <[node := File iid fsize' (blks ++ taken)]> (objs st) !! r
                       = Some (File i s' (b ++ b')) ∧ s ≤ s').
    { intros fsize' Hle. destruct (decide (node = r)) as [->|Hne].
      - rewrite lookup_insert_eq. rewrite Hobj in Hr. injection Hr as -> -> ->.
        by exists fsize', taken.
      - rewrite lookup_insert_ne by done. done. }
    destruct Hcases as [(_ & _ & ->)|[(_ & db' & _ & ->)|(_ & e & db' & _ & ->)]];
      simpl; apply Hw; lia.
  - by rewrite read_state.
  - by rewrite ls_state.
  - destruct (fs_delete_cases st path Hinv)
      as [[_ ->]|[[_ ->]|(pp & name & par & pid & ps & pb & es & child & node
                         & _ & Hn & Hname & Hchild & ->)]]; [done..|].
    apply node_at_Some in Hn as [_ Hpar]. exists s, []. rewrite app_nil_r.
    split; [|done]. simpl. rewrite lookup_insert_ne; [done|]. congruence.
Qed.

(** X19. No call truncates: over any further sequence of calls, a file
    object keeps its inode id, its size does not decrease, and its block
    list is only extended at the end. *)
Theorem file_grows_only (total_blocks : Z) (cs more : list call) (r i s : Z)
    (b : list Z) :
  objs (after total_blocks cs) !! r = Some (File i s b) →
  ∃ s' b', objs (after total_blocks (cs ++ more)) !! r = Some (File i s' (b ++ b')) ∧
           s ≤ s'.
Proof.
  pose proof (after_inv total_blocks cs) as Hinv.
  replace (after total_blocks (cs ++ more)) with (run more (after total_blocks cs))
    by (unfold after, run; by rewrite foldl_app).
  generalize dependent (after total_blocks cs). intros st Hinv. revert st Hinv s b.
  induction more as [|c more IH]; intros st Hinv s b Hr.
  - exists s, []. by rewrite app_nil_r.
  - destruct (exec_grows c st r i s b Hinv Hr) as (s1 & b1 & H1 & Hle1).
    destruct (IH (exec c st) (exec_inv c st Hinv) s1 (b ++ b1) H1)
      as (s2 & b2 & H2 & Hle2).
    exists s2, (b1 ++ b2). rewrite app_assoc. split; [done|lia].
Qed.

Lemma file_grows_only_witness :
  objs (after 1024 [CreateFile "/f"; Write "/f" hello 0]) !! 2 = Some (File 2 5 [1023]) ∧
  ∃ s' b',
    objs (after 1024 ([CreateFile "/f"; Write "/f" hello 0] ++ [Write "/f" world 5000]))
      !! 2 = Some (File 2 s' ([1023] ++ b')) ∧ 5 ≤ s'.
Proof.
  assert (H : objs (after 1024 [CreateFile "/f"; Write "/f" hello 0]) !! 2
              = Some (File 2 5 [1023])) by (vm_compute; reflexivity).
  split; [exact H|].
  exact (file_grows_only 1024 _ [Write "/f" world 5000] 2 2 5 [1023] H).
Defined.

(** ** [read] with nothing to read *)

(** X20. [read] on a file with a requested size of zero or less returns
    the empty bytes, for every offset (also a negative one), and changes
    nothing: [range(size)] is empty. *)
Theorem read_nonpositive_size (st : FileSystem) (path : string) (size_ offset : Z)
    (node iid fsize : Z) (blks : list Z) :
  node_at st path = Some (node, File iid fsize blks) →
  size_ ≤ 0 →
  read st path size_ offset = Ret (Some []) st.
Proof.
  intros Hn Hsize. unfold read. rewrite Hn.
  destruct (fsize <=? offset); [done|].
  by replace (Z.to_nat (Z.min size_ (fsize - offset))) with 0%nat by lia.
Qed.

Lemma read_nonpositive_size_witness :
  node_at (after 1024 [CreateFile "/f"; Write "/f" hello 0]) "/f"
    = Some (2, File 2 5 [1023]) ∧
  -3 ≤ 0 ∧
  read (after 1024 [CreateFile "/f"; Write "/f" hello 0]) "/f" (-3) (-7)
    = Ret (Some []) (after 1024 [CreateFile "/f"; Write "/f" hello 0]).
Proof.
  assert (H1 : node_at (after 1024 [CreateFile "/f"; Write "/f" hello 0]) "/f"
               = Some (2, File 2 5 [1023])) by (vm_compute; reflexivity).
  assert (H2 : -3 ≤ 0) by lia.
  split; [exact H1|]. split; [exact H2|].
  exact (read_nonpositive_size _ "/f" (-3) (-7) 2 2 5 [1023] H1 H2).
Defined.
